(** * NNTile: tile-intersection copy, gather, task submission and tile sizing

    A shallow embedding of the parts of NNTile that move data between tiles:

    - [src/tile/copy.cc]: the strided copy kernel [cpu_copy_intersection] and
      its submitting wrapper [copy_intersection_work];
    - [src/tensor/gather.cc]: [gather_async];
    - [src/tensor/lars_tiled_step.cc] and [src/starpu/lars_tiled_step.cc]:
      [lars_tiled_step_async] with its shape checks and its loop over the
      tiles, and the enqueue of [submit];
    - [include/nntile/tile/tile.hh]: [Tile::_get_size], the constructor
      wrapping caller memory and the allocating constructor;
    - [src/kernel/maxsumexp/cpu.cc]: the masked max / sum-of-exponents kernel;
    - [src/kernel/add_slice3/cpu.cc], [src/kernel/sumprod_fiber/cpu.cc] and
      [src/kernel/gelutanh/cpu.cc]: three more CPU kernels.

    Conventions.  [Index] is the signed 64-bit integer of the sources; it is
    embedded as [Z].  Inside the kernels and in the loops over tiles, where
    every value is bounded by the element count of a tile, its arithmetic is
    exact.  In the loop over the axes of [copy_intersection_work], whose
    offsets are arbitrary words handed in by the caller, the sums and the
    differences are those of the machine, with the wrap-around modulo [2^64]
    written out.  [std::size_t] is embedded as [Z] with its wrap-around
    modulo [2^64] written out.  A raw buffer or [std::vector] is a [list]; every
    access outside its bounds is undefined behaviour in the sources and
    yields [None] (kernels) or [Undefined] (submitting code) here. *)

From Stdlib Require Import ZArith Lia List String Floats.
From stdpp Require Import base list.

Open Scope Z_scope.

(** ** Part I: definitions *)

(** *** Arrays indexed by [Index] *)

Abbreviation Index := Z (only parsing).

(** [a[i]] for a raw pointer or vector [a] and a signed index [i]. *)
Definition zget {A : Type} (a : list A) (i : Index) : option A :=
  if i <? 0 then None else a !! Z.to_nat i.

(** [a[i] = x]. *)
Definition zset {A : Type} (a : list A) (i : Index) (x : A) : option (list A) :=
  if (0 <=? i) && (i <? Z.of_nat (length a))
  then Some (<[Z.to_nat i := x]> a) else None.

(** *** 64-bit words *)

(** [int64 z]: the integer [z] is the value of a signed 64-bit word. *)
Definition int64 (z : Z) : Prop := - 2 ^ 63 <= z < 2 ^ 63.

(** The value of the signed 64-bit word that holds [z] modulo [2^64]. *)
Definition wrap64 (z : Z) : Index := (z + 2 ^ 63) mod 2 ^ 64 - 2 ^ 63.

(** [a + b] and [a - b] on two [Index] words, as the machine computes
    them. *)
Definition add64 (a b : Index) : Index := wrap64 (a + b).

Definition sub64 (a b : Index) : Index := wrap64 (a - b).

(** [v[i]] for a [std::vector<Index>] whose entries are arbitrary: the
    word stored at [i].  (An entry of the list that is a 64-bit value is
    read as it is.) *)
Definition zget64 (v : list Index) (i : Index) : option Index :=
  wrap64 <$> zget v i.

(** [for(Index i = lo; i < hi; ++i) body], the body threading a state and
    possibly running into undefined behaviour. *)
Fixpoint for_loop {S : Type} (n : nat) (i : Index)
    (body : Index -> S -> option S) (s : S) : option S :=
  match n with
  | O => Some s
  | Datatypes.S n' =>
      match body i s with
      | Some s' => for_loop n' (i + 1) body s'
      | None => None
      end
  end.

Definition for_range {S : Type} (lo hi : Index)
    (body : Index -> S -> option S) (s : S) : option S :=
  for_loop (Z.to_nat (hi - lo)) lo body s.

(** *** The runtime as seen by the submitting code *)

(** How a submitting function ends: it returns, it throws a
    [std::runtime_error] with a message, or its behaviour is undefined (an
    access outside a vector). *)
Inductive outcome (A : Type) : Type :=
| Ok (a : A)
| Throw (msg : string)
| Undefined.

Arguments Ok {A} a.
Arguments Throw {A} msg.
Arguments Undefined {A}.

Module Starpu.

Inductive access_mode : Set :=
| STARPU_R | STARPU_W | STARPU_RW | STARPU_SCRATCH.

(** Modelled from the spec: [include/nntile/starpu.hh] is not among the
    sources.  A data handle is known by its identity and by the rank of the
    node that owns it. *)
Record Handle := mkHandle { handle_id : nat; mpi_get_rank : Z }.

(** The numeric types a codelet is instantiated at. *)
Inductive precision : Set :=
| fp32_t | fp32_fast_tf32_t | fp32_fast_fp16_t | fp32_fast_bf16_t
| fp64_t | bf16_t.

Inductive codelet : Set :=
| codelet_copy_rw | codelet_copy_w | codelet_copy_ndim0
| codelet_lars_tiled_step (T : precision).

(** [args_t] of [starpu/lars_tiled_step.cc]; a [Scalar] is only copied into
    the block. *)
Record lars_args := mkLarsArgs {
  num_iter : Index; num_elems : Index; num_steps : Index;
  gamma_0 : float; momentum : float; weight_decay : float;
  lars_coefficient : float
}.

(** The variadic arguments of [starpu_task_insert], in call order. *)
Inductive insert_arg : Type :=
| Value (words : list Index)
| Buffer (mode : access_mode) (h : Handle)
| Flops (zero_flops : Z)
| ClArgs (a : lars_args).

(** The arguments of [starpu::subcopy::submit], whose definition is not
    among the sources. *)
Record subcopy_args := mkSubcopy {
  sc_ndim : Index;
  sc_src_start : list Index; sc_src_stride : list Index;
  sc_dst_start : list Index; sc_dst_stride : list Index;
  sc_copy_shape : list Index;
  sc_src : Handle; sc_dst : Handle; sc_scratch : Handle;
  sc_mode : access_mode
}.

(** What the submitting code asks of the runtime, in order; an enqueue is
    recorded with the code the runtime returned for it. *)
Inductive event : Type :=
| EvTaskInsert (cl : codelet) (args : list insert_arg) (ret : Z)
| EvDataCpy (dst src : Handle) (ret : Z)
| EvSubcopy (a : subcopy_args) (ret : Z)
| EvMpiTransfer (h : Handle) (dst_rank mpi_rank : Z)
| EvMpiFlush (h : Handle)
| EvVariableHandle (h : Handle) (size : Z) (mode : access_mode).

(** A submitting computation threads the trace of events. *)
Definition M (A : Type) : Type := list event -> outcome A * list event.

Definition ret {A : Type} (a : A) : M A := fun tr => (Ok a, tr).

Definition throw {A : Type} (msg : string) : M A := fun tr => (Throw msg, tr).

Definition undefined {A : Type} : M A := fun tr => (Undefined, tr).

Definition bind {A B : Type} (m : M A) (k : A -> M B) : M B :=
  fun tr =>
    match m tr with
    | (Ok a, tr') => k a tr'
    | (Throw msg, tr') => (Throw msg, tr')
    | (Undefined, tr') => (Undefined, tr')
    end.

(** An access that is undefined outside the bounds. *)
Definition access {A : Type} (o : option A) : M A :=
  match o with
  | Some a => ret a
  | None => undefined
  end.

Definition emit (e : event) : M unit := fun tr => (Ok tt, tr ++ [e]).

End Starpu.

Declare Scope starpu_scope.
Delimit Scope starpu_scope with starpu.
Notation "x <~ m ;; k" := (Starpu.bind m (fun x => k))
  (at level 100, m at next level, right associativity) : starpu_scope.
Notation "m ;;; k" := (Starpu.bind m (fun _ => k))
  (at level 100, right associativity) : starpu_scope.

Section Runtime.

Import Starpu.

(** The runtime decides the code an enqueue returns; [enqueue_ret tr] is
    the code it returns to the enqueue made after the events [tr]. *)
Variable enqueue_ret : list event -> Z.

Definition starpu_task_insert (cl : codelet) (args : list insert_arg) : M Z :=
  fun tr => let r := enqueue_ret tr in (Ok r, tr ++ [EvTaskInsert cl args r]).

Definition starpu_data_cpy (dst src : Handle) : M Z :=
  fun tr => let r := enqueue_ret tr in (Ok r, tr ++ [EvDataCpy dst src r]).

(** The handle the runtime gives to a new variable:
    [starpu::VariableHandle h(size, mode)]. *)
Variable new_handle : list event -> Handle.

Definition variable_handle (size : Z) (mode : access_mode) : M Handle :=
  fun tr => let h := new_handle tr in (Ok h, tr ++ [EvVariableHandle h size mode]).

(** Modelled from the spec: [mpi_transfer] asks for a transfer only when
    the owner of the handle is not the destination rank. *)
Definition mpi_transfer (h : Handle) (dst_rank mpi_rank : Z) : M unit :=
  if mpi_get_rank h =? dst_rank then ret tt
  else emit (EvMpiTransfer h dst_rank mpi_rank).

Definition mpi_flush (h : Handle) : M unit := emit (EvMpiFlush h).

(** [for(Index i = lo; i < hi; ++i) body] for a body that submits. *)
Fixpoint for_loopM {S : Type} (n : nat) (i : Index)
    (body : Index -> S -> M S) (s : S) : M S :=
  match n with
  | O => ret s
  | Datatypes.S n' => bind (body i s) (fun s' => for_loopM n' (i + 1) body s')
  end.

Definition for_rangeM {S : Type} (lo hi : Index)
    (body : Index -> S -> M S) (s : S) : M S :=
  for_loopM (Z.to_nat (hi - lo)) lo body s.

End Runtime.

(** *** Tile geometry *)

Module TileTraits.

(** Modelled from the spec: [include/nntile/tile/traits.hh] is not among the
    sources.  Strides are column-major: [stride[0] = 1] and
    [stride[i] = stride[i-1] * shape[i-1]]. *)
Fixpoint strides_from (acc : Z) (shape : list Index) : list Index :=
  match shape with
  | [] => []
  | n :: shape' => acc :: strides_from (acc * n) shape'
  end.

Definition col_major_strides (shape : list Index) : list Index :=
  strides_from 1 shape.

(** Modelled from the spec: [nelems] is the product of the shape. *)
Definition prod_shape (shape : list Index) : Z :=
  fold_right Z.mul 1 shape.

Record t := mk {
  shape : list Index;
  stride : list Index;
  nelems : Index
}.

Definition ndim (tr : t) : Index := Z.of_nat (length (shape tr)).

Definition of_shape (sh : list Index) : t :=
  {| shape := sh; stride := col_major_strides sh; nelems := prod_shape sh |}.

(** Modelled from the spec: [index_to_linear] is the standard column-major
    conversion, the sum of [index[i] * stride[i]]. *)
Fixpoint dot (stride index : list Index) : Index :=
  match stride, index with
  | s :: stride', x :: index' => x * s + dot stride' index'
  | _, _ => 0
  end.

Definition index_to_linear (tr : t) (index : list Index) : Index :=
  dot (stride tr) index.

(** Modelled from the spec: [linear_to_index], the inverse conversion; the
    first axis varies fastest. *)
Fixpoint digits (shape : list Index) (i : Index) : list Index :=
  match shape with
  | [] => []
  | n :: shape' => (i mod n) :: digits shape' (i / n)
  end.

Definition linear_to_index (tr : t) (i : Index) : list Index :=
  digits (shape tr) i.

End TileTraits.

(** A tile: its geometry and its data handle ([Tile<T>] inherits both). *)
Module Tile.

Record t := mk { traits : TileTraits.t; handle : Starpu.Handle }.

Definition ndim (tile : t) : Index := TileTraits.ndim (traits tile).
Definition shape (tile : t) : list Index := TileTraits.shape (traits tile).
Definition stride (tile : t) : list Index := TileTraits.stride (traits tile).
Definition nelems (tile : t) : Index := TileTraits.nelems (traits tile).

Definition of_shape (sh : list Index) (h : Starpu.Handle) : t :=
  {| traits := TileTraits.of_shape sh; handle := h |}.

End Tile.

(** Component-wise sum of two index vectors: [start + p]. *)
Fixpoint vadd (a b : list Index) : list Index :=
  match a, b with
  | x :: a', y :: b' => (x + y) :: vadd a' b'
  | _, _ => []
  end.

(** The multi-indices of the box [[0, shape)] in column-major order. *)
Definition box (shape : list Index) : list (list Index) :=
  map (fun i => TileTraits.digits shape (Z.of_nat i))
      (seq 0 (Z.to_nat (TileTraits.prod_shape shape))).

(** [in_box shape p]: [p] has one entry per axis and [0 <= p[k] < shape[k]]. *)
Definition in_box (shape p : list Index) : Prop :=
  Forall2 (fun n x => 0 <= x < n) shape p.

(** [fits start copy_shape shape]: on every axis the copied extent is at
    least one and [[start, start+copy_shape)] lies within [[0, shape)]. *)
Fixpoint fits (start copy_shape shape : list Index) : Prop :=
  match start, copy_shape, shape with
  | [], [], [] => True
  | s :: start', c :: copy_shape', n :: shape' =>
      0 <= s /\ 1 <= c /\ s + c <= n /\ fits start' copy_shape' shape'
  | _, _, _ => False
  end.

(** Incrementing the lowest digit, before any carry. *)
Definition bump (q : list Index) : list Index :=
  match q with
  | d :: q' => (d + 1) :: q'
  | [] => []
  end.

(** A digit vector whose lowest digit has just been incremented: the lowest
    digit may equal its radix, the others are in range, and the number it
    denotes is still below the size of the box. *)
Definition bumped (cs q : list Index) : Prop :=
  match cs, q with
  | c :: cs', d :: q' =>
      1 <= c /\ 0 <= d <= c /\ in_box cs' q' /\
      TileTraits.dot (TileTraits.col_major_strides cs) q
      < TileTraits.prod_shape cs
  | _, _ => False
  end.

(** *** src/tile/copy.cc: the copy kernel *)

Module Copy.

Section Kernel.

Context {T : Type}.

(** The two data buffers of a copy task: [buffers[0]], read through the
    pointer [src], and [buffers[1]], written through the pointer [dst].
    They are two buffers that share no memory, or one and the same buffer
    (one tile given as source and as destination), and then every write
    through [dst] is seen by the later reads through [src]. *)
Inductive buffers : Type :=
| Distinct (src dst : list T)
| Shared (buf : list T).

(** [src[i]]. *)
Definition read_src (b : buffers) (i : Index) : option T :=
  match b with
  | Distinct src _ => zget src i
  | Shared buf => zget buf i
  end.

(** [dst[i] = v]. *)
Definition write_dst (b : buffers) (i : Index) (v : T) : option buffers :=
  match b with
  | Distinct src dst => dst' ← zset dst i v; Some (Distinct src dst')
  | Shared buf => buf' ← zset buf i v; Some (Shared buf')
  end.

(** The buffer behind [dst]. *)
Definition dst_of (b : buffers) : list T :=
  match b with
  | Distinct _ dst => dst
  | Shared buf => buf
  end.

(** [cpu_copy_intersection_ndim0]: [*dst = *src]. *)
Definition cpu_copy_intersection_ndim0_on (b : buffers) : option buffers :=
  v ← read_src b 0; write_dst b 0 v.

(** [cpu_copy_intersection_ndim0] on two buffers that share no memory;
    returns the destination buffer. *)
Definition cpu_copy_intersection_ndim0 (src dst : list T) : option (list T) :=
  b ← cpu_copy_intersection_ndim0_on (Distinct src dst); Some (dst_of b).

(** The carry loop of [cpu_copy_intersection]; [index] is the pointer
    [scratch + base]:
<<
    while(index[j] == start[j]+copy_shape[j]) {
        index[j] = start[j];
        ++j;
        ++index[j];
        offset += stride[j] - copy_shape[j-1]*stride[j-1];
    }
>>
    Each round reads [copy_shape[j]] for the next [j], so [fuel] rounds
    with [fuel] above the length of [copy_shape] are never exhausted before
    an access out of bounds. *)
Fixpoint carry (fuel : nat) (base : Index) (start stride copy_shape : list Index)
    (j : Index) (st : list Index * Index) : option (list Index * Index) :=
  match fuel with
  | O => None
  | Datatypes.S fuel' =>
      let '(scratch, offset) := st in
      ij ← zget scratch (base + j);
      sj ← zget start j;
      cj ← zget copy_shape j;
      if ij =? sj + cj then
        scratch1 ← zset scratch (base + j) sj;
        let j' := j + 1 in
        ij' ← zget scratch1 (base + j');
        scratch2 ← zset scratch1 (base + j') (ij' + 1);
        tj' ← zget stride j';
        cprev ← zget copy_shape (j' - 1);
        tprev ← zget stride (j' - 1);
        carry fuel' base start stride copy_shape j'
              (scratch2, offset + (tj' - cprev * tprev))
      else Some (scratch, offset)
  end.

(** State of the kernel between statements: the scratch buffer holding
    [src_index] (at [0]) and [dst_index] (at [ndim]), the two running
    offsets and the two data buffers. *)
Record state := mkState {
  scratch : list Index;
  src_offset : Index;
  dst_offset : Index;
  bufs : buffers
}.

(** First loop: [nelems *= copy_shape[i]; src_index[i] = src_start[i];
    dst_index[i] = dst_start[i]]. *)
Definition init_body (ndim : Index) (src_start copy_shape dst_start : list Index)
    (i : Index) (st : Index * list Index) : option (Index * list Index) :=
  let '(nelems, scr) := st in
  c ← zget copy_shape i;
  s ← zget src_start i;
  scr1 ← zset scr i s;
  d ← zget dst_start i;
  scr2 ← zset scr1 (ndim + i) d;
  Some (nelems * c, scr2).

(** Second loop: [src_offset += src_start[i] * src_stride[i]] and the same
    for the destination. *)
Definition offset_body (src_start src_stride dst_start dst_stride : list Index)
    (i : Index) (st : Index * Index) : option (Index * Index) :=
  let '(so, do) := st in
  ss ← zget src_start i;
  st ← zget src_stride i;
  ds ← zget dst_start i;
  dt ← zget dst_stride i;
  Some (so + ss * st, do + ds * dt).

(** [dst[dst_offset] = src[src_offset]; ++src_offset; ++dst_offset]. *)
Definition copy_one (st : state) : option state :=
  v ← read_src (bufs st) (src_offset st);
  bufs' ← write_dst (bufs st) (dst_offset st) v;
  Some {| scratch := scratch st;
          src_offset := src_offset st + 1;
          dst_offset := dst_offset st + 1;
          bufs := bufs' |}.

(** The index bookkeeping of one round of the main loop:
    [++src_index[0]; ++dst_index[0];] followed by the two carry loops, on
    the scratch buffer and the two running offsets. *)
Definition advance (ndim : Index)
    (src_start src_stride copy_shape dst_start dst_stride : list Index)
    (st : list Index * Index * Index) : option (list Index * Index * Index) :=
  let '(scr, so, do) := st in
  let fuel := Datatypes.S (length copy_shape) in
  x ← zget scr 0;
  scr1 ← zset scr 0 (x + 1);
  y ← zget scr1 (ndim + 0);
  scr2 ← zset scr1 (ndim + 0) (y + 1);
  '(scr3, so') ← carry fuel 0 src_start src_stride copy_shape 0 (scr2, so);
  '(scr4, do') ← carry fuel ndim dst_start dst_stride copy_shape 0 (scr3, do);
  Some (scr4, so', do').

(** Body of the main loop. *)
Definition copy_body (ndim : Index)
    (src_start src_stride copy_shape dst_start dst_stride : list Index)
    (i : Index) (st : state) : option state :=
  '(scr, so, do) ← advance ndim src_start src_stride copy_shape
                      dst_start dst_stride
                      (scratch st, src_offset st, dst_offset st);
  copy_one {| scratch := scr; src_offset := so; dst_offset := do;
              bufs := bufs st |}.

(** [cpu_copy_intersection]: the arguments of [cl_args] unpacked, [bufs0]
    the two tile buffers behind [src] and [dst], [scratch0] the
    (uninitialised) scratch buffer of [2*ndim] index words.  Returns the
    tile buffers. *)
Definition cpu_copy_intersection_on (ndim : Index)
    (src_start src_stride copy_shape dst_start dst_stride : list Index)
    (bufs0 : buffers) (scratch0 : list Index) : option buffers :=
  '(nelems, scr) ← for_range 0 ndim
      (init_body ndim src_start copy_shape dst_start) (1, scratch0);
  so0 ← zget src_start 0;
  do0 ← zget dst_start 0;
  '(so, do) ← for_range 1 ndim
      (offset_body src_start src_stride dst_start dst_stride) (so0, do0);
  st1 ← copy_one {| scratch := scr; src_offset := so; dst_offset := do;
                    bufs := bufs0 |};
  st2 ← for_range 1 nelems
      (copy_body ndim src_start src_stride copy_shape dst_start dst_stride)
      st1;
  Some (bufs st2).

(** [cpu_copy_intersection] on a source buffer [src] and a destination
    buffer [dst0] that share no memory; returns the destination buffer. *)
Definition cpu_copy_intersection (ndim : Index)
    (src_start src_stride copy_shape dst_start dst_stride : list Index)
    (src dst0 : list T) (scratch0 : list Index) : option (list T) :=
  b ← cpu_copy_intersection_on ndim src_start src_stride copy_shape
         dst_start dst_stride (Distinct src dst0) scratch0;
  Some (dst_of b).

(** The per-element mapping the kernel is compared with: for every
    multi-index [p] of the box, in column-major order,
    [dst[index_to_linear(dst_start+p)] = src[index_to_linear(src_start+p)]],
    each linear offset recomputed from scratch. *)
Definition naive_step (src_tr dst_tr : TileTraits.t)
    (src_start dst_start : list Index) (src : list T)
    (d : option (list T)) (p : list Index) : option (list T) :=
  d ← d;
  v ← zget src (TileTraits.index_to_linear src_tr (vadd src_start p));
  zset d (TileTraits.index_to_linear dst_tr (vadd dst_start p)) v.

Definition naive_copy (src_tr dst_tr : TileTraits.t)
    (src_start copy_shape dst_start : list Index)
    (src dst0 : list T) : option (list T) :=
  fold_left (naive_step src_tr dst_tr src_start dst_start src)
            (box copy_shape) (Some dst0).

End Kernel.

Arguments Distinct {T} src dst.
Arguments Shared {T} buf.

(** **** [copy_intersection_work] *)

(** How a round of a loop that may [return] from the function ends. *)
Inductive step (S : Type) : Type :=
| Continue (s : S)
| Return
| Fault.

Arguments Continue {S} s.
Arguments Return {S}.
Arguments Fault {S}.

Fixpoint for_axes {S : Type} (n : nat) (i : Index)
    (body : Index -> S -> step S) (s : S) : step S :=
  match n with
  | O => Continue s
  | Datatypes.S n' =>
      match body i s with
      | Continue s' => for_axes n' (i + 1) body s'
      | Return => Return
      | Fault => Fault
      end
  end.

(** The vectors [src_start], [dst_start], [copy_shape] and the flag
    [full_overwrite]. *)
Record axes := mkAxes {
  src_start : list Index;
  dst_start : list Index;
  copy_shape : list Index;
  full_overwrite : bool
}.

(** Body of the loop over the axes.  The offsets and the extents are
    words the caller chose, so the two sums of the test and the differences
    of the two branches are the machine's: a sum that does not fit 64 bits
    wraps around.  (C++ leaves signed overflow undefined; this is the
    two's-complement result that the compiled arithmetic gives.) *)
Definition axis_body (src : Tile.t) (src_offset : list Index)
    (dst : Tile.t) (dst_offset : list Index)
    (i : Index) (st : axes) : step axes :=
  match zget64 src_offset i, zget64 (Tile.shape src) i,
        zget64 dst_offset i with
  | Some so, Some ssh, Some do =>
      if add64 so ssh <=? do then Return else
      match zget64 (Tile.shape dst) i with
      | Some dsh =>
          if add64 do dsh <=? so then Return else
          let '(ds, ss, cs) :=
            if so <? do
            then (0, sub64 do so, Z.min (sub64 ssh (sub64 do so)) dsh)
            else (sub64 so do, 0, Z.min (sub64 dsh (sub64 so do)) ssh) in
          match zset (dst_start st) i ds, zset (src_start st) i ss,
                zset (copy_shape st) i cs with
          | Some dst_start', Some src_start', Some copy_shape' =>
              Continue {| src_start := src_start';
                          dst_start := dst_start';
                          copy_shape := copy_shape';
                          full_overwrite :=
                            if negb (cs =? dsh) then false
                            else full_overwrite st |}
          | _, _, _ => Fault
          end
      | None => Fault
      end
  | _, _, _ => Fault
  end.

(** The loop over the axes, from the zero-initialised vectors. *)
Definition intersect (src : Tile.t) (src_offset : list Index)
    (dst : Tile.t) (dst_offset : list Index) : step axes :=
  let n := Z.to_nat (Tile.ndim src) in
  for_axes n 0 (axis_body src src_offset dst dst_offset)
    {| src_start := repeat 0 n; dst_start := repeat 0 n;
       copy_shape := repeat 0 n; full_overwrite := true |}.

(** [STARPU_VALUE, &(v[0]), ndim*sizeof(v[0])]: the first [ndim] words of
    a vector. *)
Definition words (ndim : Index) (v : list Index) : option (list Index) :=
  if ndim <=? Z.of_nat (length v) then Some (take (Z.to_nat ndim) v) else None.

(** The arguments of the enqueue for [ndim > 0], [mode] being the access
    mode of the destination. *)
Definition copy_task_args (ndim : Index) (st : axes)
    (src_stride dst_stride : list Index) (src dst : Tile.t)
    (scratch : Starpu.Handle) (mode : Starpu.access_mode)
    : list Starpu.insert_arg :=
  [ Starpu.Value [ndim];
    Starpu.Value (src_start st);
    Starpu.Value src_stride;
    Starpu.Value (copy_shape st);
    Starpu.Value (dst_start st);
    Starpu.Value dst_stride;
    Starpu.Buffer Starpu.STARPU_R (Tile.handle src);
    Starpu.Buffer mode (Tile.handle dst);
    Starpu.Buffer Starpu.STARPU_SCRATCH scratch;
    Starpu.Flops 0 ].

Section Run.

Context {T : Type}.

(** What a worker runs for an enqueued copy task: the kernel of the
    codelet, on the buffers of the handles, with the six arguments that
    [Starpu::unpack_args_ptr] recovers from the values of the enqueue. *)
Definition run_copy_task_on (cl : Starpu.codelet)
    (args : list Starpu.insert_arg) (b : buffers (T := T))
    (scratch_buf : list Index) : option buffers :=
  match cl with
  | Starpu.codelet_copy_ndim0 => cpu_copy_intersection_ndim0_on b
  | Starpu.codelet_copy_rw | Starpu.codelet_copy_w =>
      match args with
      | Starpu.Value [ndim] :: Starpu.Value ss :: Starpu.Value ts
        :: Starpu.Value cs :: Starpu.Value ds :: Starpu.Value td :: _ =>
          cpu_copy_intersection_on ndim ss ts cs ds td b scratch_buf
      | _ => None
      end
  | Starpu.codelet_lars_tiled_step _ => None
  end.

(** The task on a source buffer and a destination buffer that share no
    memory; returns the destination buffer. *)
Definition run_copy_task (cl : Starpu.codelet) (args : list Starpu.insert_arg)
    (src_buf dst_buf : list T) (scratch_buf : list Index) : option (list T) :=
  b ← run_copy_task_on cl args (Distinct src_buf dst_buf) scratch_buf;
  Some (dst_of b).

End Run.

Section Work.

Import Starpu.
Local Open Scope starpu_scope.

Variable enqueue_ret : list event -> Z.

Definition copy_intersection_work (src : Tile.t) (src_offset : list Index)
    (dst : Tile.t) (dst_offset : list Index) (scratch : Handle) : M unit :=
  let ndim := Tile.ndim src in
  if ndim =? 0 then
    r <~ starpu_task_insert enqueue_ret codelet_copy_ndim0
           [ Buffer STARPU_R (Tile.handle src);
             Buffer STARPU_W (Tile.handle dst);
             Flops 0 ];;
    if negb (r =? 0) then throw "ret != 0" else ret tt
  else
    match intersect src src_offset dst dst_offset with
    | Return => ret tt
    | Fault => undefined
    | Continue st =>
        s1 <~ access (words ndim (src_start st));;
        ts <~ access (words ndim (Tile.stride src));;
        cs <~ access (words ndim (copy_shape st));;
        d1 <~ access (words ndim (dst_start st));;
        td <~ access (words ndim (Tile.stride dst));;
        let st' := {| src_start := s1; dst_start := d1; copy_shape := cs;
                      full_overwrite := full_overwrite st |} in
        r <~ (if full_overwrite st
              then starpu_task_insert enqueue_ret codelet_copy_w
                     (copy_task_args ndim st' ts td src dst scratch STARPU_W)
              else starpu_task_insert enqueue_ret codelet_copy_rw
                     (copy_task_args ndim st' ts td src dst scratch STARPU_RW));;
        if negb (r =? 0) then throw "ret != 0" else ret tt
    end.

End Work.

End Copy.

(** *** Tensors *)

(** Modelled from the spec: [include/nntile/tensor/tensor.hh] and
    [tensor/traits.hh] are not among the sources.  A tensor has a shape, a
    nominal tile shape, a grid of tile counts with its own column-major
    geometry, and one handle per tile of the grid; [matrix_shape] is the
    member compared by [lars_tiled_step_async]. *)
Module Tensor.

Record t := mk {
  shape : list Index;
  basetile_shape : list Index;
  grid : TileTraits.t;
  matrix_shape : list (Index * Index);
  tile_handles : list Starpu.Handle
}.

Definition ndim (a : t) : Index := Z.of_nat (length (shape a)).

Definition get_tile_handle (a : t) (i : Index) : option Starpu.Handle :=
  zget (tile_handles a) i.

(** Modelled from the spec: per axis the nominal extent, except at the
    last grid index of the axis, where it is what is left of the shape. *)
Fixpoint tile_shape (shape basetile grid_shape index : list Index)
    : list Index :=
  match shape, basetile, grid_shape, index with
  | n :: shape', b :: basetile', g :: grid_shape', x :: index' =>
      (if x =? g - 1 then n - b * (g - 1) else b)
      :: tile_shape shape' basetile' grid_shape' index'
  | _, _, _, _ => []
  end.

Definition get_tile_shape (a : t) (index : list Index) : list Index :=
  tile_shape (shape a) (basetile_shape a) (TileTraits.shape (grid a)) index.

Definition get_tile_traits (a : t) (i : Index) : TileTraits.t :=
  TileTraits.of_shape (get_tile_shape a (TileTraits.linear_to_index (grid a) i)).

End Tensor.

(** *** src/tensor/gather.cc *)

Module Gather.

(** The carry loop on the multi-index of the source tile:
<<
    while(src_tile_index[k] == src.grid.shape[k]) {
        src_tile_index[k] = 0;
        ++k;
        ++src_tile_index[k];
    }
>>
    Each round reads [src.grid.shape[k]] for the next [k], so [fuel] rounds
    with [fuel] above the length of the grid shape are never exhausted
    before an access out of bounds. *)
Fixpoint carry_index (fuel : nat) (grid_shape : list Index) (k : Index)
    (index : list Index) : option (list Index) :=
  match fuel with
  | O => None
  | Datatypes.S fuel' =>
      ik ← zget index k;
      gk ← zget grid_shape k;
      if ik =? gk then
        index1 ← zset index k 0;
        let k' := k + 1 in
        ik' ← zget index1 k';
        index2 ← zset index1 k' (ik' + 1);
        carry_index fuel' grid_shape k' index2
      else Some index
  end.

(** [++src_tile_index[0]] and the carry loop. *)
Definition next_tile_index (grid_shape index : list Index)
    : option (list Index) :=
  x ← zget index 0;
  index1 ← zset index 0 (x + 1);
  carry_index (Datatypes.S (length grid_shape)) grid_shape 0 index1.

(** [for(Index k = 0; k < ndim; ++k)
       dst_tile_start[k] = src_tile_index[k] * src.basetile_shape[k];] *)
Definition tile_start_body (src_tile_index basetile_shape : list Index)
    (k : Index) (dst_tile_start : list Index) : option (list Index) :=
  x ← zget src_tile_index k;
  b ← zget basetile_shape k;
  zset dst_tile_start k (x * b).

Definition tile_start (ndim : Index) (src_tile_index basetile_shape : list Index)
    (dst_tile_start : list Index) : option (list Index) :=
  for_range 0 ndim (tile_start_body src_tile_index basetile_shape)
    dst_tile_start.

Section Submitting.

Import Starpu.
Local Open Scope starpu_scope.

Variable enqueue_ret : list event -> Z.
Variable new_handle : list event -> Handle.

(** Modelled from the spec: [starpu::subcopy::submit] is not among the
    sources; a submit enqueues its task and fails fast when the enqueue
    reports failure. *)
Definition subcopy_submit (a : subcopy_args) : M unit :=
  fun tr =>
    let r := enqueue_ret tr in
    (if negb (r =? 0) then Throw "Error in subcopy task submission"
     else Ok tt,
     tr ++ [EvSubcopy a r]).

(** [sizeof(Index)]. *)
Definition sizeof_Index : Z := 8.

(** Body of the loop over the source tiles [1 <= i < src.grid.nelems]; the
    state is [src_tile_index] and [dst_tile_start]. *)
Definition gather_body (mpi_rank : Z) (src : Tensor.t) (ndim : Index)
    (src_tile_start : list Index) (dst_tile_traits : TileTraits.t)
    (dst_tile_handle scratch : Handle) (dst_tile_rank : Z)
    (i : Index) (st : list Index * list Index)
    : M (list Index * list Index) :=
  let '(src_tile_index, dst_tile_start) := st in
  src_tile_index' <~
    access (next_tile_index (TileTraits.shape (Tensor.grid src))
                            src_tile_index);;
  src_tile_handle <~ access (Tensor.get_tile_handle src i);;
  mpi_transfer src_tile_handle dst_tile_rank mpi_rank;;;
  if mpi_rank =? dst_tile_rank then
    let src_tile_traits := Tensor.get_tile_traits src i in
    dst_tile_start' <~
      access (tile_start ndim src_tile_index' (Tensor.basetile_shape src)
                         dst_tile_start);;
    subcopy_submit
      {| sc_ndim := ndim;
         sc_src_start := src_tile_start;
         sc_src_stride := TileTraits.stride src_tile_traits;
         sc_dst_start := dst_tile_start';
         sc_dst_stride := TileTraits.stride dst_tile_traits;
         sc_copy_shape := TileTraits.shape src_tile_traits;
         sc_src := src_tile_handle; sc_dst := dst_tile_handle;
         sc_scratch := scratch; sc_mode := STARPU_RW |};;;
    ret (src_tile_index', dst_tile_start')
  else ret (src_tile_index', dst_tile_start).

(** [gather_async], run on the node of rank [mpi_rank]. *)
Definition gather_async (mpi_rank : Z) (src dst : Tensor.t) : M unit :=
  if negb (TileTraits.nelems (Tensor.grid dst) =? 1)
  then throw "Destination must be a single-tiled tensor" else
  if negb (bool_decide (Tensor.shape src = Tensor.shape dst))
  then throw "src.shape != dst.shape" else
  dst_tile_handle <~ access (Tensor.get_tile_handle dst 0);;
  let dst_tile_traits := Tensor.get_tile_traits dst 0 in
  let dst_tile_rank := mpi_get_rank dst_tile_handle in
  if TileTraits.nelems (Tensor.grid src) =? 1 then
    src_tile_handle <~ access (Tensor.get_tile_handle src 0);;
    mpi_transfer src_tile_handle dst_tile_rank mpi_rank;;;
    (if mpi_rank =? dst_tile_rank then
       r <~ starpu_data_cpy enqueue_ret dst_tile_handle src_tile_handle;;
       if negb (r =? 0) then throw "Error in starpu_data_cpy" else ret tt
     else ret tt);;;
    mpi_flush dst_tile_handle
  else
    let ndim := Tensor.ndim src in
    scratch <~ variable_handle new_handle (2 * ndim * sizeof_Index)
                 STARPU_SCRATCH;;
    let n := Z.to_nat ndim in
    let src_tile_start := repeat 0 n in
    let dst_tile_start := repeat 0 n in
    let src_tile_index := repeat 0 n in
    src_first_tile_handle <~ access (Tensor.get_tile_handle src 0);;
    mpi_transfer src_first_tile_handle dst_tile_rank mpi_rank;;;
    (if mpi_rank =? dst_tile_rank then
       let src_first_tile_traits := Tensor.get_tile_traits src 0 in
       subcopy_submit
         {| sc_ndim := ndim;
            sc_src_start := src_tile_start;
            sc_src_stride := TileTraits.stride src_first_tile_traits;
            sc_dst_start := dst_tile_start;
            sc_dst_stride := TileTraits.stride dst_tile_traits;
            sc_copy_shape := TileTraits.shape src_first_tile_traits;
            sc_src := src_first_tile_handle; sc_dst := dst_tile_handle;
            sc_scratch := scratch; sc_mode := STARPU_W |}
     else ret tt);;;
    for_rangeM 1 (TileTraits.nelems (Tensor.grid src))
      (gather_body mpi_rank src ndim src_tile_start dst_tile_traits
                   dst_tile_handle scratch dst_tile_rank)
      (src_tile_index, dst_tile_start);;;
    mpi_flush dst_tile_handle.

End Submitting.

(** The spec's account of the task of source tile [i]: it is copied into
    the destination tile at the offset
    [linear_to_index(i)[k] * src.basetile_shape[k]], the first tile with
    Write access and every later one with ReadWrite access. *)
Definition tile_offset (src : Tensor.t) (i : Index) : list Index :=
  zip_with Z.mul (TileTraits.linear_to_index (Tensor.grid src) i)
           (Tensor.basetile_shape src).

Definition tile_task (src dst : Tensor.t) (src_h dst_h scratch : Starpu.Handle)
    (i : Index) : Starpu.subcopy_args :=
  {| Starpu.sc_ndim := Tensor.ndim src;
     Starpu.sc_src_start := repeat 0 (Z.to_nat (Tensor.ndim src));
     Starpu.sc_src_stride := TileTraits.stride (Tensor.get_tile_traits src i);
     Starpu.sc_dst_start := tile_offset src i;
     Starpu.sc_dst_stride := TileTraits.stride (Tensor.get_tile_traits dst 0);
     Starpu.sc_copy_shape := TileTraits.shape (Tensor.get_tile_traits src i);
     Starpu.sc_src := src_h; Starpu.sc_dst := dst_h;
     Starpu.sc_scratch := scratch;
     Starpu.sc_mode := if i =? 0 then Starpu.STARPU_W else Starpu.STARPU_RW |}.

(** The requests made for source tile [i] on the node that owns the
    destination: the transfer, when the tile lives elsewhere, and the
    task. *)
Definition tile_events (src dst : Tensor.t) (dst_h scratch : Starpu.Handle)
    (mpi_rank : Z) (i : nat) : list Starpu.event :=
  match Tensor.tile_handles src !! i with
  | Some src_h =>
      (if Starpu.mpi_get_rank src_h =? Starpu.mpi_get_rank dst_h then []
       else [Starpu.EvMpiTransfer src_h (Starpu.mpi_get_rank dst_h) mpi_rank])
      ++ [Starpu.EvSubcopy (tile_task src dst src_h dst_h scratch (Z.of_nat i)) 0]
  | None => []
  end.

End Gather.

(** *** src/starpu/lars_tiled_step.cc and src/tensor/lars_tiled_step.cc *)

Module Lars.

Section Submitting.

Import Starpu.
Local Open Scope starpu_scope.

Variable enqueue_ret : list event -> Z.

(** Whether [std::malloc] returns a block for the arguments; the sources
    write through the pointer without a test. *)
Variable malloc_ok : list event -> bool.

(** [starpu::lars_tiled_step::submit<T>]. *)
Definition submit (T : precision) (num_iter num_elems num_steps : Index)
    (gamma_0 momentum weight_decay lars_coefficient : float)
    (grad momentum_buffer p : Handle) : M unit :=
  ok <~ (fun tr => (Ok (malloc_ok tr), tr));;
  if negb ok then undefined else
  let args := {| Starpu.num_iter := num_iter; Starpu.num_elems := num_elems;
                 Starpu.num_steps := num_steps; Starpu.gamma_0 := gamma_0;
                 Starpu.momentum := momentum;
                 Starpu.weight_decay := weight_decay;
                 Starpu.lars_coefficient := lars_coefficient |} in
  let moments_mode := if num_iter =? 1 then STARPU_W else STARPU_RW in
  r <~ starpu_task_insert enqueue_ret (codelet_lars_tiled_step T)
         [ Buffer STARPU_R grad;
           Buffer moments_mode momentum_buffer;
           Buffer STARPU_RW p;
           ClArgs args ];;
  if negb (r =? 0)
  then throw "Error in lars_tiled_step task submission"
  else ret tt.

(** Body of the loop over the tiles of [p]. *)
Definition lars_body (T : precision) (mpi_rank : Z)
    (num_iter num_steps : Index)
    (gamma_0 momentum weight_decay lars_coefficient : float)
    (grad momentum_buffer p : Tensor.t) (i : Index) (_ : unit) : M unit :=
  p_tile_handle <~ access (Tensor.get_tile_handle p i);;
  grad_tile_handle <~ access (Tensor.get_tile_handle grad i);;
  momentum_buffer_tile_handle <~
    access (Tensor.get_tile_handle momentum_buffer i);;
  let p_tile_rank := mpi_get_rank p_tile_handle in
  mpi_transfer grad_tile_handle p_tile_rank mpi_rank;;;
  mpi_transfer momentum_buffer_tile_handle p_tile_rank mpi_rank;;;
  (if mpi_rank =? p_tile_rank then
     let traits := Tensor.get_tile_traits p i in
     submit T num_iter (TileTraits.nelems traits) num_steps gamma_0 momentum
       weight_decay lars_coefficient grad_tile_handle
       momentum_buffer_tile_handle p_tile_handle
   else ret tt);;;
  mpi_flush p_tile_handle.

(** [lars_tiled_step_async<T>], run on the node of rank [mpi_rank]. *)
Definition lars_tiled_step_async (T : precision) (mpi_rank : Z)
    (num_iter num_steps : Index)
    (gamma_0 momentum weight_decay lars_coefficient : float)
    (grad momentum_buffer p : Tensor.t) : M unit :=
  if negb (bool_decide (Tensor.matrix_shape p = Tensor.matrix_shape grad))
  then throw "Parameter shape is not equal to gradient shape" else
  if negb (bool_decide (Tensor.matrix_shape p
                        = Tensor.matrix_shape momentum_buffer))
  then throw "Parameter shape is not equal to momentum_buffer shape" else
  for_rangeM 0 (TileTraits.nelems (Tensor.grid p))
    (lars_body T mpi_rank num_iter num_steps gamma_0 momentum weight_decay
       lars_coefficient grad momentum_buffer p) tt.

End Submitting.

End Lars.

(** *** include/nntile/tile/tile.hh *)

Module TileHH.

(** [std::size_t] has 64 bits; a value converted to it wraps around. *)
Definition size_t_modulus : Z := 2 ^ 64.

Definition to_size_t (z : Z) : Z := z mod size_t_modulus.

(** [Tile::_get_size]: [nelems * sizeof(T)] is computed in [std::size_t],
    the signed [nelems] being converted first, and the test
    [size / sizeof(T) != nelems] compares in [std::size_t] as well. *)
Definition _get_size (nelems sizeof_T ptr_nelems : Z) : outcome Z :=
  if nelems >? ptr_nelems
  then Throw "Required memory size is larger than actually allocated memory"
  else
    let size := to_size_t (to_size_t nelems * sizeof_T) in
    if negb (size / sizeof_T =? to_size_t nelems)
    then Throw "Type size_t is not enough to hold size of provided buffer"
    else Ok size.

Section Constructor.

Import Starpu.
Local Open Scope starpu_scope.

Variable new_handle : list event -> Handle.

(** [Tile(const TileTraits &traits, T *ptr, Index ptr_nelems)]: the traits
    are copied and the handle is made over the caller's buffer with the
    size [_get_size(ptr_nelems)], which is evaluated first. *)
Definition Tile (sizeof_T : Z) (traits : TileTraits.t) (ptr_nelems : Index)
    : M Tile.t :=
  match _get_size (TileTraits.nelems traits) sizeof_T ptr_nelems with
  | Ok size =>
      h <~ variable_handle new_handle size STARPU_RW;;
      ret {| Tile.traits := traits; Tile.handle := h |}
  | Throw msg => throw msg
  | Undefined => undefined
  end.

End Constructor.

End TileHH.

(** *** src/kernel/maxsumexp/cpu.cc *)

(** The kernel is embedded at [T = fp64_t]: the elements are the binary64
    numbers of the standard library, with their IEEE comparison, sum,
    difference and product.  [std::exp] is a parameter of the embedding. *)
Module Maxsumexp.

Section Kernel.

Variable exp : float -> float.

(** One round of the loop over the slice, the value being read:
<<
    if(std::isinf(val)) continue;
    if(max < val) { sum = sum*std::exp(max-val) + one; max = val; }
    else { sum += std::exp(val-max); }
>> *)
Definition slice_step (st : float * float) (val : float) : float * float :=
  let '(max, sum) := st in
  if is_infinity val then (max, sum)
  else if (max <? val)%float
       then (val, (sum * exp (max - val) + 1)%float)
       else (max, (sum + exp (val - max))%float).

(** [T val = src_slice[i0*m]] and the round, [src_slice] being
    [src + base]. *)
Definition slice_body (m : Index) (src : list float) (base : Index)
    (i0 : Index) (st : float * float) : option (float * float) :=
  val ← zget src (base + i0 * m);
  Some (slice_step st val).

(** What is written for a maximum and a sum that were read as [max_old]
    and [sum_old]; [None] when nothing is written. *)
Definition saved (max sum max_old sum_old : float)
    : option float * option float :=
  if negb (is_infinity max) then
    if (sum_old =? 0)%float then (Some max, Some sum)
    else if (max_old <? max)%float
         then (Some max, Some (sum_old * exp (max_old - max) + sum)%float)
         else (None, Some (sum * exp (max - max_old) + sum_old)%float)
  else (None, None).

(** "Save result, do nothing if all elements are masked out". *)
Definition save (max sum : float) (dst_offset : Index)
    (maxsumexp : list float) : option (list float) :=
  if negb (is_infinity max) then
    sum_old ← zget maxsumexp (dst_offset + 1);
    if (sum_old =? 0)%float then
      out1 ← zset maxsumexp dst_offset max;
      zset out1 (dst_offset + 1) sum
    else
      max_old ← zget maxsumexp dst_offset;
      if (max_old <? max)%float then
        out1 ← zset maxsumexp dst_offset max;
        zset out1 (dst_offset + 1) (sum_old * exp (max_old - max) + sum)%float
      else
        zset maxsumexp (dst_offset + 1)
             (sum * exp (max - max_old) + sum_old)%float
  else Some maxsumexp.

(** Body of the loop over the columns of the output; the state is
    [dst_offset] and the output buffer. *)
Definition column_body (m k : Index) (src : list float) (i2 : Index)
    (i1 : Index) (st : Index * list float) : option (Index * list float) :=
  let '(dst_offset, maxsumexp) := st in
  let mk := m * k in
  let base := i2 * mk + i1 in
  max0 ← zget src (base + 0);
  '(max, sum) ← for_range 1 k (slice_body m src base) (max0, 1%float);
  out ← save max sum dst_offset maxsumexp;
  Some (dst_offset + 2, out).

(** [kernel::maxsumexp::cpu<T>]. *)
Definition cpu (m n k : Index) (src maxsumexp : list float)
    : option (list float) :=
  '(_, out) ← for_range 0 n
      (fun i2 st => for_range 0 m (column_body m k src i2) st)
      (0, maxsumexp);
  Some out.

(** The slice of an output entry as a list, and what the kernel makes of
    an accumulator entry and a slice. *)
Definition reduce (slice : list float) : option (float * float) :=
  match slice with
  | [] => None
  | x0 :: rest => Some (fold_left slice_step rest (x0, 1%float))
  end.

Definition accumulate (ms : float * float) (acc : float * float)
    : float * float :=
  match saved (fst ms) (snd ms) (fst acc) (snd acc) with
  | (new_max, new_sum) =>
      (default (fst acc) new_max, default (snd acc) new_sum)
  end.

Definition slice_update (slice : list float) (acc : float * float)
    : float * float :=
  match reduce slice with
  | Some ms => accumulate ms acc
  | None => acc
  end.

End Kernel.

(** An element is masked when it equals negative infinity. *)
Definition masked (x : float) : bool := (x =? neg_infinity)%float.

(** The non-masked elements of a slice. *)
Definition unmasked (slice : list float) : list float :=
  filter (fun x => negb (masked x)) slice.

(** The slice of the output entry [(i1, i2)]: the elements
    [src[i2*m*k + i1 + i0*m]] for [0 <= i0 < k]. *)
Definition is_slice (m k : Index) (src : list float) (i1 i2 : Index)
    (slice : list float) : Prop :=
  Z.of_nat (length slice) = k /\
  forall i0 : nat, (i0 < length slice)%nat ->
    slice !! i0 = zget src (i2 * (m * k) + i1 + Z.of_nat i0 * m).

End Maxsumexp.

(** *** Predicates of the statements *)

(** The values the loop body reads on axis [k]. *)
Definition axis_inputs (src : Tile.t) (src_offset : list Index)
    (dst : Tile.t) (dst_offset : list Index) (k : nat)
    (so ssh do dsh : Index) : Prop :=
  src_offset !! k = Some so /\ Tile.shape src !! k = Some ssh /\
  dst_offset !! k = Some do /\ Tile.shape dst !! k = Some dsh.

(** The state of the loop before the round of axis [i] (as a [nat]). *)
Definition axes_inv (src : Tile.t) (src_offset : list Index)
    (dst : Tile.t) (dst_offset : list Index) (n i : nat) (st : Copy.axes)
    : Prop :=
  length (Copy.src_start st) = n /\ length (Copy.dst_start st) = n /\
  length (Copy.copy_shape st) = n /\
  (forall k so ssh do dsh, (k < i)%nat ->
     axis_inputs src src_offset dst dst_offset k so ssh do dsh ->
     Copy.src_start st !! k = Some (Z.max 0 (do - so)) /\
     Copy.dst_start st !! k = Some (Z.max 0 (so - do)) /\
     Copy.copy_shape st !! k
       = Some (Z.min (so + ssh) (do + dsh) - Z.max so do)) /\
  (Copy.full_overwrite st = true <->
   forall k, (k < i)%nat -> Copy.copy_shape st !! k = Tile.shape dst !! k).

(** On an axis nothing overflows: the two offsets, the two extents and the
    two interval ends [so+ssh] and [do+dsh] are 64-bit values. *)
Definition axis_in_range (so ssh do dsh : Z) : Prop :=
  int64 so /\ int64 ssh /\ int64 do /\ int64 dsh /\
  int64 (so + ssh) /\ int64 (do + dsh).

(** Nothing overflows on any axis: both tiles lie within the range of
    [Index]. *)
Definition no_overflow (src : Tile.t) (src_offset : list Index)
    (dst : Tile.t) (dst_offset : list Index) : Prop :=
  forall k so ssh do dsh,
    axis_inputs src src_offset dst dst_offset k so ssh do dsh ->
    axis_in_range so ssh do dsh.

(** The half-open interval [[off, off+len)] of global coordinates. *)
Definition interval (off len x : Z) : Prop := off <= x < off + len.

(** Two intervals with a common point, and two intervals without one. *)
Definition meet (a la b lb : Z) : Prop :=
  exists x, interval a la x /\ interval b lb x.

Definition disjoint (a la b lb : Z) : Prop :=
  forall x, ~ (interval a la x /\ interval b lb x).

(** The vectors handed to [copy_intersection_work] have one entry per
    axis of the source tile. *)
Definition same_dims (src : Tile.t) (src_offset : list Index)
    (dst : Tile.t) (dst_offset : list Index) : Prop :=
  length src_offset = length (Tile.shape src) /\
  length (Tile.shape dst) = length (Tile.shape src) /\
  length dst_offset = length (Tile.shape src).

(** The tiles pass the test of the loop on every axis: both offsets and
    both extents can be read and neither interval ends before the other
    begins. *)
Definition pass_test (src : Tile.t) (src_offset : list Index)
    (dst : Tile.t) (dst_offset : list Index) : Prop :=
  forall k, (k < length (Tile.shape src))%nat ->
    exists so ssh do dsh,
      axis_inputs src src_offset dst dst_offset k so ssh do dsh /\
      do < so + ssh /\ so < do + dsh.

(** The multi-index the loop of [gather_async] holds after [i] increments
    from the zero index. *)
Fixpoint iter_tile_index (gs : list Index) (i : nat) : option (list Index) :=
  match i with
  | O => Some (repeat 0 (length gs))
  | S i' => index ← iter_tile_index gs i'; Gather.next_tile_index gs index
  end.

(** What holds of the output buffer once the first [j] entries, in the
    order of the two loops, have been written. *)
Definition entries_done (exp : float -> float) (m k : Index)
    (src out : list float) (j : Index) (o : list float) : Prop :=
  length o = length out /\
  (forall i1 i2 slice,
     0 <= i1 < m -> 0 <= i2 -> i2 * m + i1 < j ->
     Maxsumexp.is_slice m k src i1 i2 slice ->
     exists a0 b0,
       zget out (2 * (i2 * m + i1)) = Some a0 /\
       zget out (2 * (i2 * m + i1) + 1) = Some b0 /\
       zget o (2 * (i2 * m + i1))
         = Some (fst (Maxsumexp.slice_update exp slice (a0, b0))) /\
       zget o (2 * (i2 * m + i1) + 1)
         = Some (snd (Maxsumexp.slice_update exp slice (a0, b0)))) /\
  (forall q, 2 * j <= q -> zget o q = zget out q).

(** *** Global coordinates *)

(** Component-wise difference of two index vectors: [g - offset]. *)
Definition vsub (a b : list Index) : list Index := zip_with Z.sub a b.

(** [in_tile offset shape g]: the global multi-index [g] has one entry per
    axis and lies in the tile of shape [shape] placed at [offset]. *)
Definition in_tile (offset shape g : list Index) : Prop :=
  length g = length offset /\ in_box shape (vsub g offset).

(** *** include/nntile/tile/tile.hh: the allocating constructor *)

Module TileAlloc.

Section Constructor.

Import Starpu.
Local Open Scope starpu_scope.

Variable new_handle : list event -> Handle.

(** [Tile(const TileTraits &traits)]: the traits are copied and the handle
    is made over [nelems*sizeof(T)] bytes that the runtime allocates, with
    mode [STARPU_R]; the product is computed in [std::size_t], the signed
    [nelems] being converted first, and is not tested. *)
Definition Tile (sizeof_T : Z) (traits : TileTraits.t) : M Tile.t :=
  let size :=
    TileHH.to_size_t (TileHH.to_size_t (TileTraits.nelems traits) * sizeof_T) in
  h <~ variable_handle new_handle size STARPU_R;;
  ret {| Tile.traits := traits; Tile.handle := h |}.

End Constructor.

End TileAlloc.

(** *** The requests of [lars_tiled_step_async], tile by tile *)

Module LarsTrace.

(** What [lars_tiled_step_async] asks of the runtime for tile [i] on the
    node of rank [mpi_rank], when the enqueue is accepted: the transfers of
    the gradient and momentum tiles that live elsewhere, the task on the
    node that owns the parameter tile, and the flush. *)
Definition tile_requests (T : Starpu.precision) (mpi_rank : Z)
    (num_iter num_steps : Index)
    (gamma_0 momentum weight_decay lars_coefficient : float)
    (grad momentum_buffer p : Tensor.t) (i : nat) : list Starpu.event :=
  match Tensor.tile_handles p !! i, Tensor.tile_handles grad !! i,
        Tensor.tile_handles momentum_buffer !! i with
  | Some ph, Some gh, Some mh =>
      let rank := Starpu.mpi_get_rank ph in
      (if Starpu.mpi_get_rank gh =? rank then []
       else [Starpu.EvMpiTransfer gh rank mpi_rank])
      ++ (if Starpu.mpi_get_rank mh =? rank then []
          else [Starpu.EvMpiTransfer mh rank mpi_rank])
      ++ (if mpi_rank =? rank then
            [Starpu.EvTaskInsert (Starpu.codelet_lars_tiled_step T)
               [ Starpu.Buffer Starpu.STARPU_R gh;
                 Starpu.Buffer (if num_iter =? 1 then Starpu.STARPU_W
                                else Starpu.STARPU_RW) mh;
                 Starpu.Buffer Starpu.STARPU_RW ph;
                 Starpu.ClArgs
                   (Starpu.mkLarsArgs num_iter
                      (TileTraits.nelems
                         (Tensor.get_tile_traits p (Z.of_nat i)))
                      num_steps gamma_0 momentum weight_decay
                      lars_coefficient) ] 0]
          else [])
      ++ [Starpu.EvMpiFlush ph]
  | _, _, _ => []
  end.

(** A computation that throws does so right after an enqueue that the
    runtime rejected, which is then the last request of the trace. *)
Definition throws_after_rejection {A : Type}
    (res : outcome A * list Starpu.event) : Prop :=
  forall msg, fst res = Throw msg ->
    exists pre cl args r,
      snd res = pre ++ [Starpu.EvTaskInsert cl args r] /\ r <> 0.

End LarsTrace.

(** *** The requests of [gather_async] away from the destination *)

Module GatherTrace.

(** The transfer asked for source tile [i]: none when the tile already
    lives on the node of the destination tile. *)
Definition tile_transfer (src : Tensor.t) (dst_h : Starpu.Handle)
    (mpi_rank : Z) (i : nat) : list Starpu.event :=
  match Tensor.tile_handles src !! i with
  | Some h =>
      if Starpu.mpi_get_rank h =? Starpu.mpi_get_rank dst_h then []
      else [Starpu.EvMpiTransfer h (Starpu.mpi_get_rank dst_h) mpi_rank]
  | None => []
  end.

End GatherTrace.

(** *** src/kernel/add_slice3/cpu.cc *)

(** The kernels below are embedded at [T = fp64_t] like the maxsumexp
    kernel, each arithmetic operation rounded on its own; the input and
    output arrays are distinct buffers. *)
Module AddSlice3.

(** "Set output value": [dst_fiber[i0*m] = src1_val], [dst_fiber] being
    [dst + base]. *)
Definition set_body (m base : Index) (src1_val : float)
    (i0 : Index) (dst : list float) : option (list float) :=
  zset dst (base + i0 * m) src1_val.

(** "And update it":
    [dst_fiber[i0*m] = beta*src2_fiber[i0*m] + src1_val]. *)
Definition update_body (m base : Index) (beta src1_val : float)
    (src2 : list float) (i0 : Index) (dst : list float)
    : option (list float) :=
  x ← zget src2 (base + i0 * m);
  zset dst (base + i0 * m) (beta * x + src1_val)%float.

(** Body of the loop over the rows of the output. *)
Definition row_body (m k : Index) (alpha : float) (src1 : list float)
    (beta : float) (src2 : list float) (i2 i1 : Index) (dst : list float)
    : option (list float) :=
  let mk := m * k in
  let base := i2 * mk + i1 in
  x ← zget src1 (i2 * m + i1);
  let src1_val := (alpha * x)%float in
  if (beta =? 0)%float
  then for_range 0 k (set_body m base src1_val) dst
  else for_range 0 k (update_body m base beta src1_val src2) dst.

(** [kernel::add_slice3::cpu<T>]. *)
Definition cpu (m n k : Index) (alpha : float) (src1 : list float)
    (beta : float) (src2 dst : list float) : option (list float) :=
  for_range 0 n
    (fun i2 => for_range 0 m (row_body m k alpha src1 beta src2 i2)) dst.

(** The value stored at the entry [(i1, i0, i2)] of the output:
    [alpha*src1[i1,i2]] when [beta] compares equal to zero, and
    [beta*src2[i1,i0,i2] + alpha*src1[i1,i2]] otherwise. *)
Definition entry (m k : Index) (alpha : float) (src1 : list float)
    (beta : float) (src2 : list float) (i1 i0 i2 : Index) : option float :=
  a ← zget src1 (i2 * m + i1);
  if (beta =? 0)%float then Some (alpha * a)%float
  else
    b ← zget src2 (i2 * (m * k) + i1 + i0 * m);
    Some (beta * b + alpha * a)%float.

(** The output once the entries of the first [c] fibers, in the order of
    the two outer loops, are stored. *)
Definition fibers_done (m k : Index) (alpha : float) (src1 : list float)
    (beta : float) (src2 dst : list float) (c : Index) (o : list float)
    : Prop :=
  length o = length dst /\
  forall i1 i0 i2, 0 <= i1 < m -> 0 <= i0 < k -> 0 <= i2 ->
    i2 * m + i1 < c ->
    exists v,
      entry m k alpha src1 beta src2 i1 i0 i2 = Some v /\
      zget o (i2 * (m * k) + i1 + i0 * m) = Some v.

End AddSlice3.

(** *** src/kernel/sumprod_fiber/cpu.cc *)

Module SumprodFiber.

(** One round of the innermost loop, the state being [sum] and the
    compensation [c]:
<<
    y = src1_fiber[i0*m]*src2_fiber[i0*m] - c;
    t = sum + y;
    c = (t-sum) - y;
    sum = t;
>> *)
Definition kahan_step (st : float * float) (ab : float * float)
    : float * float :=
  let '(sum, c) := st in
  let y := (fst ab * snd ab - c)%float in
  let t := (sum + y)%float in
  (t, ((t - sum) - y)%float).

(** The innermost loop body, [src1_fiber] being [src1 + base]. *)
Definition fiber_body (m : Index) (src1 src2 : list float) (base : Index)
    (i0 : Index) (st : float * float) : option (float * float) :=
  a ← zget src1 (base + i0 * m);
  b ← zget src2 (base + i0 * m);
  Some (kahan_step st (a, b)).

(** Body of the loop over the columns:
    [src1_fiber = src1 + (i1*k+i2)*m] and the loop over the fiber. *)
Definition column_body (m k : Index) (src1 src2 : list float) (i2 i1 : Index)
    (st : float * float) : option (float * float) :=
  for_range 0 m (fiber_body m src1 src2 ((i1 * k + i2) * m)) st.

(** "Update output value". *)
Definition finish (alpha beta sum c result : float) : float :=
  if (beta =? 0)%float then (alpha * sum)%float
  else ((beta * result - alpha * c) + alpha * sum)%float.

(** Body of the loop over the output vector. *)
Definition output_body (m n k : Index) (alpha : float)
    (src1 src2 : list float) (beta : float) (i2 : Index) (dst : list float)
    : option (list float) :=
  '(sum, c) ← for_range 0 n (column_body m k src1 src2 i2) (0%float, 0%float);
  if (beta =? 0)%float then zset dst i2 (alpha * sum)%float
  else
    result ← zget dst i2;
    zset dst i2 ((beta * result - alpha * c) + alpha * sum)%float.

(** [kernel::sumprod_fiber::cpu<T>]. *)
Definition cpu (m n k : Index) (alpha : float) (src1 src2 : list float)
    (beta : float) (dst : list float) : option (list float) :=
  for_range 0 k (output_body m n k alpha src1 src2 beta) dst.

(** The pairs of elements on the column [i2] of two [1]-by-[k]-by-[n]
    arrays: [src1[0,i2,i1]] and [src2[0,i2,i1]] for [0 <= i1 < n]. *)
Definition is_column (n k : Index) (src1 src2 : list float) (i2 : Index)
    (pairs : list (float * float)) : Prop :=
  Z.of_nat (length pairs) = n /\
  forall i1 : nat, (i1 < length pairs)%nat ->
    pairs !! i1
    = (a ← zget src1 (Z.of_nat i1 * k + i2);
       b ← zget src2 (Z.of_nat i1 * k + i2);
       Some (a, b)).

(** The entries of the output below [c] stored, the others as they
    were. *)
Definition outputs_done (n k : Index) (alpha : float)
    (src1 src2 : list float) (beta : float) (dst : list float) (c : Index)
    (o : list float) : Prop :=
  length o = length dst /\
  (forall i2 pairs old,
     0 <= i2 < c -> is_column n k src1 src2 i2 pairs ->
     zget dst i2 = Some old ->
     zget o i2
     = Some (finish alpha beta
               (fst (fold_left kahan_step pairs (0%float, 0%float)))
               (snd (fold_left kahan_step pairs (0%float, 0%float))) old)) /\
  (forall q, c <= q -> zget o q = zget dst q).

End SumprodFiber.

(** *** src/kernel/gelutanh/cpu.cc *)

Module Gelutanh.

Definition pi : float := 0x1.921fb54442d18p+1%float.
Definition one : float := 1%float.
Definition f1 : float := 0x1.6e4e26d4801f7p-5%float.
Definition sqrt_pi : float := PrimFloat.sqrt pi.
Definition sqrt_2 : float := PrimFloat.sqrt 2%float.
Definition f2 : float := (sqrt_2 / sqrt_pi)%float.
Definition f3 : float := (PrimFloat.opp 2 * f2)%float.
Definition f4 : float := (f3 * f1)%float.

Section Kernel.

Variable exp : float -> float.

(** What is stored for the element [z]:
<<
    T y1 = f4 * z * z;
    T y2 = f3 + y1;
    T c = y1 - (y2-f3);
    y2 *= z;
    c *= z;
    T y3 = one + std::exp(c)*std::exp(y2);
    dst[i] = z / y3;
>> *)
Definition gelutanh (z : float) : float :=
  let y1 := (f4 * z * z)%float in
  let y2 := (f3 + y1)%float in
  let c := (y1 - (y2 - f3))%float in
  let y2' := (y2 * z)%float in
  let c' := (c * z)%float in
  let y3 := (one + exp c' * exp y2')%float in
  (z / y3)%float.

Definition body (src : list float) (i : Index) (dst : list float)
    : option (list float) :=
  z ← zget src i;
  zset dst i (gelutanh z).

(** [kernel::gelutanh::cpu<T>]. *)
Definition cpu (nelems : Index) (src dst : list float) : option (list float) :=
  for_range 0 nelems (body src) dst.

End Kernel.

End Gelutanh.

(** ** Part II: lemmas and theorems *)

(** *** Array accesses *)

Lemma zget_nat {A : Type} (a : list A) (n : nat) :
  zget a (Z.of_nat n) = a !! n.
Proof.
  unfold zget. destruct (Z.ltb_spec (Z.of_nat n) 0); [lia|].
  by rewrite Nat2Z.id.
Qed.

Lemma zget_Some_range {A : Type} (a : list A) (i : Index) (x : A) :
  zget a i = Some x -> 0 <= i < Z.of_nat (length a).
Proof.
  unfold zget. destruct (Z.ltb_spec i 0); [done|].
  intros H0. apply lookup_lt_Some in H0. lia.
Qed.

Lemma zget_in_range {A : Type} (a : list A) (i : Index) :
  0 <= i < Z.of_nat (length a) -> exists x, zget a i = Some x.
Proof.
  intros Hi. unfold zget. destruct (Z.ltb_spec i 0); [lia|].
  destruct (lookup_lt_is_Some_2 a (Z.to_nat i)) as [x Hx]; [lia|]. eauto.
Qed.

Lemma zset_nat {A : Type} (a : list A) (n : nat) (x : A) :
  (n < length a)%nat -> zset a (Z.of_nat n) x = Some (<[n := x]> a).
Proof.
  intros Hn. unfold zset.
  destruct (Z.leb_spec 0 (Z.of_nat n)); [|lia].
  destruct (Z.ltb_spec (Z.of_nat n) (Z.of_nat (length a))); [|lia].
  simpl. by rewrite Nat2Z.id.
Qed.

Lemma zset_in_range {A : Type} (a : list A) (i : Index) (x : A) :
  0 <= i < Z.of_nat (length a) ->
  zset a i x = Some (<[Z.to_nat i := x]> a).
Proof.
  intros Hi. unfold zset.
  destruct (Z.leb_spec 0 i); [|lia].
  destruct (Z.ltb_spec i (Z.of_nat (length a))); [|lia]. done.
Qed.

Lemma zset_Some {A : Type} (a a' : list A) (i : Index) (x : A) :
  zset a i x = Some a' ->
  0 <= i < Z.of_nat (length a) /\ a' = <[Z.to_nat i := x]> a.
Proof.
  unfold zset.
  destruct (Z.leb_spec 0 i); destruct (Z.ltb_spec i (Z.of_nat (length a)));
    simpl; intros [= <-]; split; (lia || done).
Qed.

Lemma zget_head {A : Type} (x : A) (a : list A) : zget (x :: a) 0 = Some x.
Proof. reflexivity. Qed.

Lemma zset_head {A : Type} (x y : A) (a : list A) :
  zset (x :: a) 0 y = Some (y :: a).
Proof. reflexivity. Qed.

Lemma zget_middle {A : Type} (pre post : list A) (x : A) (i : Index) :
  i = Z.of_nat (length pre) -> zget (pre ++ x :: post) i = Some x.
Proof. intros ->. rewrite zget_nat. by apply list_lookup_middle. Qed.

Lemma zset_middle {A : Type} (pre post : list A) (x y : A) (i : Index) :
  i = Z.of_nat (length pre) ->
  zset (pre ++ x :: post) i y = Some (pre ++ y :: post).
Proof.
  intros ->. rewrite zset_nat.
  - f_equal. rewrite insert_app_r_alt; [|lia].
    by rewrite Nat.sub_diag.
  - rewrite length_app. simpl. lia.
Qed.

(** *** Loops *)

(** Invariant rule for a counted loop: an invariant kept by every round,
    each of which runs without undefined behaviour, holds at the exit. *)
Lemma for_loop_inv {S : Type} (Inv : Index -> S -> Prop)
    (body : Index -> S -> option S) (n : nat) (lo : Index) (s : S) :
  Inv lo s ->
  (forall i s0, lo <= i < lo + Z.of_nat n -> Inv i s0 ->
     exists s1, body i s0 = Some s1 /\ Inv (i + 1) s1) ->
  exists s', for_loop n lo body s = Some s' /\ Inv (lo + Z.of_nat n) s'.
Proof.
  revert lo s. induction n as [|n IH]; intros lo s H0 Hstep.
  - exists s. split; [done|]. by replace (lo + Z.of_nat 0) with lo by lia.
  - destruct (Hstep lo s) as (s1 & Hb & H1); [lia|done|].
    simpl. rewrite Hb.
    destruct (IH (lo + 1) s1 H1) as (s' & Hl & H'').
    + intros i s0 Hi. apply Hstep. lia.
    + exists s'. split; [done|].
      by replace (lo + Z.of_nat (Datatypes.S n)) with (lo + 1 + Z.of_nat n) by lia.
Qed.

Lemma for_range_inv {S : Type} (Inv : Index -> S -> Prop)
    (body : Index -> S -> option S) (lo hi : Index) (s : S) :
  lo <= hi ->
  Inv lo s ->
  (forall i s0, lo <= i < hi -> Inv i s0 ->
     exists s1, body i s0 = Some s1 /\ Inv (i + 1) s1) ->
  exists s', for_range lo hi body s = Some s' /\ Inv hi s'.
Proof.
  intros Hle H0 Hstep. unfold for_range.
  destruct (for_loop_inv Inv body (Z.to_nat (hi - lo)) lo s H0) as (s' & Hl & H').
  - intros i s0 Hi. apply Hstep. lia.
  - exists s'. split; [done|].
    by replace (lo + Z.of_nat (Z.to_nat (hi - lo))) with hi in H' by lia.
Qed.

(** A property that every round keeps holds at the exit of a loop that
    ran to its end. *)
Lemma for_loop_preserves {S : Type} (P : S -> Prop)
    (body : Index -> S -> option S) (n : nat) (lo : Index) (s s' : S) :
  P s ->
  (forall i s0 s1, P s0 -> body i s0 = Some s1 -> P s1) ->
  for_loop n lo body s = Some s' -> P s'.
Proof.
  intros Hs Hpres. revert lo s Hs.
  induction n as [|n IH]; intros lo s Hs Hrun; cbn [for_loop] in Hrun.
  - by injection Hrun as <-.
  - destruct (body lo s) as [s1|] eqn:Hbody; [|done].
    apply (IH (lo + 1) s1); [by eapply Hpres|done].
Qed.

(** *** Column-major geometry *)

Import TileTraits.

Lemma dot_strides_from (a : Z) (sh p : list Index) :
  dot (strides_from a sh) p = a * dot (strides_from 1 sh) p.
Proof.
  revert a p. induction sh as [|n sh IH]; intros a p; simpl.
  - lia.
  - destruct p as [|x p]; [lia|].
    rewrite (IH (a * n)), (IH (1 * n)). lia.
Qed.

Lemma dot_col_major_cons (n : Index) (sh : list Index) (x : Index) (p : list Index) :
  dot (col_major_strides (n :: sh)) (x :: p)
  = x + n * dot (col_major_strides sh) p.
Proof.
  unfold col_major_strides. simpl. rewrite dot_strides_from. lia.
Qed.

Lemma strides_from_length (a : Z) (sh : list Index) :
  length (strides_from a sh) = length sh.
Proof. revert a. induction sh; intros; simpl; auto. Qed.

Lemma in_box_length (sh p : list Index) : in_box sh p -> length p = length sh.
Proof. intros H. symmetry. by eapply Forall2_length. Qed.

Lemma dot_in_box_range (sh p : list Index) :
  in_box sh p -> 0 <= dot (col_major_strides sh) p < prod_shape sh.
Proof.
  induction 1 as [|n x sh p Hx _ IH].
  - simpl. lia.
  - rewrite dot_col_major_cons. simpl. nia.
Qed.

Lemma digits_length (sh : list Index) (i : Index) :
  length (digits sh i) = length sh.
Proof. revert i. induction sh; intros; simpl; auto. Qed.

Lemma digits_in_box (sh : list Index) (i : Index) :
  Forall (fun n => 1 <= n) sh -> in_box sh (digits sh i).
Proof.
  intros H. revert i. induction H as [|n sh Hn _ IH]; intros i; simpl.
  - constructor.
  - constructor; [|apply IH]. apply Z.mod_pos_bound. lia.
Qed.

(** [linear_to_index] after [index_to_linear] on an index of the box. *)
Lemma digits_dot (sh p : list Index) :
  in_box sh p -> digits sh (dot (col_major_strides sh) p) = p.
Proof.
  induction 1 as [|n x sh p Hx _ IH].
  - done.
  - rewrite dot_col_major_cons. simpl. f_equal.
    + replace (x + n * dot (col_major_strides sh) p)
        with (x + dot (col_major_strides sh) p * n) by lia.
      rewrite Z_mod_plus_full. apply Z.mod_small. lia.
    + replace (x + n * dot (col_major_strides sh) p)
        with (x + dot (col_major_strides sh) p * n) by lia.
      rewrite Z_div_plus_full by lia.
      rewrite Z.div_small by lia. simpl. exact IH.
Qed.

(** [index_to_linear] after [linear_to_index] on a linear index in range. *)
Lemma dot_digits (sh : list Index) (i : Index) :
  Forall (fun n => 1 <= n) sh -> 0 <= i < prod_shape sh ->
  dot (col_major_strides sh) (digits sh i) = i.
Proof.
  intros H. revert i. induction H as [|n sh Hn _ IH]; intros i Hi.
  - simpl in *. lia.
  - cbn [digits]. rewrite dot_col_major_cons.
    unfold prod_shape in Hi. simpl in Hi. fold (prod_shape sh) in Hi.
    rewrite IH.
    + pose proof (Z.div_mod i n). lia.
    + split; [apply Z.div_pos; lia|].
      apply Z.div_lt_upper_bound; lia.
Qed.

Lemma dot_col_major_inj (sh p q : list Index) :
  in_box sh p -> in_box sh q ->
  dot (col_major_strides sh) p = dot (col_major_strides sh) q -> p = q.
Proof.
  intros Hp Hq Heq.
  rewrite <- (digits_dot sh p Hp), <- (digits_dot sh q Hq). by rewrite Heq.
Qed.

Lemma prod_shape_pos (sh : list Index) :
  Forall (fun n => 1 <= n) sh -> 1 <= prod_shape sh.
Proof. induction 1; simpl; nia. Qed.

(** The list [box] enumerates exactly the multi-indices of the box. *)
Lemma box_spec (sh p : list Index) :
  Forall (fun n => 1 <= n) sh -> In p (box sh) <-> in_box sh p.
Proof.
  intros Hsh. unfold box. rewrite in_map_iff. split.
  - intros (i & <- & _). by apply digits_in_box.
  - intros Hp. pose proof (dot_in_box_range sh p Hp) as Hr.
    exists (Z.to_nat (dot (col_major_strides sh) p)). split.
    + rewrite Z2Nat.id by lia. by apply digits_dot.
    + apply in_seq. lia.
Qed.

Lemma box_length (sh : list Index) :
  length (box sh) = Z.to_nat (prod_shape sh).
Proof. unfold box. by rewrite length_map, length_seq. Qed.

Lemma box_lookup (sh : list Index) (i : nat) :
  (i < Z.to_nat (prod_shape sh))%nat ->
  box sh !! i = Some (digits sh (Z.of_nat i)).
Proof.
  intros Hi. unfold box. rewrite list_lookup_fmap.
  rewrite lookup_seq_lt by done. done.
Qed.

(** *** Start vectors *)

Lemma vadd_length (a b : list Index) :
  length a = length b -> length (vadd a b) = length a.
Proof.
  revert b. induction a as [|x a IH]; intros [|y b]; simpl; try done.
  intros [= H]. by rewrite IH.
Qed.

Lemma dot_vadd (t a b : list Index) :
  length a = length b -> dot t (vadd a b) = dot t a + dot t b.
Proof.
  revert a b. induction t as [|s t IH]; intros [|x a] [|y b]; simpl; try done.
  intros [= H]. rewrite IH by done. lia.
Qed.

Lemma fits_lengths (start cs sh : list Index) :
  fits start cs sh -> length start = length cs /\ length sh = length cs.
Proof.
  revert cs sh. induction start as [|s start IH]; intros [|c cs] [|n sh]; simpl;
    try done.
  intros (_ & _ & _ & H). destruct (IH _ _ H). lia.
Qed.

Lemma fits_copy_shape_pos (start cs sh : list Index) :
  fits start cs sh -> Forall (fun n => 1 <= n) cs.
Proof.
  revert cs sh. induction start as [|s start IH]; intros [|c cs] [|n sh]; simpl;
    try done.
  intros (_ & Hc & _ & H). constructor; eauto.
Qed.

Lemma fits_vadd_in_box (start cs sh p : list Index) :
  fits start cs sh -> in_box cs p -> in_box sh (vadd start p).
Proof.
  intros Hf Hp. revert start sh Hf.
  induction Hp as [|c x cs p Hx _ IH]; intros [|s start] [|n sh]; simpl; try done.
  - constructor.
  - intros (Hs & Hc & Hn & Hf). constructor; [lia|]. by apply IH.
Qed.

Lemma vadd_inj (start p q : list Index) :
  length p = length start -> length q = length start ->
  vadd start p = vadd start q -> p = q.
Proof.
  revert p q. induction start as [|s start IH]; intros [|x p] [|y q]; simpl;
    try done.
  intros [= Hp] [= Hq] [= Hxy Hr]. f_equal; [lia|]. by apply IH.
Qed.

(** *** The carry loop of the kernel *)

Lemma zget_middle2 {A : Type} (pre post : list A) (x y : A) (i : Index) :
  i = Z.of_nat (length pre) + 1 -> zget (pre ++ x :: y :: post) i = Some y.
Proof.
  intros ->. rewrite (cons_middle x), app_assoc. apply zget_middle.
  rewrite length_app. simpl. lia.
Qed.

Lemma zset_middle2 {A : Type} (pre post : list A) (x y z : A) (i : Index) :
  i = Z.of_nat (length pre) + 1 ->
  zset (pre ++ x :: y :: post) i z = Some (pre ++ x :: z :: post).
Proof.
  intros ->. rewrite (cons_middle x), app_assoc.
  rewrite zset_middle by (rewrite length_app; simpl; lia).
  by rewrite <- app_assoc.
Qed.

Ltac zstep :=
  match goal with
  | |- context [zget (?pre ++ ?x :: ?post) ?i] =>
      rewrite (zget_middle pre post x i) by lia
  | |- context [zget (?pre ++ ?x :: ?y :: ?post) ?i] =>
      rewrite (zget_middle2 pre post x y i) by lia
  | |- context [zset (?pre ++ ?x :: ?post) ?i ?z] =>
      rewrite (zset_middle pre post x z i) by lia
  | |- context [zset (?pre ++ ?x :: ?y :: ?post) ?i ?z] =>
      rewrite (zset_middle2 pre post x y z i) by lia
  end; cbn [mbind option_bind].

(** The carry loop started at axis [j] normalises a bumped digit vector and
    moves the running offset by the difference of the two linear offsets,
    whatever the strides are. *)
Lemma carry_spec (c2 : list Index) :
  forall (q2 s2 t2 P B s1 t1 c1 : list Index) (fuel : nat) (base off : Index),
  bumped c2 q2 ->
  length s2 = length c2 -> length t2 = length c2 ->
  length t1 = length s1 -> length c1 = length s1 ->
  Z.of_nat (length P) = base + Z.of_nat (length s1) ->
  (length c2 <= fuel)%nat ->
  Copy.carry fuel base (s1 ++ s2) (t1 ++ t2) (c1 ++ c2) (Z.of_nat (length s1))
             (P ++ vadd s2 q2 ++ B, off)
  = Some (P ++ vadd s2 (digits c2 (dot (col_major_strides c2) q2)) ++ B,
          off + dot t2 (digits c2 (dot (col_major_strides c2) q2)) - dot t2 q2).
Proof.
  induction c2 as [|c0 c2 IH];
    intros q2 s2 t2 P B s1 t1 c1 fuel base off Hb Hs Ht Ht1 Hc1 HP Hfuel;
    [done|].
  destruct q2 as [|d q2]; [done|].
  destruct s2 as [|s0 s2]; [done|]. destruct t2 as [|t0 t2]; [done|].
  destruct fuel as [|fuel]; [simpl in Hfuel; lia|].
  destruct Hb as (Hc0 & Hd & Hq & Hv).
  rewrite dot_col_major_cons in Hv |- *.
  pose proof (dot_in_box_range c2 q2 Hq) as Hr.
  set (v' := dot (col_major_strides c2) q2) in *.
  cbn [Copy.carry vadd app]. repeat zstep.
  destruct (Z.eqb_spec (s0 + d) (s0 + c0)) as [Heq|Hne].
  - (* the digit wrapped: carry into the next axis *)
    assert (d = c0) as -> by lia.
    change (prod_shape (c0 :: c2)) with (c0 * prod_shape c2) in Hv.
    assert (v' + 1 < prod_shape c2) as Hv' by nia.
    destruct c2 as [|c1' c2]; [simpl in *; unfold v' in *; simpl in *; lia|].
    destruct q2 as [|e q2]; [by apply Forall2_length in Hq|].
    destruct s2 as [|s1' s2]; [done|]. destruct t2 as [|t1' t2]; [done|].
    cbn [vadd app]. repeat zstep.
    inversion Hq as [|? ? ? ? He Hq']; subst.
    specialize (IH ((e + 1) :: q2) (s1' :: s2) (t1' :: t2) (P ++ [s0]) B
                   (s1 ++ [s0]) (t1 ++ [t0]) (c1 ++ [c0]) fuel base
                   (off + (t1' - c0 * t0))).
    rewrite !length_app in IH. simpl length in IH.
    replace (Z.of_nat (length s1 + 1)) with (Z.of_nat (length s1) + 1) in IH by lia.
    rewrite <- !app_assoc in IH. cbn [app vadd] in IH.
    assert (dot (col_major_strides (c1' :: c2)) ((e + 1) :: q2) = v' + 1) as Hv1.
    { unfold v'. rewrite !dot_col_major_cons. lia. }
    rewrite Hv1 in IH.
    replace (s1' + e + 1) with (s1' + (e + 1)) by lia.
    rewrite IH; clear IH.
    + replace (c0 + c0 * v') with (0 + (v' + 1) * c0) by lia.
      cbn [digits]. rewrite Z_mod_plus_full, Z_div_plus_full by lia.
      rewrite Z.mod_0_l, Z.div_0_l by lia.
      cbn [vadd app dot]. rewrite !Z.add_0_l, !Z.add_0_r.
      do 2 f_equal. lia.
    + repeat split; try lia; try done.
    + simpl in Hs |- *. lia.
    + simpl in Ht |- *. lia.
    + lia.
    + lia.
    + lia.
    + simpl in Hfuel |- *. lia.
  - (* no carry: the vector is already normal *)
    assert (in_box (c0 :: c2) (d :: q2)) as Hin.
    { constructor; [lia|done]. }
    pose proof (digits_dot (c0 :: c2) (d :: q2) Hin) as Hdd.
    rewrite dot_col_major_cons in Hdd. fold v' in Hdd. rewrite Hdd.
    cbn [vadd app]. repeat f_equal. lia.
Qed.

Lemma bumped_bump_digits (cs : list Index) (i : Index) :
  Forall (fun n => 1 <= n) cs -> cs <> [] -> 1 <= i < prod_shape cs ->
  bumped cs (bump (digits cs (i - 1))) /\
  dot (col_major_strides cs) (bump (digits cs (i - 1))) = i.
Proof.
  intros Hcs Hne Hi.
  pose proof (digits_in_box cs (i - 1) Hcs) as Hin.
  pose proof (dot_digits cs (i - 1) Hcs ltac:(lia)) as Hd.
  destruct cs as [|c cs]; [done|]. cbn [digits bump] in *.
  inversion Hin as [|? ? ? ? Hx Hin']; subst.
  inversion Hcs as [|? ? Hc Hcs']; subst.
  rewrite dot_col_major_cons in Hd |- *.
  assert (dot (col_major_strides (c :: cs))
              (((i - 1) mod c + 1) :: digits cs ((i - 1) / c)) = i) as Hv.
  { rewrite dot_col_major_cons. lia. }
  split; [|lia].
  unfold bumped. rewrite Hv. repeat split; try lia; done.
Qed.

Lemma dot_bump (t0 : Index) (t q : list Index) :
  q <> [] -> dot (t0 :: t) (bump q) = dot (t0 :: t) q + t0.
Proof. destruct q as [|d q]; [done|]. intros _. simpl. lia. Qed.

Lemma vadd_bump (s q : list Index) :
  vadd s (bump q) = bump (vadd s q).
Proof.
  destruct s as [|s0 s], q as [|d q]; simpl; try done. f_equal. lia.
Qed.

Lemma digits_zero (cs : list Index) :
  digits cs 0 = repeat 0 (length cs).
Proof.
  induction cs as [|c cs IH]; [done|].
  cbn [digits length repeat]. rewrite Zmod_0_l, Zdiv_0_l. by rewrite IH.
Qed.

Lemma prod_shape_app (l : list Index) (x : Index) :
  prod_shape (l ++ [x]) = prod_shape l * x.
Proof. induction l as [|y l IH]; simpl in *; [lia|]. rewrite IH. lia. Qed.

Lemma dot_take_S (t a : list Index) (k : nat) (tk ak : Index) :
  t !! k = Some tk -> a !! k = Some ak ->
  dot (take (S k) t) a = dot (take k t) a + ak * tk.
Proof.
  revert a k. induction t as [|t0 t IH]; intros [|a0 a] [|k]; simpl; try done.
  - intros [= ->] [= ->]. destruct t; simpl; lia.
  - intros Ht Ha. rewrite (IH a k) by done. lia.
Qed.

Lemma vadd_zero (s : list Index) : vadd s (repeat 0 (length s)) = s.
Proof. induction s as [|x s IH]; simpl; [done|]. rewrite IH. f_equal. lia. Qed.

Lemma vadd_zero_l (p : list Index) (n : nat) :
  length p = n -> vadd (repeat 0 n) p = p.
Proof.
  revert n. induction p as [|x p IH]; intros [|n]; simpl; try done.
  intros [= H]. by rewrite IH.
Qed.

(** *** The kernel's two preparation loops *)

(** The first loop computes the number of elements of the box and fills the
    scratch buffer, whatever it held, with the two start vectors. *)
Lemma init_loop_spec (ss cs ds scratch0 : list Index) :
  length ss = length cs -> length ds = length cs ->
  length scratch0 = (2 * length cs)%nat ->
  for_range 0 (Z.of_nat (length cs))
    (Copy.init_body (Z.of_nat (length cs)) ss cs ds) (1, scratch0)
  = Some (prod_shape cs, ss ++ ds).
Proof.
  intros Hss Hds Hscr. set (n := length cs) in *.
  pose (Inv := fun (i : Index) (st : Index * list Index) =>
    0 <= i <= Z.of_nat n /\
    fst st = prod_shape (take (Z.to_nat i) cs) /\
    length (snd st) = (2 * n)%nat /\
    forall k, (k < Z.to_nat i)%nat ->
      snd st !! k = ss !! k /\ snd st !! (n + k)%nat = ds !! k).
  destruct (for_range_inv Inv (Copy.init_body (Z.of_nat n) ss cs ds)
              0 (Z.of_nat n) (1, scratch0)) as ([ne scr] & Hrun & Hinv).
  - lia.
  - unfold Inv. simpl. repeat split; try lia; try done.
  - intros i [ne scr] Hi (_ & Hne & Hlen & Hlk). simpl in Hne, Hlen, Hlk.
    assert (exists k, i = Z.of_nat k) as [k ->] by (exists (Z.to_nat i); lia).
    rewrite Nat2Z.id in Hne, Hlk. assert (k < n)%nat as Hk by lia.
    destruct (lookup_lt_is_Some_2 cs k) as [c Hc]; [by fold n|].
    destruct (lookup_lt_is_Some_2 ss k) as [s Hs]; [lia|].
    destruct (lookup_lt_is_Some_2 ds k) as [d Hd]; [lia|].
    unfold Copy.init_body.
    rewrite !zget_nat, Hc, Hs, Hd. cbn [mbind option_bind].
    rewrite zset_nat by lia. cbn [mbind option_bind].
    rewrite <- Nat2Z.inj_add.
    rewrite zset_nat by (rewrite length_insert; lia). cbn [mbind option_bind].
    eexists. split; [done|]. unfold Inv. simpl.
    replace (Z.to_nat (Z.of_nat k + 1)) with (S k) by lia.
    repeat split; try lia.
    + by rewrite (take_S_r _ _ _ Hc), prod_shape_app, Hne.
    + by rewrite !length_insert.
    + destruct (decide (k0 = k)) as [->|Hkk].
      * rewrite list_lookup_insert_ne by lia.
        rewrite list_lookup_insert_eq by lia. done.
      * rewrite !list_lookup_insert_ne by lia.
        apply Hlk. lia.
    + destruct (decide (k0 = k)) as [->|Hkk].
      * rewrite list_lookup_insert_eq by (rewrite length_insert; lia). done.
      * rewrite !list_lookup_insert_ne by lia.
        apply Hlk. lia.
  - rewrite Hrun. destruct Hinv as (_ & Hne & Hlen & Hlk).
    simpl in Hne, Hlen, Hlk. rewrite Nat2Z.id in Hne, Hlk.
    rewrite take_ge in Hne by (fold n; lia). rewrite Hne. do 2 f_equal.
    apply list_eq. intros k.
    destruct (decide (k < n)%nat) as [Hk|Hk].
    + rewrite lookup_app_l by lia. by apply Hlk.
    + destruct (decide (k < 2 * n)%nat) as [Hk2|Hk2].
      * rewrite lookup_app_r by lia. rewrite Hss.
        replace k with (n + (k - n))%nat at 1 by lia. apply Hlk. lia.
      * rewrite !lookup_ge_None_2; [done| |lia].
        rewrite length_app. lia.
Qed.

(** The second loop computes the linear offsets of the two start vectors,
    provided both strides begin with [1]. *)
Lemma offset_loop_spec (ss ts ds td : list Index) (s0 d0 : Index) :
  length ss = length ts -> length ds = length ts -> length td = length ts ->
  ss !! 0%nat = Some s0 -> ds !! 0%nat = Some d0 ->
  ts !! 0%nat = Some 1 -> td !! 0%nat = Some 1 ->
  for_range 1 (Z.of_nat (length ts))
    (Copy.offset_body ss ts ds td) (s0, d0)
  = Some (dot ts ss, dot td ds).
Proof.
  intros Hss Hds Htd Hs0 Hd0 Ht0 Htd0. set (n := length ts) in *.
  assert (1 <= n)%nat as Hn.
  { apply lookup_lt_Some in Ht0. lia. }
  pose (Inv := fun (i : Index) (st : Index * Index) =>
    1 <= i <= Z.of_nat n /\
    fst st = dot (take (Z.to_nat i) ts) ss /\
    snd st = dot (take (Z.to_nat i) td) ds).
  destruct (for_range_inv Inv (Copy.offset_body ss ts ds td)
              1 (Z.of_nat n) (s0, d0)) as ([so do] & Hrun & Hinv).
  - lia.
  - unfold Inv. simpl. split; [lia|].
    change (Z.to_nat 1) with 1%nat.
    rewrite (dot_take_S ts ss 0 1 s0), (dot_take_S td ds 0 1 d0) by done.
    rewrite !take_0. simpl. lia.
  - intros i [so do] Hi (_ & Hso & Hdo). simpl in Hso, Hdo.
    assert (exists k, i = Z.of_nat k) as [k ->] by (exists (Z.to_nat i); lia).
    rewrite Nat2Z.id in Hso, Hdo. assert (k < n)%nat as Hk by lia.
    destruct (lookup_lt_is_Some_2 ss k) as [s Hs]; [lia|].
    destruct (lookup_lt_is_Some_2 ts k) as [t Ht]; [by fold n|].
    destruct (lookup_lt_is_Some_2 ds k) as [d Hd]; [lia|].
    destruct (lookup_lt_is_Some_2 td k) as [t' Ht']; [lia|].
    unfold Copy.offset_body.
    rewrite !zget_nat, Hs, Ht, Hd, Ht'. cbn [mbind option_bind].
    eexists. split; [done|]. unfold Inv. simpl.
    replace (Z.to_nat (Z.of_nat k + 1)) with (S k) by lia.
    rewrite (dot_take_S ts ss k t s), (dot_take_S td ds k t' d) by done.
    lia.
  - rewrite Hrun. destruct Hinv as (_ & Hso & Hdo). simpl in Hso, Hdo.
    rewrite Nat2Z.id in Hso, Hdo.
    rewrite take_ge in Hso by (fold n; lia).
    rewrite take_ge in Hdo by lia. by rewrite Hso, Hdo.
Qed.

(** *** One round of index bookkeeping *)

(** From the multi-index of element [i-1] the bookkeeping reaches the
    multi-index of element [i], and both running offsets, one past the
    previous element on entry, are the linear offsets of element [i]. *)
Lemma advance_spec (ss ts cs ds td : list Index) (i so do : Index) :
  cs <> [] -> Forall (fun n => 1 <= n) cs ->
  length ss = length cs -> length ts = length cs ->
  length ds = length cs -> length td = length cs ->
  ts !! 0%nat = Some 1 -> td !! 0%nat = Some 1 ->
  1 <= i < prod_shape cs ->
  so = dot ts (vadd ss (digits cs (i - 1))) + 1 ->
  do = dot td (vadd ds (digits cs (i - 1))) + 1 ->
  Copy.advance (Z.of_nat (length cs)) ss ts cs ds td
    (vadd ss (digits cs (i - 1)) ++ vadd ds (digits cs (i - 1)), so, do)
  = Some (vadd ss (digits cs i) ++ vadd ds (digits cs i),
          dot ts (vadd ss (digits cs i)),
          dot td (vadd ds (digits cs i))).
Proof.
  intros Hne Hpos Hss Hts Hds Htd Ht0 Htd0 Hi Hso Hdo.
  destruct (bumped_bump_digits cs i Hpos Hne Hi) as [Hb Hv].
  pose proof (digits_length cs (i - 1)) as Hql.
  pose proof (digits_length cs i) as Hql'.
  set (q := digits cs (i - 1)) in *.
  assert (length (vadd ss q) = length cs) as Hl1
    by (rewrite vadd_length; lia).
  assert (length (vadd ss (digits cs i)) = length cs) as Hl1'
    by (rewrite vadd_length; lia).
  unfold Copy.advance.
  destruct q as [|d q'] eqn:Eq; [destruct cs; done|].
  destruct ss as [|s0 ss']; [destruct cs; done|].
  destruct ds as [|d0 ds']; [destruct cs; done|].
  destruct ts as [|t0 ts']; [done|]. destruct td as [|t0' td']; [done|].
  injection Ht0 as ->. injection Htd0 as ->.
  change (vadd (s0 :: ss') (d :: q')) with ((s0 + d) :: vadd ss' q').
  change (vadd (d0 :: ds') (d :: q')) with ((d0 + d) :: vadd ds' q').
  cbn [app].
  rewrite zget_head. cbn [mbind option_bind].
  rewrite zset_head. cbn [mbind option_bind].
  rewrite (app_comm_cons (vadd ss' q')).
  rewrite (zget_middle (_ :: vadd ss' q'))
    by (simpl in Hl1 |- *; lia). cbn [mbind option_bind].
  rewrite (zset_middle (_ :: vadd ss' q'))
    by (simpl in Hl1 |- *; lia). cbn [mbind option_bind].
  change ((s0 + d + 1 :: vadd ss' q') ++ d0 + d + 1 :: vadd ds' q')
    with (bump (vadd (s0 :: ss') (d :: q')) ++ bump (vadd (d0 :: ds') (d :: q'))).
  rewrite <- !vadd_bump.
  pose proof (carry_spec cs (bump (d :: q')) (s0 :: ss') (1 :: ts')
                [] (vadd (d0 :: ds') (bump (d :: q'))) [] [] []
                (S (length cs)) 0 so) as Hc1.
  cbn [app length] in Hc1. change (Z.of_nat 0) with 0 in Hc1.
  rewrite Hc1; try done; try lia.
  clear Hc1. cbn [mbind option_bind]. rewrite Hv.
  pose proof (carry_spec cs (bump (d :: q')) (d0 :: ds') (1 :: td')
                (vadd (s0 :: ss') (digits cs i)) [] [] [] []
                (S (length cs)) (Z.of_nat (length cs)) do) as Hc2.
  cbn [app length] in Hc2. change (Z.of_nat 0) with 0 in Hc2.
  rewrite !app_nil_r in Hc2.
  rewrite Hc2; try done; try lia.
  clear Hc2. cbn [mbind option_bind]. rewrite Hv.
  rewrite !dot_bump by done. subst so do.
  rewrite !dot_vadd by (simpl in *; lia). do 3 f_equal; lia.
Qed.

(** *** The kernel against the per-element mapping *)

Lemma offsets_in_range (ss cs sh p : list Index) :
  fits ss cs sh -> in_box cs p ->
  0 <= dot (col_major_strides sh) (vadd ss p) < prod_shape sh.
Proof.
  intros Hf Hp. apply dot_in_box_range. by eapply fits_vadd_in_box.
Qed.

Lemma col_major_strides_head (sh : list Index) :
  sh <> [] -> col_major_strides sh !! 0%nat = Some 1.
Proof. by destruct sh. Qed.

Section CopyKernelFacts.

Context {T : Type}.

Lemma copy_one_naive (src_tr dst_tr : TileTraits.t) (ss ds p : list Index)
    (src d : list T) (st : Copy.state) :
  Copy.bufs st = Copy.Distinct src d ->
  Copy.src_offset st = index_to_linear src_tr (vadd ss p) ->
  Copy.dst_offset st = index_to_linear dst_tr (vadd ds p) ->
  0 <= Copy.src_offset st < Z.of_nat (length src) ->
  0 <= Copy.dst_offset st < Z.of_nat (length d) ->
  exists d',
    Copy.copy_one st
    = Some {| Copy.scratch := Copy.scratch st;
              Copy.src_offset := Copy.src_offset st + 1;
              Copy.dst_offset := Copy.dst_offset st + 1;
              Copy.bufs := Copy.Distinct src d' |} /\
    Copy.naive_step src_tr dst_tr ss ds src (Some d) p = Some d' /\
    length d' = length d.
Proof.
  intros Hb Hso Hdo Hrs Hrd.
  destruct (zget_in_range src _ Hrs) as [v Hv].
  unfold Copy.copy_one, Copy.naive_step. rewrite Hb.
  cbn [mbind option_bind Copy.read_src Copy.write_dst].
  rewrite <- Hso, <- Hdo, Hv. cbn [mbind option_bind].
  rewrite (zset_in_range _ _ v Hrd). cbn [mbind option_bind].
  eexists. split; [done|]. split; [done|]. by rewrite length_insert.
Qed.

(** On two buffers that share no memory the kernel returns, leaves the
    source buffer as it was, and leaves in the destination buffer what the
    per-element mapping over the box, taken in column-major order,
    returns. *)
Lemma kernel_on_refines_naive (src_shape dst_shape ss cs ds : list Index)
    (src dst0 : list T) (scratch0 : list Index) :
  cs <> [] -> fits ss cs src_shape -> fits ds cs dst_shape ->
  Z.of_nat (length src) = prod_shape src_shape ->
  Z.of_nat (length dst0) = prod_shape dst_shape ->
  length scratch0 = (2 * length cs)%nat ->
  exists d,
    Copy.cpu_copy_intersection_on (Z.of_nat (length cs))
      ss (col_major_strides src_shape) cs
      ds (col_major_strides dst_shape) (Copy.Distinct src dst0) scratch0
    = Some (Copy.Distinct src d) /\
    Copy.naive_copy (of_shape src_shape) (of_shape dst_shape)
      ss cs ds src dst0 = Some d /\
    length d = length dst0.
Proof.
  intros Hne Hfs Hfd Hsrc Hdst Hscr.
  destruct (fits_lengths _ _ _ Hfs) as [Hss Hsh].
  destruct (fits_lengths _ _ _ Hfd) as [Hds Hdh].
  pose proof (fits_copy_shape_pos _ _ _ Hfs) as Hpos.
  pose proof (prod_shape_pos cs Hpos) as HN.
  set (ts := col_major_strides src_shape).
  set (td := col_major_strides dst_shape).
  assert (length ts = length cs) as Hts
    by (unfold ts, col_major_strides; rewrite strides_from_length; lia).
  assert (length td = length cs) as Htd
    by (unfold td, col_major_strides; rewrite strides_from_length; lia).
  assert (ts !! 0%nat = Some 1) as Ht0
    by (apply col_major_strides_head; destruct src_shape, cs; done).
  assert (td !! 0%nat = Some 1) as Htd0
    by (apply col_major_strides_head; destruct dst_shape, cs; done).
  assert (exists s0, ss !! 0%nat = Some s0) as [s0 Hs0]
    by (destruct ss, cs; try done; eauto).
  assert (exists d0, ds !! 0%nat = Some d0) as [d0 Hd0]
    by (destruct ds, cs; try done; eauto).
  set (src_tr := of_shape src_shape). set (dst_tr := of_shape dst_shape).
  assert (forall p, in_box cs p ->
    0 <= index_to_linear src_tr (vadd ss p) < Z.of_nat (length src)) as Hrs.
  { intros p Hp. rewrite Hsrc. by apply offsets_in_range with cs. }
  assert (forall p, in_box cs p ->
    0 <= index_to_linear dst_tr (vadd ds p) < Z.of_nat (length dst0)) as Hrd.
  { intros p Hp. rewrite Hdst. by apply offsets_in_range with cs. }
  unfold Copy.cpu_copy_intersection_on.
  rewrite init_loop_spec by done. cbn [mbind option_bind].
  change 0 with (Z.of_nat 0) at 1 2. rewrite !zget_nat, Hs0, Hd0.
  cbn [mbind option_bind].
  pose proof (offset_loop_spec ss ts ds td s0 d0) as Hoff.
  rewrite Hts in Hoff. rewrite Hoff by (done || lia). clear Hoff.
  cbn [mbind option_bind].
  (* the first element *)
  pose proof (digits_in_box cs 0 Hpos) as Hin0.
  assert (vadd ss (digits cs 0) = ss) as Hz1
    by (rewrite digits_zero, <- Hss; apply vadd_zero).
  assert (vadd ds (digits cs 0) = ds) as Hz2
    by (rewrite digits_zero, <- Hds; apply vadd_zero).
  destruct (copy_one_naive src_tr dst_tr ss ds (digits cs 0) src dst0
              {| Copy.scratch := ss ++ ds; Copy.src_offset := dot ts ss;
                 Copy.dst_offset := dot td ds;
                 Copy.bufs := Copy.Distinct src dst0 |})
    as (d1 & Hone & Hnaive1 & Hlen1);
    cbn [Copy.src_offset Copy.dst_offset Copy.bufs].
  { done. } { by rewrite Hz1. } { by rewrite Hz2. }
  { specialize (Hrs _ Hin0). by rewrite Hz1 in Hrs. }
  { specialize (Hrd _ Hin0). by rewrite Hz2 in Hrd. }
  rewrite Hone. cbn [mbind option_bind Copy.scratch] in *.
  (* the main loop *)
  pose (Inv := fun (i : Index) (st : Copy.state) =>
    1 <= i <= prod_shape cs /\
    Copy.scratch st = vadd ss (digits cs (i - 1)) ++ vadd ds (digits cs (i - 1)) /\
    Copy.src_offset st = dot ts (vadd ss (digits cs (i - 1))) + 1 /\
    Copy.dst_offset st = dot td (vadd ds (digits cs (i - 1))) + 1 /\
    exists d, Copy.bufs st = Copy.Distinct src d /\
      length d = length dst0 /\
      fold_left (Copy.naive_step src_tr dst_tr ss ds src)
        (take (Z.to_nat i) (box cs)) (Some dst0) = Some d).
  match goal with
  | |- context [for_range 1 _ ?body ?st1] =>
      destruct (for_range_inv Inv body 1 (prod_shape cs) st1)
        as (st2 & Hrun & Hinv)
  end.
  - lia.
  - unfold Inv. cbn [Copy.scratch Copy.src_offset Copy.dst_offset Copy.bufs].
    change (1 - 1) with 0. rewrite Hz1, Hz2.
    split; [lia|]. do 3 (split; [done|]).
    exists d1. split; [done|]. split; [done|].
    change (Z.to_nat 1) with 1%nat.
    rewrite (take_S_r _ _ _ (box_lookup cs 0 ltac:(lia))).
    rewrite take_0. done.
  - intros i st Hi (_ & Hscr' & Hso & Hdo & d & Hb & Hlen & Hfold).
    unfold Copy.copy_body. rewrite Hscr'.
    rewrite (advance_spec ss ts cs ds td i) by (done || lia).
    cbn [mbind option_bind].
    pose proof (digits_in_box cs i Hpos) as Hini.
    destruct (copy_one_naive src_tr dst_tr ss ds (digits cs i) src d
                {| Copy.scratch := vadd ss (digits cs i) ++ vadd ds (digits cs i);
                   Copy.src_offset := dot ts (vadd ss (digits cs i));
                   Copy.dst_offset := dot td (vadd ds (digits cs i));
                   Copy.bufs := Copy.bufs st |})
      as (d' & Hone' & Hnaive' & Hlen');
      cbn [Copy.src_offset Copy.dst_offset Copy.bufs]; try done.
    { by apply Hrs. } { rewrite Hlen. by apply Hrd. }
    rewrite Hone'. eexists. split; [done|]. unfold Inv.
    cbn [Copy.scratch Copy.src_offset Copy.dst_offset Copy.bufs].
    replace (i + 1 - 1) with i by lia.
    split; [lia|]. do 3 (split; [done|]).
    exists d'. split; [done|]. split; [lia|].
    replace (Z.to_nat (i + 1)) with (S (Z.to_nat i)) by lia.
    rewrite (take_S_r _ _ _ (box_lookup cs (Z.to_nat i) ltac:(lia))).
    rewrite fold_left_app, Hfold. cbn [fold_left].
    rewrite Z2Nat.id by lia. done.
  - rewrite Hrun. cbn [mbind option_bind].
    destruct Hinv as (_ & _ & _ & _ & d & Hb & Hlen & Hfold).
    exists d. rewrite Hb. split; [done|]. split; [|done].
    unfold Copy.naive_copy. rewrite <- Hfold. f_equal.
    rewrite take_ge; [done|]. rewrite box_length. lia.
Qed.

(** The kernel returns, and returns what the per-element mapping over the
    box, taken in column-major order, returns. *)
Lemma kernel_refines_naive (src_shape dst_shape ss cs ds : list Index)
    (src dst0 : list T) (scratch0 : list Index) :
  cs <> [] -> fits ss cs src_shape -> fits ds cs dst_shape ->
  Z.of_nat (length src) = prod_shape src_shape ->
  Z.of_nat (length dst0) = prod_shape dst_shape ->
  length scratch0 = (2 * length cs)%nat ->
  exists d,
    Copy.cpu_copy_intersection (Z.of_nat (length cs))
      ss (col_major_strides src_shape) cs
      ds (col_major_strides dst_shape) src dst0 scratch0 = Some d /\
    Copy.naive_copy (of_shape src_shape) (of_shape dst_shape)
      ss cs ds src dst0 = Some d /\
    length d = length dst0.
Proof.
  intros Hne Hfs Hfd Hsrc Hdst Hscr.
  destruct (kernel_on_refines_naive src_shape dst_shape ss cs ds
              src dst0 scratch0) as (d & Hrun & Hnaive & Hlen); try done.
  exists d. unfold Copy.cpu_copy_intersection. by rewrite Hrun.
Qed.

(** *** Two buffers that share no memory *)

(** The kernel writes through [dst] only: a source buffer that shares no
    memory with the destination is not changed. *)
Lemma copy_one_distinct (src : list T) (st st' : Copy.state) :
  (exists d, Copy.bufs st = Copy.Distinct src d) ->
  Copy.copy_one st = Some st' ->
  exists d', Copy.bufs st' = Copy.Distinct src d'.
Proof.
  intros [d Hb]. unfold Copy.copy_one. rewrite Hb.
  cbn [Copy.read_src Copy.write_dst].
  destruct (zget src _) as [v|]; [|done]. cbn [mbind option_bind].
  destruct (zset d _ v) as [d'|]; [|done]. cbn [mbind option_bind].
  intros [= <-]. by exists d'.
Qed.

Lemma cpu_copy_intersection_on_distinct (ndim : Index)
    (ss ts cs ds td : list Index) (src d0 : list T) (scratch0 : list Index)
    (b : Copy.buffers) :
  Copy.cpu_copy_intersection_on ndim ss ts cs ds td
    (Copy.Distinct src d0) scratch0 = Some b ->
  exists d, b = Copy.Distinct src d.
Proof.
  unfold Copy.cpu_copy_intersection_on.
  destruct (for_range 0 ndim _ _) as [[nelems scr]|]; [|done].
  cbn [mbind option_bind].
  destruct (zget ss 0) as [so0|]; [|done]. cbn [mbind option_bind].
  destruct (zget ds 0) as [do0|]; [|done]. cbn [mbind option_bind].
  destruct (for_range 1 ndim _ _) as [[so do]|]; [|done].
  cbn [mbind option_bind].
  destruct (Copy.copy_one _) as [st1|] eqn:Hone; [|done].
  cbn [mbind option_bind].
  apply (copy_one_distinct src) in Hone; [|by exists d0].
  destruct (for_range 1 nelems _ st1) as [st2|] eqn:Hloop; [|done].
  cbn [mbind option_bind]. intros [= <-].
  unfold for_range in Hloop.
  apply (for_loop_preserves
           (fun st => exists d, Copy.bufs st = Copy.Distinct src d))
    in Hloop; [done|done|].
  intros i s0 s1 [d Hd]. unfold Copy.copy_body.
  destruct (Copy.advance _ _ _ _ _ _ _) as [[[scr' so'] do']|]; [|done].
  cbn [mbind option_bind]. apply copy_one_distinct. by exists d.
Qed.

(** On two buffers that share no memory the kernel is the kernel of the
    destination buffer, and the source buffer is left as it was. *)
Lemma cpu_copy_intersection_on_Distinct (ndim : Index)
    (ss ts cs ds td : list Index) (src d0 : list T) (scratch0 : list Index) :
  Copy.cpu_copy_intersection_on ndim ss ts cs ds td
    (Copy.Distinct src d0) scratch0
  = (d ← Copy.cpu_copy_intersection ndim ss ts cs ds td src d0 scratch0;
     Some (Copy.Distinct src d)).
Proof.
  unfold Copy.cpu_copy_intersection.
  destruct (Copy.cpu_copy_intersection_on ndim ss ts cs ds td
              (Copy.Distinct src d0) scratch0) as [b|] eqn:Hrun; [|done].
  by apply cpu_copy_intersection_on_distinct in Hrun as [d ->].
Qed.

Lemma run_copy_task_on_Distinct (cl : Starpu.codelet)
    (args : list Starpu.insert_arg) (src d0 : list T)
    (scratch0 : list Index) :
  Copy.run_copy_task_on cl args (Copy.Distinct src d0) scratch0
  = (d ← Copy.run_copy_task cl args src d0 scratch0;
     Some (Copy.Distinct src d)).
Proof.
  unfold Copy.run_copy_task.
  destruct (Copy.run_copy_task_on cl args (Copy.Distinct src d0) scratch0)
    as [b|] eqn:Hrun; [|done].
  cbn [mbind option_bind]. f_equal.
  unfold Copy.run_copy_task_on in Hrun.
  destruct cl; try done.
  - destruct args as [|[[|ndim [|? ?]]| | |] [|[ss| | |] [|[ts| | |]
      [|[cs| | |] [|[ds| | |] [|[td| | |] rest]]]]]]; try done.
    by apply cpu_copy_intersection_on_distinct in Hrun as [d ->].
  - destruct args as [|[[|ndim [|? ?]]| | |] [|[ss| | |] [|[ts| | |]
      [|[cs| | |] [|[ds| | |] [|[td| | |] rest]]]]]]; try done.
    by apply cpu_copy_intersection_on_distinct in Hrun as [d ->].
  - unfold Copy.cpu_copy_intersection_ndim0_on in Hrun.
    cbn [Copy.read_src Copy.write_dst] in Hrun.
    destruct (zget src 0) as [v|]; [|done]. cbn [mbind option_bind] in Hrun.
    destruct (zset d0 0 v) as [d'|]; [|done]. by injection Hrun as <-.
Qed.

End CopyKernelFacts.

(** *** The per-element mapping, point by point *)

Lemma zget_zset_eq {A : Type} (a a' : list A) (i : Index) (x : A) :
  zset a i x = Some a' -> zget a' i = Some x.
Proof.
  intros H. apply zset_Some in H as [Hi ->].
  unfold zget. destruct (Z.ltb_spec i 0); [lia|].
  apply list_lookup_insert_eq. lia.
Qed.

Lemma zget_zset_ne {A : Type} (a a' : list A) (i j : Index) (x : A) :
  zset a i x = Some a' -> j <> i -> zget a' j = zget a j.
Proof.
  intros H Hne. apply zset_Some in H as [Hi ->].
  unfold zget. destruct (Z.ltb_spec j 0); [done|].
  apply list_lookup_insert_ne. lia.
Qed.

Lemma zset_length {A : Type} (a a' : list A) (i : Index) (x : A) :
  zset a i x = Some a' -> length a' = length a.
Proof. intros H. apply zset_Some in H as [_ ->]. apply length_insert. Qed.

Lemma box_NoDup (cs : list Index) :
  Forall (fun n => 1 <= n) cs -> NoDup (box cs).
Proof.
  intros Hpos. unfold box. apply NoDup_fmap_2_strong; [|apply NoDup_seq].
  intros x y Hx Hy Heq.
  apply list_elem_of_In, in_seq in Hx. apply list_elem_of_In, in_seq in Hy.
  apply (f_equal (dot (col_major_strides cs))) in Heq.
  rewrite !dot_digits in Heq by (done || lia). lia.
Qed.

Lemma box_offsets_NoDup (ds cs sh : list Index) :
  fits ds cs sh ->
  NoDup (map (fun p => dot (col_major_strides sh) (vadd ds p)) (box cs)).
Proof.
  intros Hf. pose proof (fits_copy_shape_pos _ _ _ Hf) as Hpos.
  destruct (fits_lengths _ _ _ Hf) as [Hl _].
  apply NoDup_fmap_2_strong; [|by apply box_NoDup].
  intros p p' Hp Hp' Heq.
  apply list_elem_of_In, box_spec in Hp; [|done].
  apply list_elem_of_In, box_spec in Hp'; [|done].
  apply dot_col_major_inj in Heq; try by eapply fits_vadd_in_box.
  apply vadd_inj in Heq; [done| |]; rewrite Hl; by apply in_box_length.
Qed.

Section NaiveCopyFacts.

Context {T : Type}.

Lemma naive_fold_None (src_tr dst_tr : TileTraits.t) (ss ds : list Index)
    (src : list T) (ps : list (list Index)) :
  fold_left (Copy.naive_step src_tr dst_tr ss ds src) ps None = None.
Proof. induction ps; simpl; auto. Qed.

(** Writes at pairwise different destination offsets: every written
    element holds its source element, every other element is untouched. *)
Lemma naive_fold_spec (src_tr dst_tr : TileTraits.t) (ss ds : list Index)
    (src : list T) (ps : list (list Index)) :
  forall (dst0 d : list T),
  NoDup (map (fun p => index_to_linear dst_tr (vadd ds p)) ps) ->
  fold_left (Copy.naive_step src_tr dst_tr ss ds src) ps (Some dst0) = Some d ->
  (forall p, In p ps ->
     exists v, zget src (index_to_linear src_tr (vadd ss p)) = Some v /\
               zget d (index_to_linear dst_tr (vadd ds p)) = Some v) /\
  (forall q, ~ In q (map (fun p => index_to_linear dst_tr (vadd ds p)) ps) ->
     zget d q = zget dst0 q) /\
  length d = length dst0.
Proof.
  induction ps as [|p ps IH]; intros dst0 d Hnd Hfold.
  - simpl in Hfold. injection Hfold as <-. repeat split; [|done..].
    intros p [].
  - cbn [fold_left] in Hfold. cbn [map] in Hnd.
    apply NoDup_cons in Hnd as [Hnotin Hnd].
    rewrite list_elem_of_In in Hnotin.
    destruct (Copy.naive_step src_tr dst_tr ss ds src (Some dst0) p)
      as [d1|] eqn:Hstep; [|by rewrite naive_fold_None in Hfold].
    unfold Copy.naive_step in Hstep. cbn [mbind option_bind] in Hstep.
    destruct (zget src (index_to_linear src_tr (vadd ss p))) as [v|] eqn:Hv;
      [|done].
    cbn [mbind option_bind] in Hstep.
    destruct (IH d1 d Hnd Hfold) as (Hin & Hout & Hlen).
    split; [|split].
    + intros p' [<-|Hp']; [|by apply Hin].
      exists v. split; [done|]. rewrite (Hout _ Hnotin).
      by eapply zget_zset_eq.
    + intros q Hq. cbn [map In] in Hq.
      rewrite Hout by tauto. eapply zget_zset_ne; [done|]. intros ->. tauto.
    + rewrite Hlen. by eapply zset_length.
Qed.

End NaiveCopyFacts.

(** *** The copy kernel: summary and claims *)

Section CopyKernelClaims.

Context {T : Type}.

(** What one run of the kernel does, in the form shared by the claims
    below: it returns the result of the per-element mapping, which holds the
    source element at every destination offset of the box and the previous
    destination element everywhere else. *)
Lemma kernel_spec (src_shape dst_shape ss cs ds : list Index)
    (src dst0 : list T) (scratch0 : list Index) :
  cs <> [] -> fits ss cs src_shape -> fits ds cs dst_shape ->
  Z.of_nat (length src) = prod_shape src_shape ->
  Z.of_nat (length dst0) = prod_shape dst_shape ->
  length scratch0 = (2 * length cs)%nat ->
  exists d,
    Copy.cpu_copy_intersection (Z.of_nat (length cs))
      ss (col_major_strides src_shape) cs
      ds (col_major_strides dst_shape) src dst0 scratch0 = Some d /\
    Copy.naive_copy (of_shape src_shape) (of_shape dst_shape)
      ss cs ds src dst0 = Some d /\
    length d = length dst0 /\
    (forall p, In p (box cs) ->
       exists v,
         zget src (index_to_linear (of_shape src_shape) (vadd ss p)) = Some v /\
         zget d (index_to_linear (of_shape dst_shape) (vadd ds p)) = Some v) /\
    (forall q,
       ~ In q (map (fun p => index_to_linear (of_shape dst_shape) (vadd ds p))
                   (box cs)) ->
       zget d q = zget dst0 q).
Proof.
  intros Hne Hfs Hfd Hsrc Hdst Hscr.
  destruct (kernel_refines_naive src_shape dst_shape ss cs ds src dst0 scratch0)
    as (d & Hk & Hn & Hlen); try done.
  exists d. split; [done|]. split; [done|]. split; [done|].
  pose proof (naive_fold_spec (of_shape src_shape) (of_shape dst_shape)
                ss ds src (box cs) dst0 d) as Hspec.
  destruct Hspec as (Hin & Hout & _); [|exact Hn|by split].
  by apply box_offsets_NoDup.
Qed.

(** C1. For [ndim >= 1], column-major strides, a copy shape with entries at
    least one and start vectors such that [start + copy_shape] stays within
    each tile's shape, [cpu_copy_intersection] returns exactly what the
    per-element mapping
    [dst[index_to_linear(dst_start+p)] = src[index_to_linear(src_start+p)]],
    applied to the multi-indices [p] of the box [[0, copy_shape)] in
    column-major order, returns; the list [box copy_shape] holds exactly the
    multi-indices of the box; every destination element of the box holds its
    source element and every destination element outside is unchanged. *)
Theorem cpu_copy_intersection_equiv_naive
    (src_shape dst_shape src_start copy_shape dst_start : list Index)
    (src dst : list T) (scratch : list Index) :
  copy_shape <> [] ->
  fits src_start copy_shape src_shape ->
  fits dst_start copy_shape dst_shape ->
  Z.of_nat (length src) = prod_shape src_shape ->
  Z.of_nat (length dst) = prod_shape dst_shape ->
  length scratch = (2 * length copy_shape)%nat ->
  exists dst',
    Copy.cpu_copy_intersection (Z.of_nat (length copy_shape))
      src_start (stride (of_shape src_shape)) copy_shape
      dst_start (stride (of_shape dst_shape)) src dst scratch = Some dst' /\
    Copy.naive_copy (of_shape src_shape) (of_shape dst_shape)
      src_start copy_shape dst_start src dst = Some dst' /\
    (forall p, In p (box copy_shape) <-> in_box copy_shape p) /\
    length dst' = length dst /\
    (forall p, in_box copy_shape p ->
       exists v,
         zget src (index_to_linear (of_shape src_shape) (vadd src_start p))
           = Some v /\
         zget dst' (index_to_linear (of_shape dst_shape) (vadd dst_start p))
           = Some v) /\
    (forall q,
       (forall p, in_box copy_shape p ->
          q <> index_to_linear (of_shape dst_shape) (vadd dst_start p)) ->
       zget dst' q = zget dst q).
Proof.
  intros Hne Hfs Hfd Hsrc Hdst Hscr.
  pose proof (fits_copy_shape_pos _ _ _ Hfs) as Hpos.
  destruct (kernel_spec src_shape dst_shape src_start copy_shape dst_start
              src dst scratch) as (d & Hk & Hn & Hlen & Hin & Hout); try done.
  exists d. repeat split; try done.
  - by apply box_spec.
  - by apply box_spec.
  - intros p Hp. apply Hin. by apply box_spec.
  - intros q Hq. apply Hout. rewrite in_map_iff. intros (p & <- & Hp).
    apply (Hq p); [|done]. by apply box_spec.
Qed.

(** C7, as amended.  When the source and the destination are two buffers
    that share no memory, copying a box that lies within the source and
    within the destination, and then copying the same box again with the
    same arguments, leaves the destination as it was after the first copy;
    the source is never changed. *)
Theorem cpu_copy_intersection_idempotent
    (src_shape dst_shape src_start copy_shape dst_start : list Index)
    (src dst : list T) (scratch scratch' : list Index) :
  copy_shape <> [] ->
  fits src_start copy_shape src_shape ->
  fits dst_start copy_shape dst_shape ->
  Z.of_nat (length src) = prod_shape src_shape ->
  Z.of_nat (length dst) = prod_shape dst_shape ->
  length scratch = (2 * length copy_shape)%nat ->
  length scratch' = (2 * length copy_shape)%nat ->
  exists dst1,
    Copy.cpu_copy_intersection_on (Z.of_nat (length copy_shape))
      src_start (stride (of_shape src_shape)) copy_shape
      dst_start (stride (of_shape dst_shape)) (Copy.Distinct src dst) scratch
    = Some (Copy.Distinct src dst1) /\
    Copy.cpu_copy_intersection_on (Z.of_nat (length copy_shape))
      src_start (stride (of_shape src_shape)) copy_shape
      dst_start (stride (of_shape dst_shape)) (Copy.Distinct src dst1) scratch'
    = Some (Copy.Distinct src dst1).
Proof.
  intros Hne Hfs Hfd Hsrc Hdst Hscr Hscr'.
  destruct (kernel_spec src_shape dst_shape src_start copy_shape dst_start
              src dst scratch) as (d1 & Hk1 & _ & Hlen1 & Hin1 & _); try done.
  destruct (kernel_spec src_shape dst_shape src_start copy_shape dst_start
              src d1 scratch') as (d2 & Hk2 & _ & Hlen2 & Hin2 & Hout2);
    try done; [by rewrite Hlen1|].
  exists d1. cbn [stride of_shape].
  rewrite !cpu_copy_intersection_on_Distinct, Hk1, Hk2.
  cbn [mbind option_bind]. split; [done|]. do 2 f_equal.
  apply list_eq. intros k. rewrite <- !zget_nat.
  destruct (in_dec Z.eq_dec (Z.of_nat k)
              (map (fun p => index_to_linear (of_shape dst_shape)
                                             (vadd dst_start p))
                   (box copy_shape))) as [Hk|Hk].
  - apply in_map_iff in Hk as (p & <- & Hp).
    destruct (Hin1 p Hp) as (v1 & Hs1 & Hd1).
    destruct (Hin2 p Hp) as (v2 & Hs2 & Hd2). congruence.
  - by apply Hout2.
Qed.

End CopyKernelClaims.

Lemma cpu_copy_intersection_equiv_naive_witness :
  exists dst',
    Copy.cpu_copy_intersection 2 [1; 2] [1; 4] [2; 3] [1; 0] [1; 3]
      (map Z.of_nat (seq 0 20)) (repeat (-1) 12) [7; 7; 7; 7] = Some dst' /\
    dst' = [-1; 9; 10; -1; 13; 14; -1; 17; 18; -1; -1; -1].
Proof.
  destruct (cpu_copy_intersection_equiv_naive (T := Z)
              [4; 5] [3; 4] [1; 2] [2; 3] [1; 0]
              (map Z.of_nat (seq 0 20)) (repeat (-1) 12) [7; 7; 7; 7])
    as (d & Hk & _); [done|simpl; lia|simpl; lia|reflexivity..|].
  exists d. split; [exact Hk|].
  vm_compute in Hk. by injection Hk as <-.
Defined.

Lemma cpu_copy_intersection_idempotent_witness :
  exists dst1,
    Copy.cpu_copy_intersection_on 2 [1; 2] [1; 4] [2; 3] [1; 0] [1; 3]
      (Copy.Distinct (map Z.of_nat (seq 0 20)) (repeat (-1) 12)) [7; 7; 7; 7]
    = Some (Copy.Distinct (map Z.of_nat (seq 0 20)) dst1) /\
    Copy.cpu_copy_intersection_on 2 [1; 2] [1; 4] [2; 3] [1; 0] [1; 3]
      (Copy.Distinct (map Z.of_nat (seq 0 20)) dst1) [0; 0; 0; 0]
    = Some (Copy.Distinct (map Z.of_nat (seq 0 20)) dst1).
Proof.
  apply (cpu_copy_intersection_idempotent (T := Z)
           [4; 5] [3; 4] [1; 2] [2; 3] [1; 0]
           (map Z.of_nat (seq 0 20)) (repeat (-1) 12) [7; 7; 7; 7] [0; 0; 0; 0]);
    [done|simpl; lia|simpl; lia|reflexivity..].
Defined.

(** C7 as stated fails when one tile is the source and the destination:
    the box of extent 3 at offset 1 of the buffer [[10; 11; 12; 13]], which
    lies within the tile of shape [(4)], is copied to offset 0 of the same
    buffer, and the second copy reads what the first one wrote. *)
Lemma cpu_copy_intersection_shared_not_idempotent :
  fits [1] [3] [4] /\ fits [0] [3] [4] /\
  Copy.cpu_copy_intersection_on 1 [1] (stride (of_shape [4])) [3]
    [0] (stride (of_shape [4])) (Copy.Shared [10; 11; 12; 13]) [0; 0]
  = Some (Copy.Shared [11; 12; 13; 13]) /\
  Copy.cpu_copy_intersection_on 1 [1] (stride (of_shape [4])) [3]
    [0] (stride (of_shape [4])) (Copy.Shared [11; 12; 13; 13]) [0; 0]
  = Some (Copy.Shared [12; 13; 13; 13]) /\
  [12; 13; 13; 13] <> [11; 12; 13; 13].
Proof.
  split; [simpl; lia|]. split; [simpl; lia|].
  split; [reflexivity|]. split; [reflexivity|]. discriminate.
Qed.

(** *** [copy_intersection_work]: the loop over the axes *)

Lemma for_axes_inv {S : Type} (Inv : Index -> S -> Prop)
    (body : Index -> S -> Copy.step S) (n : nat) (lo : Index) (s : S) :
  Inv lo s ->
  (forall i s0, lo <= i < lo + Z.of_nat n -> Inv i s0 ->
     exists s1, body i s0 = Copy.Continue s1 /\ Inv (i + 1) s1) ->
  exists s', Copy.for_axes n lo body s = Copy.Continue s' /\
             Inv (lo + Z.of_nat n) s'.
Proof.
  revert lo s. induction n as [|n IH]; intros lo s H0 Hstep.
  - exists s. split; [done|]. by replace (lo + Z.of_nat 0) with lo by lia.
  - destruct (Hstep lo s) as (s1 & Hb & H1); [lia|done|].
    simpl. rewrite Hb.
    destruct (IH (lo + 1) s1 H1) as (s' & Hl & H'').
    + intros i s0 Hi. apply Hstep. lia.
    + exists s'. split; [done|].
      by replace (lo + Z.of_nat (Datatypes.S n)) with (lo + 1 + Z.of_nat n) by lia.
Qed.

(** A loop one of whose rounds returns, and whose earlier rounds return or
    continue, returns. *)
Lemma for_axes_return {S : Type} (Inv : Index -> S -> Prop)
    (body : Index -> S -> Copy.step S) (n : nat) (lo : Index) (s : S)
    (j : Index) :
  Inv lo s ->
  lo <= j < lo + Z.of_nat n ->
  (forall s0, Inv j s0 -> body j s0 = Copy.Return) ->
  (forall i s0, lo <= i < j -> Inv i s0 ->
     body i s0 = Copy.Return \/
     exists s1, body i s0 = Copy.Continue s1 /\ Inv (i + 1) s1) ->
  Copy.for_axes n lo body s = Copy.Return.
Proof.
  revert lo s. induction n as [|n IH]; intros lo s H0 Hj Hret Hstep.
  - lia.
  - simpl. destruct (Z.eq_dec lo j) as [->|Hne].
    + by rewrite Hret.
    + destruct (Hstep lo s) as [Hb|(s1 & Hb & H1)]; [lia|done|by rewrite Hb|].
      rewrite Hb. apply IH; try done; [lia|].
      intros i s0 Hi. apply Hstep. lia.
Qed.

Lemma axis_inputs_exist (src : Tile.t) (src_offset : list Index)
    (dst : Tile.t) (dst_offset : list Index) (n k : nat) :
  length src_offset = n -> length (Tile.shape src) = n ->
  length dst_offset = n -> length (Tile.shape dst) = n ->
  (k < n)%nat ->
  exists so ssh do dsh, axis_inputs src src_offset dst dst_offset k so ssh do dsh.
Proof.
  intros H1 H2 H3 H4 Hk. unfold axis_inputs.
  destruct (lookup_lt_is_Some_2 src_offset k) as [so Hso]; [lia|].
  destruct (lookup_lt_is_Some_2 (Tile.shape src) k) as [ssh Hssh]; [lia|].
  destruct (lookup_lt_is_Some_2 dst_offset k) as [do Hdo]; [lia|].
  destruct (lookup_lt_is_Some_2 (Tile.shape dst) k) as [dsh Hdsh]; [lia|].
  by exists so, ssh, do, dsh.
Qed.

(** *** 64-bit words *)

Lemma wrap64_id (z : Z) : int64 z -> wrap64 z = z.
Proof. unfold int64, wrap64. intros H. rewrite Z.mod_small; lia. Qed.

Lemma wrap64_int64 (z : Z) : int64 (wrap64 z).
Proof.
  unfold int64, wrap64.
  pose proof (Z.mod_pos_bound (z + 2 ^ 63) (2 ^ 64) ltac:(lia)). lia.
Qed.

Lemma zget64_nat (v : list Index) (k : nat) :
  zget64 v (Z.of_nat k) = wrap64 <$> v !! k.
Proof. unfold zget64. by rewrite zget_nat. Qed.

Lemma zget64_in_range (v : list Index) (k : nat) (x : Index) :
  v !! k = Some x -> int64 x -> zget64 v (Z.of_nat k) = Some x.
Proof. intros H Hx. rewrite zget64_nat, H. cbn. by rewrite wrap64_id. Qed.

(** *** One round of the loop over the axes *)

(** On an axis where nothing overflows the round computes the intersection
    of the two intervals: it returns when one interval ends before the
    other begins, and stores [max(0, do-so)], [max(0, so-do)] and
    [min(so+ssh, do+dsh) - max(so, do)] otherwise. *)
Lemma axis_body_in_range (src : Tile.t) (src_offset : list Index)
    (dst : Tile.t) (dst_offset : list Index) (i : nat) (st : Copy.axes)
    (so ssh do dsh : Index) :
  axis_inputs src src_offset dst dst_offset i so ssh do dsh ->
  axis_in_range so ssh do dsh ->
  Copy.axis_body src src_offset dst dst_offset (Z.of_nat i) st
  = if (so + ssh <=? do) || (do + dsh <=? so) then Copy.Return else
    let cs := Z.min (so + ssh) (do + dsh) - Z.max so do in
    match zset (Copy.dst_start st) (Z.of_nat i) (Z.max 0 (so - do)),
          zset (Copy.src_start st) (Z.of_nat i) (Z.max 0 (do - so)),
          zset (Copy.copy_shape st) (Z.of_nat i) cs with
    | Some dst_start', Some src_start', Some copy_shape' =>
        Copy.Continue {| Copy.src_start := src_start';
                         Copy.dst_start := dst_start';
                         Copy.copy_shape := copy_shape';
                         Copy.full_overwrite :=
                           if negb (cs =? dsh) then false
                           else Copy.full_overwrite st |}
    | _, _, _ => Copy.Fault
    end.
Proof.
  intros (Hso & Hssh & Hdo & Hdsh) (Rso & Rssh & Rdo & Rdsh & Rs & Rd).
  unfold Copy.axis_body.
  rewrite (zget64_in_range _ _ _ Hso Rso), (zget64_in_range _ _ _ Hssh Rssh),
    (zget64_in_range _ _ _ Hdo Rdo), (zget64_in_range _ _ _ Hdsh Rdsh).
  unfold add64. rewrite (wrap64_id (so + ssh)), (wrap64_id (do + dsh)) by done.
  destruct (Z.leb_spec (so + ssh) do) as [|Hg1]; [done|].
  destruct (Z.leb_spec (do + dsh) so) as [|Hg2]; [done|].
  cbn [orb]. unfold sub64, int64 in *.
  destruct (Z.ltb_spec so do).
  - rewrite (wrap64_id (do - so)) by (unfold int64; lia).
    rewrite wrap64_id by (unfold int64; lia).
    replace (Z.max 0 (so - do)) with 0 by lia.
    replace (Z.max 0 (do - so)) with (do - so) by lia.
    replace (Z.min (so + ssh) (do + dsh) - Z.max so do)
      with (Z.min (ssh - (do - so)) dsh) by lia.
    done.
  - rewrite (wrap64_id (so - do)) by (unfold int64; lia).
    rewrite wrap64_id by (unfold int64; lia).
    replace (Z.max 0 (so - do)) with (so - do) by lia.
    replace (Z.max 0 (do - so)) with 0 by lia.
    replace (Z.min (so + ssh) (do + dsh) - Z.max so do)
      with (Z.min (dsh - (so - do)) ssh) by lia.
    done.
Qed.

(** One round on an axis where the tiles meet. *)
Lemma axis_body_continue (src : Tile.t) (src_offset : list Index)
    (dst : Tile.t) (dst_offset : list Index) (n i : nat) (st : Copy.axes)
    (so ssh do dsh : Index) :
  axis_inputs src src_offset dst dst_offset i so ssh do dsh ->
  axis_in_range so ssh do dsh ->
  (i < n)%nat ->
  do < so + ssh -> so < do + dsh ->
  axes_inv src src_offset dst dst_offset n i st ->
  exists st',
    Copy.axis_body src src_offset dst dst_offset (Z.of_nat i) st
      = Copy.Continue st' /\
    axes_inv src src_offset dst dst_offset n (S i) st'.
Proof.
  intros Hin Hrange Hi Hg1 Hg2 (Hl1 & Hl2 & Hl3 & Hval & Hfo).
  rewrite (axis_body_in_range _ _ _ _ _ _ so ssh do dsh) by done.
  destruct Hin as (Hso & Hssh & Hdo & Hdsh).
  destruct (Z.leb_spec (so + ssh) do); [lia|].
  destruct (Z.leb_spec (do + dsh) so); [lia|].
  cbn [orb]. cbv zeta.
  rewrite !zset_nat by lia.
  eexists. split; [done|]. unfold axes_inv. cbn.
  rewrite !length_insert. repeat split; try done.
  - destruct (decide (k = i)) as [->|Hk].
    + destruct H2 as (E1 & E2 & E3 & E4).
      assert (so0 = so /\ ssh0 = ssh /\ do0 = do /\ dsh0 = dsh)
        as (-> & -> & -> & ->) by (repeat split; congruence).
      apply list_lookup_insert_eq; lia.
    + rewrite list_lookup_insert_ne by done. eapply Hval; [lia|done].
  - destruct (decide (k = i)) as [->|Hk].
    + destruct H2 as (E1 & E2 & E3 & E4).
      assert (so0 = so /\ ssh0 = ssh /\ do0 = do /\ dsh0 = dsh)
        as (-> & -> & -> & ->) by (repeat split; congruence).
      apply list_lookup_insert_eq; lia.
    + rewrite list_lookup_insert_ne by done. eapply Hval; [lia|done].
  - destruct (decide (k = i)) as [->|Hk].
    + destruct H2 as (E1 & E2 & E3 & E4).
      assert (so0 = so /\ ssh0 = ssh /\ do0 = do /\ dsh0 = dsh)
        as (-> & -> & -> & ->) by (repeat split; congruence).
      apply list_lookup_insert_eq; lia.
    + rewrite list_lookup_insert_ne by done. eapply Hval; [lia|done].
  - intros Hf k Hk.
    destruct (Z.eqb_spec (Z.min (so + ssh) (do + dsh) - Z.max so do) dsh)
      as [Heq|Hne]; [|done]. cbn in Hf.
    destruct (decide (k = i)) as [->|Hki].
    + rewrite list_lookup_insert_eq by lia. by rewrite Heq, Hdsh.
    + rewrite list_lookup_insert_ne by done. apply Hfo; [done|lia].
  - intros Hall.
    pose proof (Hall i ltac:(lia)) as Hi'.
    rewrite list_lookup_insert_eq, Hdsh in Hi' by lia.
    injection Hi' as Hi'. rewrite Hi', Z.eqb_refl. cbn.
    apply Hfo. intros k Hk. specialize (Hall k ltac:(lia)).
    by rewrite list_lookup_insert_ne in Hall by lia.
Qed.

Lemma meet_iff (a la b lb : Z) :
  meet a la b lb <-> 0 < la /\ 0 < lb /\ b < a + la /\ a < b + lb.
Proof.
  unfold meet, interval. split.
  - intros (x & H1 & H2). lia.
  - intros (H1 & H2 & H3 & H4). exists (Z.max a b). lia.
Qed.

Lemma disjoint_nonempty (a la b lb : Z) :
  0 < la -> 0 < lb -> disjoint a la b lb -> a + la <= b \/ b + lb <= a.
Proof.
  intros Ha Hb Hd.
  destruct (Z_le_gt_dec (a + la) b) as [|H1]; [by left|].
  destruct (Z_le_gt_dec (b + lb) a) as [|H2]; [by right|].
  exfalso. apply (Hd (Z.max a b)). unfold interval. lia.
Qed.

(** A round that continues has read its four inputs and has kept the sizes
    of the three vectors, whatever the inputs are. *)
Lemma axis_body_Continue (src : Tile.t) (src_offset : list Index)
    (dst : Tile.t) (dst_offset : list Index) (i : nat) (st st' : Copy.axes) :
  Copy.axis_body src src_offset dst dst_offset (Z.of_nat i) st
    = Copy.Continue st' ->
  (exists so ssh do dsh,
     axis_inputs src src_offset dst dst_offset i so ssh do dsh) /\
  length (Copy.src_start st') = length (Copy.src_start st) /\
  length (Copy.dst_start st') = length (Copy.dst_start st) /\
  length (Copy.copy_shape st') = length (Copy.copy_shape st).
Proof.
  unfold Copy.axis_body, axis_inputs. rewrite !zget64_nat.
  destruct (src_offset !! i) as [so|]; [|done].
  destruct (Tile.shape src !! i) as [ssh|]; [|done].
  destruct (dst_offset !! i) as [do|]; [|done]. cbn [fmap option_fmap option_map].
  destruct (_ <=? _); [done|].
  destruct (Tile.shape dst !! i) as [dsh|]; [|done].
  cbn [fmap option_fmap option_map].
  destruct (_ <=? _); [done|].
  destruct (_ <? _);
    (destruct (zset (Copy.dst_start st) _ _) as [d'|] eqn:E1; [|done]);
    (destruct (zset (Copy.src_start st) _ _) as [s'|] eqn:E2; [|done]);
    (destruct (zset (Copy.copy_shape st) _ _) as [c'|] eqn:E3; [|done]);
    intros [= <-]; cbn;
    apply zset_length in E1, E2, E3; (split; [by eexists _, _, _, _|done]).
Qed.

(** A round whose four inputs can be read and whose three vectors have an
    entry for the axis returns or continues, whatever the inputs are. *)
Lemma axis_body_total (src : Tile.t) (src_offset : list Index)
    (dst : Tile.t) (dst_offset : list Index) (n i : nat) (st : Copy.axes)
    (so ssh do dsh : Index) :
  axis_inputs src src_offset dst dst_offset i so ssh do dsh ->
  (i < n)%nat ->
  length (Copy.src_start st) = n /\ length (Copy.dst_start st) = n /\
  length (Copy.copy_shape st) = n ->
  Copy.axis_body src src_offset dst dst_offset (Z.of_nat i) st = Copy.Return \/
  exists st',
    Copy.axis_body src src_offset dst dst_offset (Z.of_nat i) st
      = Copy.Continue st' /\
    length (Copy.src_start st') = n /\ length (Copy.dst_start st') = n /\
    length (Copy.copy_shape st') = n.
Proof.
  intros (Hso & Hssh & Hdo & Hdsh) Hi (Hl1 & Hl2 & Hl3).
  unfold Copy.axis_body. rewrite !zget64_nat, Hso, Hssh, Hdo, Hdsh.
  cbn [fmap option_fmap option_map].
  destruct (_ <=? _); [by left|].
  destruct (_ <=? _); [by left|].
  right. destruct (_ <? _); rewrite !zset_nat by lia;
    (eexists; split; [done|]); cbn; by rewrite !length_insert.
Qed.

(** One round on an axis where one interval ends before the other
    begins. *)
Lemma axis_body_return (src : Tile.t) (src_offset : list Index)
    (dst : Tile.t) (dst_offset : list Index) (i : nat) (st : Copy.axes)
    (so ssh do dsh : Index) :
  axis_inputs src src_offset dst dst_offset i so ssh do dsh ->
  axis_in_range so ssh do dsh ->
  so + ssh <= do \/ do + dsh <= so ->
  Copy.axis_body src src_offset dst dst_offset (Z.of_nat i) st = Copy.Return.
Proof.
  intros Hin Hrange Hg.
  rewrite (axis_body_in_range _ _ _ _ _ _ so ssh do dsh) by done.
  destruct (Z.leb_spec (so + ssh) do); [done|].
  destruct (Z.leb_spec (do + dsh) so); [done|lia].
Qed.

(** Tiles that pass the test on every axis: the loop runs to its end. *)
Lemma intersect_continue (src : Tile.t) (src_offset : list Index)
    (dst : Tile.t) (dst_offset : list Index) :
  no_overflow src src_offset dst dst_offset ->
  pass_test src src_offset dst dst_offset ->
  exists st,
    Copy.intersect src src_offset dst dst_offset = Copy.Continue st /\
    axes_inv src src_offset dst dst_offset
      (length (Tile.shape src)) (length (Tile.shape src)) st.
Proof.
  intros Hno Hpass. unfold Copy.intersect.
  unfold Tile.ndim, TileTraits.ndim. fold (Tile.shape src).
  rewrite Nat2Z.id. unfold pass_test in Hpass.
  set (n := length (Tile.shape src)) in *.
  pose (Inv := fun (i : Index) (st : Copy.axes) =>
    axes_inv src src_offset dst dst_offset n (Z.to_nat i) st).
  match goal with
  | |- context [Copy.for_axes n 0 ?body ?st0] =>
      destruct (for_axes_inv Inv body n 0 st0) as (st & Hrun & Hinv)
  end.
  - unfold Inv, axes_inv. cbn. rewrite !repeat_length.
    repeat split; try done; intros; lia.
  - intros i st Hi Hinv. unfold Inv in *.
    assert (exists k, i = Z.of_nat k) as [k ->] by (exists (Z.to_nat i); lia).
    rewrite Nat2Z.id in Hinv.
    replace (Z.to_nat (Z.of_nat k + 1)) with (S k) by lia.
    destruct (Hpass k ltac:(lia)) as (so & ssh & do & dsh & Hin & Hg1 & Hg2).
    eapply axis_body_continue; try done; [by eapply Hno|lia].
  - exists st. split; [done|]. unfold Inv in Hinv.
    by rewrite Z.add_0_l, Nat2Z.id in Hinv.
Qed.

Lemma axis_body_Continue_inv (src : Tile.t) (src_offset : list Index)
    (dst : Tile.t) (dst_offset : list Index) (i : nat) (st st' : Copy.axes) :
  no_overflow src src_offset dst dst_offset ->
  Copy.axis_body src src_offset dst dst_offset (Z.of_nat i) st
    = Copy.Continue st' ->
  exists so ssh do dsh,
    axis_inputs src src_offset dst dst_offset i so ssh do dsh /\
    do < so + ssh /\ so < do + dsh.
Proof.
  intros Hno Hrun.
  destruct (axis_body_Continue _ _ _ _ _ _ _ Hrun)
    as ((so & ssh & do & dsh & Hin) & _).
  exists so, ssh, do, dsh. split; [done|].
  rewrite (axis_body_in_range _ _ _ _ _ _ so ssh do dsh) in Hrun;
    [|done|by eapply Hno].
  destruct (Z.leb_spec (so + ssh) do); [done|].
  destruct (Z.leb_spec (do + dsh) so); [done|lia].
Qed.

Lemma for_axes_Continue_rounds {S : Type} (body : Index -> S -> Copy.step S)
    (n : nat) (lo : Index) (s s' : S) :
  Copy.for_axes n lo body s = Copy.Continue s' ->
  forall k, (k < n)%nat ->
    exists s0 s1, body (lo + Z.of_nat k) s0 = Copy.Continue s1.
Proof.
  revert lo s. induction n as [|n IH]; intros lo s Hrun k Hk; [lia|].
  simpl in Hrun. destruct (body lo s) as [s1| |] eqn:Hb; try done.
  destruct k as [|k].
  - exists s, s1. by rewrite Z.add_0_r.
  - destruct (IH _ _ Hrun k ltac:(lia)) as (s0 & s2 & Hk').
    exists s0, s2. rewrite <- Hk'. f_equal. lia.
Qed.

(** A property that every continuing round keeps holds when the loop has
    run to its end. *)
Lemma for_axes_Continue_preserves {S : Type} (P : S -> Prop)
    (body : Index -> S -> Copy.step S) (n : nat) (lo : Index) (s s' : S) :
  P s ->
  (forall i s0 s1, P s0 -> body i s0 = Copy.Continue s1 -> P s1) ->
  Copy.for_axes n lo body s = Copy.Continue s' -> P s'.
Proof.
  intros Hs Hpres. revert lo s Hs.
  induction n as [|n IH]; intros lo s Hs Hrun; simpl in Hrun.
  - by injection Hrun as <-.
  - destruct (body lo s) as [s1| |] eqn:Hb; try done.
    apply (IH (lo + 1) s1); [by eapply Hpres|done].
Qed.

(** Two loops whose rounds return together or continue together, in
    related states, end together. *)
Lemma for_axes_sim {S : Type} (R : Index -> S -> S -> Prop)
    (body body' : Index -> S -> Copy.step S) (n : nat) (lo : Index)
    (s s' : S) :
  R lo s s' ->
  (forall i a a', lo <= i < lo + Z.of_nat n -> R i a a' ->
     (body i a = Copy.Return /\ body' i a' = Copy.Return) \/
     exists b b', body i a = Copy.Continue b /\
                  body' i a' = Copy.Continue b' /\ R (i + 1) b b') ->
  (Copy.for_axes n lo body s = Copy.Return /\
   Copy.for_axes n lo body' s' = Copy.Return) \/
  exists t t', Copy.for_axes n lo body s = Copy.Continue t /\
               Copy.for_axes n lo body' s' = Copy.Continue t' /\
               R (lo + Z.of_nat n) t t'.
Proof.
  revert lo s s'. induction n as [|n IH]; intros lo s s' H0 Hstep.
  - right. exists s, s'. split; [done|]. split; [done|].
    by replace (lo + Z.of_nat 0) with lo by lia.
  - simpl. destruct (Hstep lo s s') as [[Hb Hb']|(b & b' & Hb & Hb' & H1)];
      [lia|done| |].
    + left. by rewrite Hb, Hb'.
    + rewrite Hb, Hb'.
      destruct (IH (lo + 1) b b' H1) as [Hret|(t & t' & Ht & Ht' & HR)].
      * intros i a a' Hi. apply Hstep. lia.
      * by left.
      * right. exists t, t'. split; [done|]. split; [done|].
        by replace (lo + Z.of_nat (Datatypes.S n))
          with (lo + 1 + Z.of_nat n) by lia.
Qed.

(** A loop that ran to its end passed the test on every axis. *)
Lemma intersect_Continue_pass (src : Tile.t) (src_offset : list Index)
    (dst : Tile.t) (dst_offset : list Index) (st : Copy.axes) :
  no_overflow src src_offset dst dst_offset ->
  Copy.intersect src src_offset dst dst_offset = Copy.Continue st ->
  pass_test src src_offset dst dst_offset.
Proof.
  unfold Copy.intersect, Tile.ndim, TileTraits.ndim. fold (Tile.shape src).
  rewrite Nat2Z.id. intros Hno Hrun k Hk.
  destruct (for_axes_Continue_rounds _ _ _ _ _ Hrun k Hk) as (s0 & s1 & Hb).
  rewrite Z.add_0_l in Hb. by eapply axis_body_Continue_inv.
Qed.

Lemma meet_pass_test (src : Tile.t) (src_offset : list Index)
    (dst : Tile.t) (dst_offset : list Index) :
  same_dims src src_offset dst dst_offset ->
  (forall k so ssh do dsh,
     axis_inputs src src_offset dst dst_offset k so ssh do dsh ->
     meet so ssh do dsh) ->
  pass_test src src_offset dst dst_offset.
Proof.
  intros (Hd1 & Hd2 & Hd3) Hmeet k Hk.
  destruct (axis_inputs_exist src src_offset dst dst_offset
              (length (Tile.shape src)) k)
    as (so & ssh & do & dsh & Hin); try done.
  exists so, ssh, do, dsh. split; [done|].
  apply Hmeet, meet_iff in Hin. lia.
Qed.

(** Tiles apart on some axis where nothing overflows: the loop returns
    from the function. *)
Lemma intersect_return (src : Tile.t) (src_offset : list Index)
    (dst : Tile.t) (dst_offset : list Index) (k : nat) (so ssh do dsh : Index) :
  same_dims src src_offset dst dst_offset ->
  axis_inputs src src_offset dst dst_offset k so ssh do dsh ->
  axis_in_range so ssh do dsh ->
  so + ssh <= do \/ do + dsh <= so ->
  Copy.intersect src src_offset dst dst_offset = Copy.Return.
Proof.
  intros (Hd1 & Hd2 & Hd3) Hin Hrange Hg. unfold Copy.intersect.
  unfold Tile.ndim, TileTraits.ndim. fold (Tile.shape src).
  rewrite Nat2Z.id. set (n := length (Tile.shape src)) in *.
  assert (k < n)%nat as Hk.
  { destruct Hin as (H1 & _). apply lookup_lt_Some in H1. lia. }
  pose (Inv := fun (i : Index) (st : Copy.axes) =>
    length (Copy.src_start st) = n /\ length (Copy.dst_start st) = n /\
    length (Copy.copy_shape st) = n).
  apply (for_axes_return Inv _ n 0 _ (Z.of_nat k)).
  - unfold Inv. cbn. by rewrite !repeat_length.
  - lia.
  - intros st Hst.
    by apply (axis_body_return src src_offset dst dst_offset k st so ssh do dsh).
  - intros i st Hi Hst.
    assert (exists j, i = Z.of_nat j) as [j ->] by (exists (Z.to_nat i); lia).
    destruct (axis_inputs_exist src src_offset dst dst_offset n j)
      as (so' & ssh' & do' & dsh' & Hin'); try done; [lia|].
    apply (axis_body_total src src_offset dst dst_offset n j st
             so' ssh' do' dsh' Hin' ltac:(lia) Hst).
Qed.

(** *** [copy_intersection_work]: claims *)

Lemma words_full (ndim : Index) (v : list Index) :
  ndim = Z.of_nat (length v) -> Copy.words ndim v = Some v.
Proof.
  intros ->. unfold Copy.words.
  destruct (Z.leb_spec (Z.of_nat (length v)) (Z.of_nat (length v))); [|lia].
  by rewrite Nat2Z.id, firstn_all.
Qed.

(** A loop that ran to its end left three vectors of [ndim] entries,
    whatever the inputs are. *)
Lemma intersect_Continue_lengths (src : Tile.t) (src_offset : list Index)
    (dst : Tile.t) (dst_offset : list Index) (st : Copy.axes) :
  Copy.intersect src src_offset dst dst_offset = Copy.Continue st ->
  length (Copy.src_start st) = length (Tile.shape src) /\
  length (Copy.dst_start st) = length (Tile.shape src) /\
  length (Copy.copy_shape st) = length (Tile.shape src).
Proof.
  unfold Copy.intersect, Tile.ndim, TileTraits.ndim. fold (Tile.shape src).
  rewrite Nat2Z.id. set (n := length (Tile.shape src)).
  apply (for_axes_Continue_preserves
           (fun st => length (Copy.src_start st) = n /\
                      length (Copy.dst_start st) = n /\
                      length (Copy.copy_shape st) = n)).
  - cbn. by rewrite !repeat_length.
  - intros i s0 s1 (H1 & H2 & H3) Hb.
    destruct (Z_lt_le_dec i 0) as [Hneg|Hpos].
    + exfalso. unfold Copy.axis_body, zget64, zget in Hb.
      destruct (Z.ltb_spec i 0); [done|lia].
    + replace i with (Z.of_nat (Z.to_nat i)) in Hb by lia.
      apply axis_body_Continue in Hb as (_ & E1 & E2 & E3). lia.
Qed.

(** A loop that ran to its end on tiles where nothing overflows left the
    values of [axes_inv]. *)
Lemma intersect_Continue_inv (src : Tile.t) (src_offset : list Index)
    (dst : Tile.t) (dst_offset : list Index) (st : Copy.axes) :
  no_overflow src src_offset dst dst_offset ->
  Copy.intersect src src_offset dst dst_offset = Copy.Continue st ->
  axes_inv src src_offset dst dst_offset
    (length (Tile.shape src)) (length (Tile.shape src)) st.
Proof.
  intros Hno Hrun.
  pose proof (intersect_Continue_pass _ _ _ _ _ Hno Hrun) as Hpass.
  destruct (intersect_continue _ _ _ _ Hno Hpass) as (st' & Hrun' & Hinv).
  congruence.
Qed.

Section WorkClaims.

Import Starpu.

Variable enqueue_ret : list event -> Z.

(** The enqueue at the end of [copy_intersection_work], reached when the
    loop over the axes ran to its end. *)
Lemma copy_intersection_work_launch (src : Tile.t) (src_offset : list Index)
    (dst : Tile.t) (dst_offset : list Index) (scratch : Handle)
    (tr : list event) (st : Copy.axes) :
  Tile.ndim src <> 0 ->
  length (Tile.stride src) = length (Tile.shape src) ->
  length (Tile.stride dst) = length (Tile.shape src) ->
  Copy.intersect src src_offset dst dst_offset = Copy.Continue st ->
  Copy.copy_intersection_work enqueue_ret src src_offset dst dst_offset
    scratch tr
  = (if enqueue_ret tr =? 0 then Ok tt else Throw "ret != 0",
     tr ++ [EvTaskInsert
              (if Copy.full_overwrite st then codelet_copy_w
               else codelet_copy_rw)
              (Copy.copy_task_args (Tile.ndim src) st
                 (Tile.stride src) (Tile.stride dst) src dst scratch
                 (if Copy.full_overwrite st then STARPU_W else STARPU_RW))
              (enqueue_ret tr)]).
Proof.
  intros Hnd Hts Htd Hrun.
  destruct (intersect_Continue_lengths _ _ _ _ _ Hrun) as (Hl1 & Hl2 & Hl3).
  unfold Copy.copy_intersection_work.
  destruct (Z.eqb_spec (Tile.ndim src) 0) as [|_]; [done|].
  rewrite Hrun.
  assert (Tile.ndim src = Z.of_nat (length (Tile.shape src))) as Hn by done.
  rewrite !words_full by (rewrite Hn; f_equal; lia).
  unfold bind, access, ret, throw, starpu_task_insert. destruct st as [s d c fo].
  cbn. destruct fo; cbn; by destruct (enqueue_ret tr =? 0).
Qed.

(** Where the test of the loop does what its comment says.  When on some
    axis the two intervals are non-empty and disjoint, and nothing overflows
    on that axis, [copy_intersection_work] returns without any request to
    the runtime: the trace is unchanged, no task is enqueued, so nothing is
    asked that could write the destination tile. *)
Lemma copy_intersection_work_apart_no_task
    (src : Tile.t) (src_offset : list Index)
    (dst : Tile.t) (dst_offset : list Index) (scratch : Handle)
    (tr : list event) (k : nat) (so ssh do dsh : Index) :
  1 <= Tile.ndim src ->
  same_dims src src_offset dst dst_offset ->
  axis_inputs src src_offset dst dst_offset k so ssh do dsh ->
  axis_in_range so ssh do dsh ->
  0 < ssh -> 0 < dsh ->
  disjoint so ssh do dsh ->
  Copy.copy_intersection_work enqueue_ret src src_offset dst dst_offset
    scratch tr = (Ok tt, tr).
Proof.
  intros Hnd Hdims Hin Hrange Hs Hd Hdis.
  unfold Copy.copy_intersection_work.
  destruct (Z.eqb_spec (Tile.ndim src) 0) as [|_]; [lia|].
  rewrite (intersect_return src src_offset dst dst_offset k so ssh do dsh);
    try done.
  by apply disjoint_nonempty.
Qed.

End WorkClaims.

(** C3, as amended.  For tiles that lie within the range of [Index] (on
    every axis the offsets, the extents and the interval ends
    [offset+shape] are 64-bit values) and whose intervals have a common
    point on every axis, the loop of [copy_intersection_work] runs to its
    end, and on every axis
    [copy_shape = min(src.shape-src_start, dst.shape-dst_start)], the common
    points of the two intervals are those of the interval of extent
    [copy_shape] that begins at [src_offset+src_start], which is also
    [dst_offset+dst_start], and at least one of [src_start] and [dst_start]
    is zero. *)
Theorem intersect_overlapping (src : Tile.t) (src_offset : list Index)
    (dst : Tile.t) (dst_offset : list Index) :
  1 <= Tile.ndim src ->
  same_dims src src_offset dst dst_offset ->
  no_overflow src src_offset dst dst_offset ->
  (forall k so ssh do dsh,
     axis_inputs src src_offset dst dst_offset k so ssh do dsh ->
     meet so ssh do dsh) ->
  exists st,
    Copy.intersect src src_offset dst dst_offset = Copy.Continue st /\
    forall k so ssh do dsh,
      axis_inputs src src_offset dst dst_offset k so ssh do dsh ->
      exists ss ds cs,
        Copy.src_start st !! k = Some ss /\
        Copy.dst_start st !! k = Some ds /\
        Copy.copy_shape st !! k = Some cs /\
        cs = Z.min (ssh - ss) (dsh - ds) /\
        cs = Z.min (so + ssh) (do + dsh) - Z.max so do /\
        so + ss = do + ds /\
        (forall x, interval so ssh x /\ interval do dsh x
                   <-> interval (so + ss) cs x) /\
        1 <= cs /\ 0 <= ss /\ 0 <= ds /\ (ss = 0 \/ ds = 0).
Proof.
  intros Hnd Hdims Hno Hmeet.
  pose proof (meet_pass_test _ _ _ _ Hdims Hmeet) as Hpass.
  destruct (intersect_continue _ _ _ _ Hno Hpass) as (st & Hrun & Hinv).
  exists st. split; [done|].
  intros k so ssh do dsh Hin.
  destruct Hinv as (_ & _ & _ & Hval & _).
  assert (k < length (Tile.shape src))%nat as Hk.
  { destruct Hin as (_ & H2 & _). by apply lookup_lt_Some in H2. }
  destruct (Hval k so ssh do dsh Hk Hin) as (Hss & Hds & Hcs).
  apply Hmeet, meet_iff in Hin.
  exists (Z.max 0 (do - so)), (Z.max 0 (so - do)),
         (Z.min (so + ssh) (do + dsh) - Z.max so do).
  repeat split; try done; unfold interval in *; lia.
Qed.

(** *** The enqueued copy task, run *)

Lemma fits_pointwise (ss cs sh : list Index) :
  length ss = length cs -> length sh = length cs ->
  (forall k s c h, ss !! k = Some s -> cs !! k = Some c -> sh !! k = Some h ->
     0 <= s /\ 1 <= c /\ s + c <= h) ->
  fits ss cs sh.
Proof.
  revert ss sh. induction cs as [|c cs IH]; intros [|s ss] [|h sh]; try done.
  intros [= Hl1] [= Hl2] Hall. cbn [fits].
  destruct (Hall 0%nat s c h) as (H1 & H2 & H3); try done.
  repeat split; try done. apply IH; try done.
  intros k. apply (Hall (S k)).
Qed.

(** For tiles that meet on every axis the computed box lies within both
    tiles. *)
Lemma intersect_fits (src : Tile.t) (src_offset : list Index)
    (dst : Tile.t) (dst_offset : list Index) (st : Copy.axes) :
  same_dims src src_offset dst dst_offset ->
  no_overflow src src_offset dst dst_offset ->
  (forall k so ssh do dsh,
     axis_inputs src src_offset dst dst_offset k so ssh do dsh ->
     meet so ssh do dsh) ->
  Copy.intersect src src_offset dst dst_offset = Copy.Continue st ->
  fits (Copy.src_start st) (Copy.copy_shape st) (Tile.shape src) /\
  fits (Copy.dst_start st) (Copy.copy_shape st) (Tile.shape dst).
Proof.
  intros Hdims Hno Hmeet Hrun.
  pose proof (intersect_Continue_pass _ _ _ _ _ Hno Hrun) as Hpass.
  destruct (intersect_Continue_inv _ _ _ _ _ Hno Hrun)
    as (Hl1 & Hl2 & Hl3 & Hval & _).
  destruct Hdims as (Hd1 & Hd2 & Hd3).
  split; apply fits_pointwise; try lia.
  - intros k s c h Hs Hc Hh.
    assert (k < length (Tile.shape src))%nat as Hk
      by (by apply lookup_lt_Some in Hh).
    destruct (Hpass k Hk) as (so & ssh & do & dsh & Hin & _).
    destruct (Hval k so ssh do dsh Hk Hin) as (Hss & Hds & Hcs).
    pose proof (proj1 (meet_iff _ _ _ _) (Hmeet _ _ _ _ _ Hin)).
    destruct Hin as (_ & Hssh & _).
    assert (s = Z.max 0 (do - so)) as -> by congruence.
    assert (c = Z.min (so + ssh) (do + dsh) - Z.max so do) as -> by congruence.
    assert (h = ssh) as -> by congruence. lia.
  - intros k s c h Hs Hc Hh.
    assert (k < length (Tile.shape src))%nat as Hk
      by (apply lookup_lt_Some in Hh; lia).
    destruct (Hpass k Hk) as (so & ssh & do & dsh & Hin & _).
    destruct (Hval k so ssh do dsh Hk Hin) as (Hss & Hds & Hcs).
    pose proof (proj1 (meet_iff _ _ _ _) (Hmeet _ _ _ _ _ Hin)).
    destruct Hin as (_ & _ & _ & Hdsh).
    assert (s = Z.max 0 (so - do)) as -> by congruence.
    assert (c = Z.min (so + ssh) (do + dsh) - Z.max so do) as -> by congruence.
    assert (h = dsh) as -> by congruence. lia.
Qed.

Lemma list_eq_pointwise (l1 l2 : list Index) :
  length l1 = length l2 ->
  (forall k, (k < length l2)%nat -> l1 !! k = l2 !! k) -> l1 = l2.
Proof.
  intros Hl Hall. apply list_eq. intros k.
  destruct (decide (k < length l2)%nat) as [Hk|Hk]; [by apply Hall|].
  rewrite !lookup_ge_None_2; (done || lia).
Qed.

Lemma lookup_repeat {A : Type} (x : A) (n k : nat) :
  (k < n)%nat -> repeat x n !! k = Some x.
Proof.
  revert k. induction n as [|n IH]; intros [|k] Hk; simpl; try lia; [done|].
  apply IH. lia.
Qed.

Lemma all_zero_repeat (l : list Index) :
  (forall k, (k < length l)%nat -> l !! k = Some 0) -> l = repeat 0 (length l).
Proof.
  intros Hall. apply list_eq_pointwise; [by rewrite repeat_length|].
  rewrite repeat_length. intros k Hk. rewrite (Hall k Hk).
  symmetry. by apply lookup_repeat.
Qed.

Section RunClaims.

Context {T : Type}.

(** The task that [copy_intersection_work] enqueues for tiles that meet on
    every axis, run on the buffers of the two tiles: the kernel returns,
    every element of the box holds its source element, every destination
    element outside the box keeps the content the worker was given, and
    under [full_overwrite] the result does not depend on that content. *)
Lemma copy_task_run (src : Tile.t) (src_offset : list Index)
    (dst : Tile.t) (dst_offset : list Index) (scratch : Starpu.Handle)
    (st : Copy.axes) (mode : Starpu.access_mode)
    (src_buf dst_buf : list T) (scratch_buf : list Index) :
  Tile.ndim src <> 0 ->
  Tile.stride src = col_major_strides (Tile.shape src) ->
  Tile.stride dst = col_major_strides (Tile.shape dst) ->
  same_dims src src_offset dst dst_offset ->
  no_overflow src src_offset dst dst_offset ->
  (forall k so ssh do dsh,
     axis_inputs src src_offset dst dst_offset k so ssh do dsh ->
     meet so ssh do dsh) ->
  Copy.intersect src src_offset dst dst_offset = Copy.Continue st ->
  Z.of_nat (length src_buf) = prod_shape (Tile.shape src) ->
  Z.of_nat (length dst_buf) = prod_shape (Tile.shape dst) ->
  length scratch_buf = (2 * length (Tile.shape src))%nat ->
  exists d',
    (forall cl, cl = Starpu.codelet_copy_w \/ cl = Starpu.codelet_copy_rw ->
       Copy.run_copy_task cl
         (Copy.copy_task_args (Tile.ndim src) st (Tile.stride src)
            (Tile.stride dst) src dst scratch mode)
         src_buf dst_buf scratch_buf = Some d') /\
    length d' = length dst_buf /\
    (forall p, in_box (Copy.copy_shape st) p ->
       exists v,
         zget src_buf (dot (Tile.stride src) (vadd (Copy.src_start st) p))
           = Some v /\
         zget d' (dot (Tile.stride dst) (vadd (Copy.dst_start st) p))
           = Some v) /\
    (forall q,
       (forall p, in_box (Copy.copy_shape st) p ->
          q <> dot (Tile.stride dst) (vadd (Copy.dst_start st) p)) ->
       zget d' q = zget dst_buf q) /\
    (Copy.full_overwrite st = true ->
     forall dst_buf2 : list T, length dst_buf2 = length dst_buf ->
       forall cl, cl = Starpu.codelet_copy_w \/ cl = Starpu.codelet_copy_rw ->
       Copy.run_copy_task cl
         (Copy.copy_task_args (Tile.ndim src) st (Tile.stride src)
            (Tile.stride dst) src dst scratch mode)
         src_buf dst_buf2 scratch_buf = Some d').
Proof.
  intros Hnd Hts Htd Hdims Hno Hmeet Hrun Hsrc Hdst Hscr.
  destruct (intersect_fits _ _ _ _ _ Hdims Hno Hmeet Hrun) as [Hfs Hfd].
  destruct (intersect_Continue_inv _ _ _ _ _ Hno Hrun)
    as (Hl1 & Hl2 & Hl3 & _ & Hfo).
  pose proof (fits_copy_shape_pos _ _ _ Hfs) as Hpos.
  assert (Copy.copy_shape st <> []) as Hne.
  { intros Hnil. rewrite Hnil in Hl3. simpl in Hl3.
    unfold Tile.ndim, TileTraits.ndim in Hnd. fold (Tile.shape src) in Hnd.
    lia. }
  assert (Tile.ndim src = Z.of_nat (length (Copy.copy_shape st))) as Hn
    by (rewrite Hl3; done).
  assert (forall buf : list T, length buf = length dst_buf ->
    forall cl, cl = Starpu.codelet_copy_w \/ cl = Starpu.codelet_copy_rw ->
    Copy.run_copy_task cl
      (Copy.copy_task_args (Tile.ndim src) st (Tile.stride src)
         (Tile.stride dst) src dst scratch mode) src_buf buf scratch_buf
    = Copy.cpu_copy_intersection (Z.of_nat (length (Copy.copy_shape st)))
        (Copy.src_start st) (col_major_strides (Tile.shape src))
        (Copy.copy_shape st) (Copy.dst_start st)
        (col_major_strides (Tile.shape dst)) src_buf buf scratch_buf) as Hrun_eq.
  { intros buf _ cl [-> | ->]; cbn; by rewrite Hn, Hts, Htd. }
  destruct (kernel_spec (Tile.shape src) (Tile.shape dst) (Copy.src_start st)
              (Copy.copy_shape st) (Copy.dst_start st) src_buf dst_buf
              scratch_buf)
    as (d' & Hk & _ & Hlen & Hin & Hout); try done; [lia|].
  exists d'. rewrite Hts, Htd. repeat split.
  - intros cl Hcl. rewrite Hts, Htd in Hrun_eq. by rewrite Hrun_eq.
  - done.
  - intros p Hp. apply Hin. by apply box_spec.
  - intros q Hq. apply Hout. rewrite in_map_iff. intros (p & <- & Hp).
    apply (Hq p); [|done]. by apply box_spec.
  - intros Hfull buf Hbuf cl Hcl.
    rewrite Hts, Htd in Hrun_eq. rewrite Hrun_eq by done.
    destruct (kernel_spec (Tile.shape src) (Tile.shape dst) (Copy.src_start st)
                (Copy.copy_shape st) (Copy.dst_start st) src_buf buf
                scratch_buf)
      as (d2 & Hk2 & _ & Hlen2 & Hin2 & _); try done; [lia..|].
    rewrite Hk2. f_equal. apply list_eq. intros k.
    destruct (decide (k < length dst_buf)%nat) as [Hk'|Hk'];
      [|rewrite !lookup_ge_None_2; (done || lia)].
    (* under full overwrite every destination offset belongs to the box *)
    destruct Hdims as (_ & Hd2 & _).
    assert (Copy.copy_shape st = Tile.shape dst) as Hcs.
    { apply list_eq_pointwise; [lia|]. intros j Hj.
      apply (proj1 Hfo Hfull). lia. }
    assert (Copy.dst_start st = repeat 0 (length (Tile.shape dst))) as Hds.
    { rewrite <- Hd2 in Hl2. rewrite <- Hl2. apply all_zero_repeat.
      intros j Hj.
      pose proof (intersect_Continue_pass _ _ _ _ _ Hno Hrun) as Hpass.
      destruct (Hpass j ltac:(lia)) as (so & ssh & do & dsh & Hinp & Hg1 & Hg2).
      destruct (intersect_Continue_inv _ _ _ _ _ Hno Hrun)
        as (_ & _ & _ & Hval & _).
      destruct (Hval j so ssh do dsh ltac:(lia) Hinp) as (_ & Hdsj & Hcsj).
      pose proof (proj1 Hfo Hfull j ltac:(lia)) as Heq.
      destruct Hinp as (_ & _ & _ & Hdsh).
      rewrite Hcsj, Hdsh in Heq. injection Heq as Heq.
      rewrite Hdsj. f_equal. lia. }
    set (p := digits (Tile.shape dst) (Z.of_nat k)).
    assert (In p (box (Copy.copy_shape st))) as Hp.
    { rewrite Hcs in Hpos |- *. apply box_spec; [done|]. by apply digits_in_box. }
    assert (index_to_linear (of_shape (Tile.shape dst))
              (vadd (Copy.dst_start st) p) = Z.of_nat k) as Hq.
    { unfold index_to_linear. cbn [stride of_shape].
      rewrite Hds. unfold p.
      rewrite vadd_zero_l by apply digits_length.
      rewrite Hcs in Hpos. apply dot_digits; [done|lia]. }
    destruct (Hin p Hp) as (v1 & Hs1 & Hd1).
    destruct (Hin2 p Hp) as (v2 & Hs2 & Hd2').
    rewrite Hq, zget_nat in Hd1, Hd2'. congruence.
Qed.

End RunClaims.

Section AccessModeClaim.

Import Starpu.

Variable enqueue_ret : list event -> Z.


End AccessModeClaim.

(** **** Concrete tiles *)

Lemma copy_intersection_work_apart_example :
  Copy.copy_intersection_work (fun _ => 0)
    (Tile.of_shape [2; 3] (Starpu.mkHandle 1 0)) [0; 0]
    (Tile.of_shape [2; 3] (Starpu.mkHandle 2 0)) [2; 0]
    (Starpu.mkHandle 3 0) []
  = (Ok tt, []).
Proof.
  apply (copy_intersection_work_apart_no_task (fun _ => 0)
           (Tile.of_shape [2; 3] (Starpu.mkHandle 1 0)) [0; 0]
           (Tile.of_shape [2; 3] (Starpu.mkHandle 2 0)) [2; 0]
           (Starpu.mkHandle 3 0) [] 0%nat 0 2 2 2).
  - cbv. discriminate.
  - repeat split.
  - repeat split.
  - unfold axis_in_range, int64. lia.
  - lia.
  - lia.
  - intros x. unfold interval. lia.
Qed.

(** C2.  The test of the loop, under the comment "Do nothing if tiles do
    not intersect", lets an empty tile through.  For a source of shape
    [(0)] at offset 1 and a destination of shape [(3)] at offset 0 the two
    intervals are disjoint on the only axis, and yet a task is enqueued,
    with [copy_shape = (0)]; its kernel, which copies one element before
    its main loop, then reads [src[0]] of the source buffer, which has no
    element. *)
Theorem copy_intersection_work_empty_tile_enqueues :
  disjoint 1 0 0 3 /\
  Copy.copy_intersection_work (fun _ => 0)
    (Tile.of_shape [0] (Starpu.mkHandle 1 0)) [1]
    (Tile.of_shape [3] (Starpu.mkHandle 2 0)) [0]
    (Starpu.mkHandle 3 0) []
  = (Ok tt,
     [Starpu.EvTaskInsert Starpu.codelet_copy_rw
        [ Starpu.Value [1]; Starpu.Value [0]; Starpu.Value [1];
          Starpu.Value [0]; Starpu.Value [1]; Starpu.Value [1];
          Starpu.Buffer Starpu.STARPU_R (Starpu.mkHandle 1 0);
          Starpu.Buffer Starpu.STARPU_RW (Starpu.mkHandle 2 0);
          Starpu.Buffer Starpu.STARPU_SCRATCH (Starpu.mkHandle 3 0);
          Starpu.Flops 0 ] 0]) /\
  Z.of_nat (length ([] : list Z)) = prod_shape [0] /\
  Copy.run_copy_task_on Starpu.codelet_copy_rw
    [ Starpu.Value [1]; Starpu.Value [0]; Starpu.Value [1];
      Starpu.Value [0]; Starpu.Value [1]; Starpu.Value [1];
      Starpu.Buffer Starpu.STARPU_R (Starpu.mkHandle 1 0);
      Starpu.Buffer Starpu.STARPU_RW (Starpu.mkHandle 2 0);
      Starpu.Buffer Starpu.STARPU_SCRATCH (Starpu.mkHandle 3 0);
      Starpu.Flops 0 ]
    (Copy.Distinct ([] : list Z) [7; 8; 9]) [0; 0]
  = None.
Proof.
  split; [intros x; unfold interval; lia|].
  split; [reflexivity|]. split; reflexivity.
Qed.

Lemma intersect_overlapping_witness :
  exists st,
    Copy.intersect (Tile.of_shape [4; 5] (Starpu.mkHandle 1 0)) [0; 0]
                   (Tile.of_shape [3; 4] (Starpu.mkHandle 2 0)) [2; 1]
    = Copy.Continue st /\
    Copy.src_start st = [2; 1] /\ Copy.dst_start st = [0; 0] /\
    Copy.copy_shape st = [2; 4].
Proof.
  destruct (intersect_overlapping
              (Tile.of_shape [4; 5] (Starpu.mkHandle 1 0)) [0; 0]
              (Tile.of_shape [3; 4] (Starpu.mkHandle 2 0)) [2; 1])
    as (st & Hrun & _).
  - cbv. discriminate.
  - repeat split.
  - intros k so ssh do dsh (H1 & H2 & H3 & H4). unfold axis_in_range, int64.
    destruct k as [|[|k]]; cbn in H1, H2, H3, H4; try discriminate;
      injection H1 as <-; injection H2 as <-;
      injection H3 as <-; injection H4 as <-; lia.
  - intros k so ssh do dsh (H1 & H2 & H3 & H4). apply meet_iff.
    destruct k as [|[|k]]; cbn in H1, H2, H3, H4; try discriminate;
      injection H1 as <-; injection H2 as <-;
      injection H3 as <-; injection H4 as <-; lia.
  - exists st. split; [exact Hrun|].
    vm_compute in Hrun. by injection Hrun as <-.
Defined.

(** C3 as stated fails for equal offsets: both [src_start] and [dst_start]
    are zero on the axis, not exactly one of them. *)
Lemma intersect_equal_offsets_both_zero :
  meet 0 1 0 1 /\ axis_in_range 0 1 0 1 /\
  Copy.intersect (Tile.of_shape [1] (Starpu.mkHandle 1 0)) [0]
                 (Tile.of_shape [1] (Starpu.mkHandle 2 0)) [0]
  = Copy.Continue {| Copy.src_start := [0]; Copy.dst_start := [0];
                     Copy.copy_shape := [1]; Copy.full_overwrite := true |}.
Proof.
  split; [exists 0; unfold interval; lia|].
  split; [unfold axis_in_range, int64; lia|reflexivity].
Qed.

(** Why the statements about overlapping tiles ask for tiles within the
    range of [Index]: two tiles of shape [(4)], both at offset [2^63-2],
    occupy the same interval, but the end [offset+shape] of that interval
    is no 64-bit value; the sum of the test wraps around to a negative
    word, the test takes the tiles for tiles apart, and the function
    returns without a task. *)
Lemma copy_intersection_work_wraps_and_returns :
  meet (2 ^ 63 - 2) 4 (2 ^ 63 - 2) 4 /\
  ~ axis_in_range (2 ^ 63 - 2) 4 (2 ^ 63 - 2) 4 /\
  add64 (2 ^ 63 - 2) 4 = - 2 ^ 63 + 2 /\
  Copy.copy_intersection_work (fun _ => 0)
    (Tile.of_shape [4] (Starpu.mkHandle 1 0)) [2 ^ 63 - 2]
    (Tile.of_shape [4] (Starpu.mkHandle 2 0)) [2 ^ 63 - 2]
    (Starpu.mkHandle 3 0) []
  = (Ok tt, []).
Proof.
  split; [exists (2 ^ 63 - 2); unfold interval; lia|].
  split; [unfold axis_in_range, int64; lia|].
  split; reflexivity.
Qed.


(** *** [gather_async]: the multi-index of the source tile *)

(** The carry loop on the tile index normalises a bumped digit vector. *)
Lemma carry_index_spec (c2 : list Index) :
  forall (q2 P c1 : list Index) (fuel : nat),
  bumped c2 q2 ->
  length P = length c1 ->
  (length c2 <= fuel)%nat ->
  Gather.carry_index fuel (c1 ++ c2) (Z.of_nat (length c1)) (P ++ q2)
  = Some (P ++ digits c2 (dot (col_major_strides c2) q2)).
Proof.
  induction c2 as [|c0 c2 IH]; intros q2 P c1 fuel Hb HP Hfuel; [done|].
  destruct q2 as [|d q2]; [done|].
  destruct fuel as [|fuel]; [simpl in Hfuel; lia|].
  destruct Hb as (Hc0 & Hd & Hq & Hv).
  rewrite dot_col_major_cons in Hv |- *.
  pose proof (dot_in_box_range c2 q2 Hq) as Hr.
  set (v' := dot (col_major_strides c2) q2) in *.
  cbn [Gather.carry_index]. repeat zstep.
  destruct (Z.eqb_spec d c0) as [->|Hne].
  - change (prod_shape (c0 :: c2)) with (c0 * prod_shape c2) in Hv.
    assert (v' + 1 < prod_shape c2) as Hv' by nia.
    destruct c2 as [|c1' c2]; [simpl in *; unfold v' in *; simpl in *; lia|].
    destruct q2 as [|e q2]; [by apply Forall2_length in Hq|].
    repeat zstep.
    inversion Hq as [|? ? ? ? He Hq']; subst.
    specialize (IH ((e + 1) :: q2) (P ++ [0]) (c1 ++ [c0]) fuel).
    rewrite !length_app in IH. simpl length in IH.
    replace (Z.of_nat (length c1 + 1)) with (Z.of_nat (length c1) + 1) in IH by lia.
    rewrite <- !app_assoc in IH. cbn [app] in IH.
    assert (dot (col_major_strides (c1' :: c2)) ((e + 1) :: q2) = v' + 1) as Hv1.
    { unfold v'. rewrite !dot_col_major_cons. lia. }
    rewrite Hv1 in IH. rewrite IH; clear IH.
    + replace (c0 + c0 * v') with (0 + (v' + 1) * c0) by lia.
      cbn [digits]. rewrite Z_mod_plus_full, Z_div_plus_full by lia.
      rewrite Z.mod_0_l, Z.div_0_l by lia. by rewrite !Z.add_0_l.
    + repeat split; try lia; try done.
    + lia.
    + simpl in Hfuel |- *. lia.
  - assert (in_box (c0 :: c2) (d :: q2)) as Hin.
    { constructor; [lia|done]. }
    pose proof (digits_dot (c0 :: c2) (d :: q2) Hin) as Hdd.
    rewrite dot_col_major_cons in Hdd. fold v' in Hdd. by rewrite Hdd.
Qed.

(** The increment of the tile index steps from [linear_to_index(i-1)] to
    [linear_to_index(i)]. *)
Lemma next_tile_index_spec (gs : list Index) (i : Index) :
  Forall (fun n => 1 <= n) gs -> 1 <= i < prod_shape gs ->
  Gather.next_tile_index gs (digits gs (i - 1)) = Some (digits gs i).
Proof.
  intros Hpos Hi.
  assert (gs <> []) as Hne by (intros ->; simpl in Hi; lia).
  destruct (bumped_bump_digits gs i Hpos Hne Hi) as [Hb Hv].
  unfold Gather.next_tile_index.
  destruct gs as [|g gs]; [done|]. cbn [digits] in *.
  rewrite zget_head. cbn [mbind option_bind].
  rewrite zset_head. cbn [mbind option_bind].
  pose proof (carry_index_spec (g :: gs)
                (((i - 1) mod g + 1) :: digits gs ((i - 1) / g)) [] []
                (S (length (g :: gs))) Hb eq_refl ltac:(lia)) as Hc.
  cbn [app bump] in Hc, Hv. change (Z.of_nat (length [])) with 0 in Hc.
  rewrite Hc, Hv. done.
Qed.

Lemma zip_with_mul_lookup (a b : list Index) (k : nat) (x y : Index) :
  a !! k = Some x -> b !! k = Some y ->
  zip_with Z.mul a b !! k = Some (x * y).
Proof. intros Ha Hb. by rewrite lookup_zip_with, Ha, Hb. Qed.

(** The inner loop writes the offset of the tile in the destination. *)
Lemma tile_start_spec (idx bs d0 : list Index) :
  length bs = length idx -> length d0 = length idx ->
  Gather.tile_start (Z.of_nat (length idx)) idx bs d0
  = Some (zip_with Z.mul idx bs).
Proof.
  intros Hbs Hd0. unfold Gather.tile_start. set (n := length idx) in *.
  pose (Inv := fun (i : Index) (d : list Index) =>
    0 <= i <= Z.of_nat n /\ length d = n /\
    forall k, (k < Z.to_nat i)%nat -> d !! k = zip_with Z.mul idx bs !! k).
  destruct (for_range_inv Inv (Gather.tile_start_body idx bs)
              0 (Z.of_nat n) d0) as (d & Hrun & Hinv).
  - lia.
  - unfold Inv. repeat split; try lia.
  - intros i d Hi (_ & Hlen & Hlk).
    assert (exists k, i = Z.of_nat k) as [k ->] by (exists (Z.to_nat i); lia).
    rewrite Nat2Z.id in Hlk.
    destruct (lookup_lt_is_Some_2 idx k) as [x Hx]; [by fold n; lia|].
    destruct (lookup_lt_is_Some_2 bs k) as [b Hb]; [lia|].
    unfold Gather.tile_start_body. rewrite !zget_nat, Hx, Hb.
    cbn [mbind option_bind]. rewrite zset_nat by lia.
    eexists. split; [done|]. unfold Inv.
    replace (Z.to_nat (Z.of_nat k + 1)) with (S k) by lia.
    rewrite length_insert. repeat split; try lia.
    intros j Hj. destruct (decide (j = k)) as [->|Hjk].
    + rewrite list_lookup_insert_eq by lia.
      symmetry. by apply zip_with_mul_lookup.
    + rewrite list_lookup_insert_ne by done. apply Hlk. lia.
  - rewrite Hrun. f_equal. destruct Hinv as (_ & Hlen & Hlk).
    rewrite Nat2Z.id in Hlk. apply list_eq. intros k.
    destruct (decide (k < n)%nat) as [Hk|Hk]; [by apply Hlk|].
    rewrite !lookup_ge_None_2; [done| |lia].
    rewrite length_zip_with. lia.
Qed.

(** *** [gather_async]: the requests of the loop over the tiles *)

Lemma for_loopM_inv {St : Type}
    (Inv : Index -> St -> list Starpu.event -> Prop)
    (body : Index -> St -> Starpu.M St) (n : nat) (lo : Index) (s : St)
    (tr : list Starpu.event) :
  Inv lo s tr ->
  (forall i s0 tr0, lo <= i < lo + Z.of_nat n -> Inv i s0 tr0 ->
     exists s1 tr1, body i s0 tr0 = (Ok s1, tr1) /\ Inv (i + 1) s1 tr1) ->
  exists s' tr',
    for_loopM n lo body s tr = (Ok s', tr') /\
    Inv (lo + Z.of_nat n) s' tr'.
Proof.
  revert lo s tr. induction n as [|n IH]; intros lo s tr H0 Hstep.
  - exists s, tr. split; [done|]. by replace (lo + Z.of_nat 0) with lo by lia.
  - destruct (Hstep lo s tr) as (s1 & tr1 & Hb & H1); [lia|done|].
    cbn [for_loopM]. unfold Starpu.bind at 1. rewrite Hb.
    destruct (IH (lo + 1) s1 tr1 H1) as (s' & tr' & Hl & H'').
    + intros i s0 tr0 Hi. apply Hstep. lia.
    + exists s', tr'. split; [done|].
      by replace (lo + Z.of_nat (S n)) with (lo + 1 + Z.of_nat n) by lia.
Qed.

Lemma bind_access_Some {A B : Type} (o : option A) (a : A)
    (k : A -> Starpu.M B) (tr : list Starpu.event) :
  o = Some a -> Starpu.bind (Starpu.access o) k tr = k a tr.
Proof. by intros ->. Qed.

Lemma mpi_transfer_run (h : Starpu.Handle) (dst_rank mpi_rank : Z)
    (tr : list Starpu.event) :
  mpi_transfer h dst_rank mpi_rank tr
  = (Ok tt,
     tr ++ (if Starpu.mpi_get_rank h =? dst_rank then []
            else [Starpu.EvMpiTransfer h dst_rank mpi_rank])).
Proof.
  unfold mpi_transfer.
  destruct (Starpu.mpi_get_rank h =? dst_rank).
  - unfold Starpu.ret. by rewrite app_nil_r.
  - done.
Qed.

Lemma zip_with_mul_zero (n : nat) (bs : list Index) :
  length bs = n -> zip_with Z.mul (repeat 0 n) bs = repeat 0 n.
Proof.
  revert bs. induction n as [|n IH]; intros [|b bs]; simpl; try done.
  intros [= H]. by rewrite IH.
Qed.

Lemma iter_tile_index_spec (gs : list Index) (i : nat) :
  Forall (fun n => 1 <= n) gs -> Z.of_nat i < prod_shape gs ->
  iter_tile_index gs i = Some (digits gs (Z.of_nat i)).
Proof.
  intros Hpos. induction i as [|i IH]; intros Hi.
  - simpl. by rewrite digits_zero.
  - cbn [iter_tile_index]. rewrite IH by lia. cbn [mbind option_bind].
    replace (Z.of_nat i) with (Z.of_nat (S i) - 1) by lia.
    apply next_tile_index_spec; [done|lia].
Qed.

Section GatherClaims.

Import Starpu.

Variable enqueue_ret : list event -> Z.
Variable new_handle : list event -> Handle.

(** One round of the loop on the node that owns the destination, when the
    runtime accepts the task. *)
Lemma gather_body_spec (src dst : Tensor.t) (dst_h scratch : Handle)
    (i : Index) (dstart : list Index) (tr : list event) :
  let gs := TileTraits.shape (Tensor.grid src) in
  let n := length (Tensor.shape src) in
  (forall tr0, enqueue_ret tr0 = 0) ->
  Forall (fun n => 1 <= n) gs ->
  length gs = n -> length (Tensor.basetile_shape src) = n ->
  Z.of_nat (length (Tensor.tile_handles src)) = prod_shape gs ->
  length dstart = n ->
  1 <= i < prod_shape gs ->
  Gather.gather_body enqueue_ret (mpi_get_rank dst_h) src (Tensor.ndim src)
    (repeat 0 n) (Tensor.get_tile_traits dst 0) dst_h scratch
    (mpi_get_rank dst_h) i (digits gs (i - 1), dstart) tr
  = (Ok (digits gs i, Gather.tile_offset src i),
     tr ++ Gather.tile_events src dst dst_h scratch (mpi_get_rank dst_h)
             (Z.to_nat i)).
Proof.
  intros gs n Hret Hpos Hgs Hbs Hh Hd Hi.
  assert (exists k, i = Z.of_nat k) as [k ->] by (exists (Z.to_nat i); lia).
  destruct (lookup_lt_is_Some_2 (Tensor.tile_handles src) k) as [h Hhk]; [lia|].
  unfold Gather.gather_body.
  rewrite (bind_access_Some _ (digits gs (Z.of_nat k)))
    by (by apply next_tile_index_spec).
  rewrite (bind_access_Some _ h)
    by (unfold Tensor.get_tile_handle; by rewrite zget_nat).
  unfold bind at 1. rewrite mpi_transfer_run. rewrite Z.eqb_refl.
  assert (Tensor.ndim src = Z.of_nat (length (digits gs (Z.of_nat k)))) as Hnd
    by (rewrite digits_length; unfold Tensor.ndim; fold n; lia).
  rewrite Hnd at 1.
  rewrite (bind_access_Some _ (Gather.tile_offset src (Z.of_nat k))).
  2:{ apply tile_start_spec; rewrite digits_length; lia. }
  unfold bind, Gather.subcopy_submit, ret. rewrite Hret. cbn [Z.eqb negb].
  unfold Gather.tile_events. rewrite Nat2Z.id, Hhk.
  rewrite <- app_assoc. do 3 f_equal.
  unfold Gather.tile_task. fold n.
  replace (Z.to_nat (Tensor.ndim src)) with n
    by (unfold Tensor.ndim; fold n; lia).
  destruct (Z.eqb_spec (Z.of_nat k) 0) as [Hk0|_]; [lia|]. done.
Qed.

(** The multi-tile path of [gather_async] on the node that owns the
    destination, when the runtime accepts every task: the requests are, in
    order, the scratch variable, then for every source tile its transfer
    and its task, then the flush. *)
Lemma gather_async_multi (src dst : Tensor.t) (dst_h : Handle)
    (tr : list event) :
  let gs := TileTraits.shape (Tensor.grid src) in
  let n := length (Tensor.shape src) in
  (forall tr0, enqueue_ret tr0 = 0) ->
  TileTraits.nelems (Tensor.grid dst) = 1 ->
  Tensor.shape src = Tensor.shape dst ->
  Tensor.tile_handles dst !! 0%nat = Some dst_h ->
  Forall (fun n => 1 <= n) gs ->
  TileTraits.nelems (Tensor.grid src) = prod_shape gs ->
  TileTraits.nelems (Tensor.grid src) <> 1 ->
  length gs = n -> length (Tensor.basetile_shape src) = n ->
  Z.of_nat (length (Tensor.tile_handles src)) = prod_shape gs ->
  Gather.gather_async enqueue_ret new_handle (mpi_get_rank dst_h) src dst tr
  = (Ok tt,
     tr ++ [EvVariableHandle (new_handle tr)
              (2 * Tensor.ndim src * Gather.sizeof_Index) STARPU_SCRATCH]
        ++ concat (map (Gather.tile_events src dst dst_h (new_handle tr)
                          (mpi_get_rank dst_h))
                       (seq 0 (Z.to_nat (prod_shape gs))))
        ++ [EvMpiFlush dst_h]).
Proof.
  intros gs n Hret Hd1 Hshape Hdh Hpos Hnel Hne1 Hgs Hbs Hh.
  pose proof (prod_shape_pos gs Hpos) as HN.
  unfold Gather.gather_async. rewrite Hd1. cbn [Z.eqb Pos.eqb negb].
  rewrite bool_decide_eq_true_2 by done. cbn [negb].
  rewrite (bind_access_Some _ dst_h)
    by (unfold Tensor.get_tile_handle; by rewrite (zget_nat _ 0)).
  destruct (Z.eqb_spec (TileTraits.nelems (Tensor.grid src)) 1) as [|_];
    [done|].
  unfold bind at 1. unfold variable_handle at 1.
  set (scratch := new_handle tr).
  destruct (lookup_lt_is_Some_2 (Tensor.tile_handles src) 0) as [h0 Hh0];
    [lia|].
  rewrite (bind_access_Some _ h0)
    by (unfold Tensor.get_tile_handle; by rewrite (zget_nat _ 0)).
  unfold bind at 1. rewrite mpi_transfer_run.
  unfold bind at 1. rewrite Z.eqb_refl.
  unfold Gather.subcopy_submit at 1. rewrite Hret. cbn [Z.eqb negb].
  replace (Z.to_nat (Tensor.ndim src)) with n
    by (unfold Tensor.ndim; fold n; lia).
  (* the trace after the first tile *)
  match goal with
  | |- context [for_rangeM 1 _ ?body ?st0] =>
      match goal with
      | |- context [bind (for_rangeM 1 _ body st0) _ ?tr1] =>
          set (tr1' := tr1)
      end
  end.
  assert (tr1' = tr ++ [EvVariableHandle scratch
                          (2 * Tensor.ndim src * Gather.sizeof_Index)
                          STARPU_SCRATCH]
                   ++ Gather.tile_events src dst dst_h scratch
                        (mpi_get_rank dst_h) 0) as Htr1.
  { unfold tr1', Gather.tile_events. rewrite Hh0.
    rewrite <- !app_assoc. do 4 f_equal.
    unfold Gather.tile_task, Gather.tile_offset, linear_to_index. fold gs.
    change (Z.of_nat 0) with 0. rewrite digits_zero, Hgs.
    rewrite zip_with_mul_zero by done.
    replace (Z.to_nat (Tensor.ndim src)) with n
      by (unfold Tensor.ndim; fold n; lia).
    done. }
  clearbody tr1'.
  pose (Inv := fun (i : Index) (st : list Index * list Index)
                   (tri : list event) =>
    1 <= i <= prod_shape gs /\
    fst st = digits gs (i - 1) /\ length (snd st) = n /\
    tri = tr1' ++ concat (map (Gather.tile_events src dst dst_h scratch
                                 (mpi_get_rank dst_h))
                              (seq 1 (Z.to_nat (i - 1))))).
  unfold bind at 1. unfold for_rangeM. rewrite Hnel.
  match goal with
  | |- context [for_loopM ?m 1 ?body ?st0 tr1'] =>
      destruct (for_loopM_inv Inv body m 1 st0 tr1')
        as ([idx dstart] & tr2 & Hrun & Hinv)
  end.
  - unfold Inv. cbn [fst snd]. change (1 - 1) with 0.
    rewrite digits_zero, Hgs, repeat_length. cbn. rewrite app_nil_r.
    repeat split; (done || lia).
  - intros i [idx dstart] tri Hi (_ & Hidx & Hlen & Htri).
    cbn [fst snd] in Hidx, Hlen. subst idx.
    eexists _, _. split.
    { apply (gather_body_spec src dst dst_h scratch i dstart tri);
        try done; fold gs; lia. }
    unfold Inv. cbn [fst snd].
    replace (i + 1 - 1) with i by lia.
    repeat split; try lia.
    + unfold Gather.tile_offset.
      rewrite length_zip_with. unfold linear_to_index. fold gs.
      rewrite digits_length. lia.
    + rewrite Htri, <- app_assoc. f_equal.
      replace (Z.to_nat i) with (S (Z.to_nat (i - 1))) at 2 by lia.
      rewrite seq_S, map_app, concat_app. cbn [map concat].
      rewrite app_nil_r. do 2 f_equal. lia.
  - rewrite Hrun. unfold mpi_flush, emit.
    destruct Hinv as (_ & _ & _ & ->). f_equal.
    rewrite Htr1, <- !app_assoc. do 2 f_equal.
    rewrite app_assoc. f_equal.
    set (m := Z.to_nat (1 + Z.of_nat (Z.to_nat (prod_shape gs - 1)) - 1)).
    replace (Z.to_nat (prod_shape gs)) with (S m) by lia.
    by rewrite <- cons_seq.
Qed.

End GatherClaims.

(** C9.  In the multi-tile path of [gather_async] the multi-index of the
    source tile kept by increments and carries equals
    [src.grid.linear_to_index(i)] for every linear index [i] of the grid;
    on the node that owns the destination, when the runtime accepts every
    task, the requests are the scratch variable, then for every source tile
    [i], in order, its transfer and its task, then the flush; the task of
    tile [i] starts in the destination at
    [linear_to_index(i)[k] * src.basetile_shape[k]] on every axis and has
    Write access for [i = 0] and ReadWrite access for every later tile. *)
Theorem gather_async_tiles (enqueue_ret : list Starpu.event -> Z)
    (new_handle : list Starpu.event -> Starpu.Handle)
    (src dst : Tensor.t) (dst_h : Starpu.Handle) (tr : list Starpu.event) :
  let gs := TileTraits.shape (Tensor.grid src) in
  (forall tr0, enqueue_ret tr0 = 0) ->
  TileTraits.nelems (Tensor.grid dst) = 1 ->
  Tensor.shape src = Tensor.shape dst ->
  Tensor.tile_handles dst !! 0%nat = Some dst_h ->
  Forall (fun n => 1 <= n) gs ->
  TileTraits.nelems (Tensor.grid src) = prod_shape gs ->
  TileTraits.nelems (Tensor.grid src) <> 1 ->
  length gs = length (Tensor.shape src) ->
  length (Tensor.basetile_shape src) = length (Tensor.shape src) ->
  Z.of_nat (length (Tensor.tile_handles src)) = prod_shape gs ->
  (forall i : nat, Z.of_nat i < TileTraits.nelems (Tensor.grid src) ->
     iter_tile_index gs i
     = Some (TileTraits.linear_to_index (Tensor.grid src) (Z.of_nat i))) /\
  Gather.gather_async enqueue_ret new_handle (Starpu.mpi_get_rank dst_h)
    src dst tr
  = (Ok tt,
     tr ++ [Starpu.EvVariableHandle (new_handle tr)
              (2 * Tensor.ndim src * Gather.sizeof_Index)
              Starpu.STARPU_SCRATCH]
        ++ concat (map (Gather.tile_events src dst dst_h (new_handle tr)
                          (Starpu.mpi_get_rank dst_h))
                       (seq 0 (Z.to_nat (TileTraits.nelems (Tensor.grid src)))))
        ++ [Starpu.EvMpiFlush dst_h]) /\
  (forall (i : nat) (src_h : Starpu.Handle),
     Tensor.tile_handles src !! i = Some src_h ->
     exists a,
       last (Gather.tile_events src dst dst_h (new_handle tr)
               (Starpu.mpi_get_rank dst_h) i)
         = Some (Starpu.EvSubcopy a 0) /\
       Starpu.sc_src a = src_h /\ Starpu.sc_dst a = dst_h /\
       Starpu.sc_dst_start a
         = zip_with Z.mul
             (TileTraits.linear_to_index (Tensor.grid src) (Z.of_nat i))
             (Tensor.basetile_shape src) /\
       Starpu.sc_mode a
         = if Z.of_nat i =? 0 then Starpu.STARPU_W else Starpu.STARPU_RW).
Proof.
  intros gs Hret Hd1 Hshape Hdh Hpos Hnel Hne1 Hgs Hbs Hh.
  split; [|split].
  - intros i Hi. apply iter_tile_index_spec; [done|]. fold gs. lia.
  - rewrite Hnel.
    by apply (gather_async_multi enqueue_ret new_handle src dst dst_h tr).
  - intros i src_h Hsh. unfold Gather.tile_events. rewrite Hsh.
    eexists. split; [by rewrite last_snoc|]. done.
Qed.

Lemma gather_async_tiles_witness :
  let src := {| Tensor.shape := [5; 3]; Tensor.basetile_shape := [2; 2];
                Tensor.grid := TileTraits.of_shape [3; 2];
                Tensor.matrix_shape := [];
                Tensor.tile_handles :=
                  map (fun i => Starpu.mkHandle i (Z.of_nat i mod 3))
                      (seq 0 6) |} in
  let dst := {| Tensor.shape := [5; 3]; Tensor.basetile_shape := [5; 3];
                Tensor.grid := TileTraits.of_shape [1; 1];
                Tensor.matrix_shape := [];
                Tensor.tile_handles := [Starpu.mkHandle 10 0] |} in
  iter_tile_index [3; 2] 4
    = Some (TileTraits.linear_to_index (Tensor.grid src) 4) /\
  fst (Gather.gather_async (fun _ => 0) (fun _ => Starpu.mkHandle 99 0) 0
         src dst []) = Ok tt.
Proof.
  intros src dst.
  destruct (gather_async_tiles (fun _ => 0) (fun _ => Starpu.mkHandle 99 0)
              src dst (Starpu.mkHandle 10 0) []) as (Hidx & Hrun & _);
    try reflexivity.
  - repeat constructor; lia.
  - cbv. discriminate.
  - split; [apply (Hidx 4%nat); reflexivity|].
    cbn [Starpu.mpi_get_rank] in Hrun. by rewrite Hrun.
Defined.

(** *** Checks made before anything is submitted *)

Lemma gather_async_shape_error (enqueue_ret : list Starpu.event -> Z)
    (new_handle : list Starpu.event -> Starpu.Handle) (mpi_rank : Z)
    (src dst : Tensor.t) (tr : list Starpu.event) :
  TileTraits.nelems (Tensor.grid dst) <> 1 \/
  Tensor.shape src <> Tensor.shape dst ->
  exists msg,
    Gather.gather_async enqueue_ret new_handle mpi_rank src dst tr
    = (Throw msg, tr).
Proof.
  intros Hbad. unfold Gather.gather_async.
  destruct (Z.eqb_spec (TileTraits.nelems (Tensor.grid dst)) 1) as [H1|H1];
    cbn [negb]; [|by eexists].
  destruct Hbad as [|Hs]; [done|].
  rewrite bool_decide_eq_false_2 by done. by eexists.
Qed.

Lemma lars_async_shape_error (enqueue_ret : list Starpu.event -> Z)
    (malloc_ok : list Starpu.event -> bool) (T : Starpu.precision)
    (mpi_rank : Z) (num_iter num_steps : Index)
    (gamma_0 momentum weight_decay lars_coefficient : float)
    (grad momentum_buffer p : Tensor.t) (tr : list Starpu.event) :
  Tensor.matrix_shape p <> Tensor.matrix_shape grad \/
  Tensor.matrix_shape p <> Tensor.matrix_shape momentum_buffer ->
  exists msg,
    Lars.lars_tiled_step_async enqueue_ret malloc_ok T mpi_rank num_iter
      num_steps gamma_0 momentum weight_decay lars_coefficient
      grad momentum_buffer p tr
    = (Throw msg, tr).
Proof.
  intros Hbad. unfold Lars.lars_tiled_step_async.
  destruct (decide (Tensor.matrix_shape p = Tensor.matrix_shape grad))
    as [H1|H1].
  - destruct Hbad as [|H2]; [done|].
    rewrite (bool_decide_eq_true_2 _ H1), (bool_decide_eq_false_2 _ H2).
    by eexists.
  - rewrite (bool_decide_eq_false_2 _ H1). by eexists.
Qed.

(** C5.  [gather_async] throws, with the trace of requests unchanged,
    whenever the destination grid has more than one tile or the shapes
    differ, and [lars_tiled_step_async] throws, with the trace unchanged,
    whenever the matrix shapes of parameter, gradient and momentum buffer
    disagree; whenever either function makes any request, its checks have
    passed. *)
Theorem shape_checks_before_submission :
  (forall enqueue_ret new_handle mpi_rank src dst tr,
     TileTraits.nelems (Tensor.grid dst) <> 1 \/
     Tensor.shape src <> Tensor.shape dst ->
     exists msg,
       Gather.gather_async enqueue_ret new_handle mpi_rank src dst tr
       = (Throw msg, tr)) /\
  (forall enqueue_ret malloc_ok T mpi_rank num_iter num_steps
          gamma_0 momentum weight_decay lars_coefficient
          grad momentum_buffer p tr,
     Tensor.matrix_shape p <> Tensor.matrix_shape grad \/
     Tensor.matrix_shape p <> Tensor.matrix_shape momentum_buffer ->
     exists msg,
       Lars.lars_tiled_step_async enqueue_ret malloc_ok T mpi_rank num_iter
         num_steps gamma_0 momentum weight_decay lars_coefficient
         grad momentum_buffer p tr
       = (Throw msg, tr)) /\
  (forall enqueue_ret new_handle mpi_rank src dst tr,
     snd (Gather.gather_async enqueue_ret new_handle mpi_rank src dst tr)
       <> tr ->
     TileTraits.nelems (Tensor.grid dst) = 1 /\
     Tensor.shape src = Tensor.shape dst) /\
  (forall enqueue_ret malloc_ok T mpi_rank num_iter num_steps
          gamma_0 momentum weight_decay lars_coefficient
          grad momentum_buffer p tr,
     snd (Lars.lars_tiled_step_async enqueue_ret malloc_ok T mpi_rank
            num_iter num_steps gamma_0 momentum weight_decay
            lars_coefficient grad momentum_buffer p tr) <> tr ->
     Tensor.matrix_shape p = Tensor.matrix_shape grad /\
     Tensor.matrix_shape p = Tensor.matrix_shape momentum_buffer).
Proof.
  split; [|split; [|split]].
  - intros. by apply gather_async_shape_error.
  - intros. by apply lars_async_shape_error.
  - intros enqueue_ret new_handle mpi_rank src dst tr Hchg.
    destruct (decide (TileTraits.nelems (Tensor.grid dst) = 1)) as [H1|H1].
    + destruct (decide (Tensor.shape src = Tensor.shape dst)) as [H2|H2];
        [done|].
      destruct (gather_async_shape_error enqueue_ret new_handle mpi_rank
                  src dst tr) as [msg Hmsg]; [by right|].
      by rewrite Hmsg in Hchg.
    + destruct (gather_async_shape_error enqueue_ret new_handle mpi_rank
                  src dst tr) as [msg Hmsg]; [by left|].
      by rewrite Hmsg in Hchg.
  - intros enqueue_ret malloc_ok T mpi_rank num_iter num_steps
           gamma_0 momentum weight_decay lars_coefficient
           grad momentum_buffer p tr Hchg.
    destruct (decide (Tensor.matrix_shape p = Tensor.matrix_shape grad))
      as [H1|H1].
    + destruct (decide (Tensor.matrix_shape p
                        = Tensor.matrix_shape momentum_buffer)) as [H2|H2];
        [done|].
      destruct (lars_async_shape_error enqueue_ret malloc_ok T mpi_rank
                  num_iter num_steps gamma_0 momentum weight_decay
                  lars_coefficient grad momentum_buffer p tr)
        as [msg Hmsg]; [by right|].
      by rewrite Hmsg in Hchg.
    + destruct (lars_async_shape_error enqueue_ret malloc_ok T mpi_rank
                  num_iter num_steps gamma_0 momentum weight_decay
                  lars_coefficient grad momentum_buffer p tr)
        as [msg Hmsg]; [by left|].
      by rewrite Hmsg in Hchg.
Qed.

Lemma shape_checks_before_submission_witness :
  exists msg,
    Gather.gather_async (fun _ => 0) (fun _ => Starpu.mkHandle 99 0) 0
      {| Tensor.shape := [5; 3]; Tensor.basetile_shape := [2; 2];
         Tensor.grid := TileTraits.of_shape [3; 2];
         Tensor.matrix_shape := [];
         Tensor.tile_handles :=
           map (fun i => Starpu.mkHandle i 0) (seq 0 6) |}
      {| Tensor.shape := [5; 4]; Tensor.basetile_shape := [5; 4];
         Tensor.grid := TileTraits.of_shape [1; 1];
         Tensor.matrix_shape := [];
         Tensor.tile_handles := [Starpu.mkHandle 10 0] |} []
    = (Throw msg, []).
Proof.
  apply (proj1 shape_checks_before_submission). right. discriminate.
Defined.

(** *** Enqueues that report failure *)

Lemma copy_intersection_work_enqueue (enqueue_ret : list Starpu.event -> Z)
    (src : Tile.t) (src_offset : list Index)
    (dst : Tile.t) (dst_offset : list Index) (scratch : Starpu.Handle)
    (tr : list Starpu.event) :
  let res := Copy.copy_intersection_work enqueue_ret src src_offset
               dst dst_offset scratch tr in
  (snd res = tr /\ (fst res = Ok tt \/ fst res = Undefined)) \/
  (exists cl args,
     snd res = tr ++ [Starpu.EvTaskInsert cl args (enqueue_ret tr)] /\
     fst res = if enqueue_ret tr =? 0 then Ok tt else Throw "ret != 0").
Proof.
  intros res. subst res. unfold Copy.copy_intersection_work.
  destruct (Tile.ndim src =? 0).
  - right. unfold Starpu.bind, starpu_task_insert. cbn.
    destruct (enqueue_ret tr =? 0); cbn; by eexists _, _.
  - destruct (Copy.intersect src src_offset dst dst_offset) as [st| |].
    + unfold Starpu.bind, Starpu.access.
      destruct (Copy.words _ (Copy.src_start st)); [|left; cbn; auto].
      destruct (Copy.words _ (Tile.stride src)); [|left; cbn; auto].
      destruct (Copy.words _ (Copy.copy_shape st)); [|left; cbn; auto].
      destruct (Copy.words _ (Copy.dst_start st)); [|left; cbn; auto].
      destruct (Copy.words _ (Tile.stride dst)); [|left; cbn; auto].
      right. cbn. unfold starpu_task_insert.
      destruct (Copy.full_overwrite st), (enqueue_ret tr =? 0); cbn;
        by eexists _, _.
    + left. cbn. auto.
    + left. cbn. auto.
Qed.

(** C6.  Each enqueue is followed at once by the test of its code.
    [copy_intersection_work] either makes no request, or makes exactly one
    [starpu_task_insert] and then throws when the code is not zero and
    returns when it is zero; [submit] of [lars_tiled_step], once its
    argument block is allocated, makes exactly one [starpu_task_insert] and
    does the same; the single-tile path of [gather_async], on the node that
    owns the destination, throws right after a [starpu_data_cpy] whose code
    is not zero, and after one whose code is zero it flushes and returns. *)
Theorem enqueue_failure_raises :
  (forall enqueue_ret src src_offset dst dst_offset scratch tr,
     let res := Copy.copy_intersection_work enqueue_ret src src_offset
                  dst dst_offset scratch tr in
     (snd res = tr /\ (fst res = Ok tt \/ fst res = Undefined)) \/
     (exists cl args,
        snd res = tr ++ [Starpu.EvTaskInsert cl args (enqueue_ret tr)] /\
        fst res = if enqueue_ret tr =? 0 then Ok tt else Throw "ret != 0"))
  /\
  (forall enqueue_ret malloc_ok T num_iter num_elems num_steps
          gamma_0 momentum weight_decay lars_coefficient
          grad momentum_buffer p tr,
     Lars.submit enqueue_ret malloc_ok T num_iter num_elems num_steps
       gamma_0 momentum weight_decay lars_coefficient
       grad momentum_buffer p tr
     = if malloc_ok tr then
         (if enqueue_ret tr =? 0 then Ok tt
          else Throw "Error in lars_tiled_step task submission",
          tr ++ [Starpu.EvTaskInsert (Starpu.codelet_lars_tiled_step T)
                   [ Starpu.Buffer Starpu.STARPU_R grad;
                     Starpu.Buffer
                       (if num_iter =? 1 then Starpu.STARPU_W
                        else Starpu.STARPU_RW) momentum_buffer;
                     Starpu.Buffer Starpu.STARPU_RW p;
                     Starpu.ClArgs
                       (Starpu.mkLarsArgs num_iter num_elems num_steps
                          gamma_0 momentum weight_decay lars_coefficient) ]
                   (enqueue_ret tr)])
       else (Undefined, tr))
  /\
  (forall enqueue_ret new_handle src dst src_h dst_h tr,
     TileTraits.nelems (Tensor.grid dst) = 1 ->
     Tensor.shape src = Tensor.shape dst ->
     TileTraits.nelems (Tensor.grid src) = 1 ->
     Tensor.tile_handles dst !! 0%nat = Some dst_h ->
     Tensor.tile_handles src !! 0%nat = Some src_h ->
     let rank := Starpu.mpi_get_rank dst_h in
     let tr1 :=
       tr ++ (if Starpu.mpi_get_rank src_h =? rank then []
              else [Starpu.EvMpiTransfer src_h rank rank]) in
     let r := enqueue_ret tr1 in
     Gather.gather_async enqueue_ret new_handle rank src dst tr
     = if r =? 0
       then (Ok tt,
             tr1 ++ [Starpu.EvDataCpy dst_h src_h r; Starpu.EvMpiFlush dst_h])
       else (Throw "Error in starpu_data_cpy",
             tr1 ++ [Starpu.EvDataCpy dst_h src_h r])).
Proof.
  split; [|split].
  - intros. apply copy_intersection_work_enqueue.
  - intros. unfold Lars.submit, Starpu.bind, starpu_task_insert.
    destruct (malloc_ok tr); cbn; [|done].
    by destruct (enqueue_ret tr =? 0).
  - intros enqueue_ret new_handle src dst src_h dst_h tr
           Hd1 Hshape Hs1 Hdh Hsh rank tr1 r.
    unfold Gather.gather_async. rewrite Hd1, Hs1. cbn [Z.eqb Pos.eqb negb].
    rewrite bool_decide_eq_true_2 by done. cbn [negb].
    rewrite (bind_access_Some _ dst_h)
      by (unfold Tensor.get_tile_handle; by rewrite (zget_nat _ 0)).
    rewrite (bind_access_Some _ src_h)
      by (unfold Tensor.get_tile_handle; by rewrite (zget_nat _ 0)).
    unfold Starpu.bind at 1. rewrite mpi_transfer_run. fold rank tr1.
    rewrite Z.eqb_refl. unfold Starpu.bind, starpu_data_cpy. fold r.
    destruct (r =? 0); cbn; [|done].
    unfold mpi_flush, Starpu.emit. by rewrite <- app_assoc.
Qed.

Lemma enqueue_failure_raises_witness :
  Gather.gather_async (fun _ => 7) (fun _ => Starpu.mkHandle 99 0) 0
    {| Tensor.shape := [5; 3]; Tensor.basetile_shape := [5; 3];
       Tensor.grid := TileTraits.of_shape [1; 1];
       Tensor.matrix_shape := [];
       Tensor.tile_handles := [Starpu.mkHandle 1 1] |}
    {| Tensor.shape := [5; 3]; Tensor.basetile_shape := [5; 3];
       Tensor.grid := TileTraits.of_shape [1; 1];
       Tensor.matrix_shape := [];
       Tensor.tile_handles := [Starpu.mkHandle 10 0] |} []
  = (Throw "Error in starpu_data_cpy",
     [Starpu.EvMpiTransfer (Starpu.mkHandle 1 1) 0 0;
      Starpu.EvDataCpy (Starpu.mkHandle 10 0) (Starpu.mkHandle 1 1) 7]).
Proof.
  apply (proj2 (proj2 enqueue_failure_raises) (fun _ => 7)
           (fun _ => Starpu.mkHandle 99 0) _ _
           (Starpu.mkHandle 1 1) (Starpu.mkHandle 10 0) []);
    reflexivity.
Defined.

(** *** The size of a tile over caller memory *)

Lemma get_size_spec (nelems sizeof_T ptr_nelems : Z) :
  0 <= nelems < 2 ^ 63 -> 1 <= sizeof_T < 2 ^ 64 ->
  TileHH._get_size nelems sizeof_T ptr_nelems
  = if ptr_nelems <? nelems
    then Throw "Required memory size is larger than actually allocated memory"
    else if 2 ^ 64 <=? nelems * sizeof_T
    then Throw "Type size_t is not enough to hold size of provided buffer"
    else Ok (nelems * sizeof_T).
Proof.
  intros Hn Hs. unfold TileHH._get_size, TileHH.to_size_t,
    TileHH.size_t_modulus.
  rewrite (Z.mod_small nelems) by lia.
  destruct (Z.gtb_spec nelems ptr_nelems), (Z.ltb_spec ptr_nelems nelems);
    try lia; [done|].
  destruct (Z.leb_spec (2 ^ 64) (nelems * sizeof_T)) as [Hov|Hov].
  - (* the product wraps around: the quotient is below [nelems] *)
    assert ((nelems * sizeof_T) mod 2 ^ 64 / sizeof_T <> nelems) as Hne.
    { intros Heq.
      pose proof (Z.mod_pos_bound (nelems * sizeof_T) (2 ^ 64) ltac:(lia)) as Hm.
      pose proof (Z.div_mod (nelems * sizeof_T) (2 ^ 64) ltac:(lia)) as Hdm.
      assert (1 <= nelems * sizeof_T / 2 ^ 64)
        by (apply Z.div_le_lower_bound; lia).
      pose proof (Z.mul_div_le ((nelems * sizeof_T) mod 2 ^ 64) sizeof_T
                    ltac:(lia)) as Hle.
      rewrite Heq in Hle. nia. }
    destruct (Z.eqb_spec ((nelems * sizeof_T) mod 2 ^ 64 / sizeof_T) nelems);
      [done|done].
  - rewrite (Z.mod_small (nelems * sizeof_T)) by nia.
    rewrite Z.div_mul by lia. by rewrite Z.eqb_refl.
Qed.

(** C10.  For a tile of [nelems] elements, [0 <= nelems < 2^63], and an
    element size [1 <= sizeof(T) < 2^64], the constructor over caller memory
    throws, having registered no handle, exactly when [ptr_nelems] is
    smaller than [nelems] or [nelems * sizeof(T)] does not fit in
    [std::size_t]; otherwise it registers one handle of exactly
    [nelems * sizeof(T)] bytes with ReadWrite access and returns the tile. *)
Theorem Tile_over_buffer (new_handle : list Starpu.event -> Starpu.Handle)
    (sizeof_T : Z) (traits : TileTraits.t) (ptr_nelems : Index)
    (tr : list Starpu.event) :
  0 <= TileTraits.nelems traits < 2 ^ 63 -> 1 <= sizeof_T < 2 ^ 64 ->
  ((exists msg,
      TileHH.Tile new_handle sizeof_T traits ptr_nelems tr = (Throw msg, tr))
   <-> (ptr_nelems < TileTraits.nelems traits \/
        2 ^ 64 <= TileTraits.nelems traits * sizeof_T)) /\
  (~ (ptr_nelems < TileTraits.nelems traits \/
      2 ^ 64 <= TileTraits.nelems traits * sizeof_T) ->
   TileHH.Tile new_handle sizeof_T traits ptr_nelems tr
   = (Ok {| Tile.traits := traits; Tile.handle := new_handle tr |},
      tr ++ [Starpu.EvVariableHandle (new_handle tr)
               (TileTraits.nelems traits * sizeof_T) Starpu.STARPU_RW])).
Proof.
  intros Hn Hs. unfold TileHH.Tile. rewrite get_size_spec by done.
  destruct (Z.ltb_spec ptr_nelems (TileTraits.nelems traits)) as [H1|H1].
  - split; [|intros Hno; exfalso; apply Hno; by left].
    split; [by left|]. intros _. by eexists.
  - destruct (Z.leb_spec (2 ^ 64) (TileTraits.nelems traits * sizeof_T))
      as [H2|H2].
    + split; [|intros Hno; exfalso; apply Hno; by right].
      split; [by right|]. intros _. by eexists.
    + split; [|done].
      split; [|lia]. intros [msg Hmsg]. by cbv in Hmsg.
Qed.

Lemma Tile_over_buffer_witness :
  TileHH.Tile (fun _ => Starpu.mkHandle 5 0) 8 (TileTraits.of_shape [3; 4]) 12 []
  = (Ok {| Tile.traits := TileTraits.of_shape [3; 4];
           Tile.handle := Starpu.mkHandle 5 0 |},
     [Starpu.EvVariableHandle (Starpu.mkHandle 5 0) 96 Starpu.STARPU_RW]).
Proof.
  apply (proj2 (Tile_over_buffer (fun _ => Starpu.mkHandle 5 0) 8
                  (TileTraits.of_shape [3; 4]) 12 []
                  ltac:(cbn; lia) ltac:(lia))).
  cbn. lia.
Defined.

(** *** [maxsumexp]: binary64 facts *)

Lemma Prim2SF_neg_infinity : Prim2SF neg_infinity = S754_infinity true.
Proof. reflexivity. Qed.

Lemma masked_eq (x : float) : Maxsumexp.masked x = true -> x = neg_infinity.
Proof.
  unfold Maxsumexp.masked. rewrite FloatAxioms.eqb_spec, Prim2SF_neg_infinity.
  intros H. apply Prim2SF_inj. rewrite Prim2SF_neg_infinity.
  unfold SFeqb, SFcompare in H.
  destruct (Prim2SF x) as [[|]| [|] | |[|] ? ?]; try done.
Qed.

(** A finite number is a zero or a number with a mantissa. *)
Lemma is_finite_cases (x : float) :
  is_finite x = true ->
  (exists s, Prim2SF x = S754_zero s) \/
  (exists s m e, Prim2SF x = S754_finite s m e).
Proof.
  unfold is_finite, is_nan, is_infinity.
  rewrite !FloatAxioms.eqb_spec, FloatAxioms.abs_spec.
  destruct (Prim2SF x) as [s| s | |s m e] eqn:E; [eauto| | |eauto 6].
  - intros H. exfalso. by destruct s; cbn in H.
  - intros H. exfalso. by cbn in H.
Qed.

Lemma finite_not_infinity (x : float) :
  is_finite x = true -> is_infinity x = false.
Proof.
  intros H. unfold is_finite in H.
  destruct (is_infinity x); [by rewrite orb_true_r in H|done].
Qed.

Lemma finite_above_neg_infinity (x : float) :
  is_finite x = true -> (neg_infinity <? x)%float = true.
Proof.
  intros H. rewrite FloatAxioms.ltb_spec, Prim2SF_neg_infinity.
  destruct (is_finite_cases x H) as [[s ->]|(s & m & e & ->)]; done.
Qed.

Lemma neg_infinity_minus_finite (x : float) :
  is_finite x = true -> (neg_infinity - x)%float = neg_infinity.
Proof.
  intros H. apply Prim2SF_inj. rewrite FloatAxioms.sub_spec, Prim2SF_neg_infinity.
  destruct (is_finite_cases x H) as [[s ->]|(s & m & e & ->)]; done.
Qed.

Lemma finite_not_masked (x : float) :
  is_finite x = true -> Maxsumexp.masked x = false.
Proof.
  intros H. destruct (Maxsumexp.masked x) eqn:E; [|done].
  apply masked_eq in E. subst x. by vm_compute in H.
Qed.

(** *** [maxsumexp]: one slice *)

Section SliceFacts.

Variable exp : float -> float.

(** A masked element leaves the running maximum and sum as they are. *)
Lemma slice_step_masked (st : float * float) (x : float) :
  Maxsumexp.masked x = true -> Maxsumexp.slice_step exp st x = st.
Proof.
  intros H. apply masked_eq in H. subst x. by destruct st.
Qed.

Lemma unmasked_cons (x : float) (rest : list float) :
  Maxsumexp.unmasked (x :: rest)
  = if Maxsumexp.masked x then Maxsumexp.unmasked rest
    else x :: Maxsumexp.unmasked rest.
Proof.
  unfold Maxsumexp.unmasked. cbn [filter list_filter].
  destruct (Maxsumexp.masked x).
  - rewrite decide_False; [done|]. cbn. by intros [].
  - by rewrite decide_True.
Qed.

Lemma fold_slice_step_unmasked (rest : list float) (st : float * float) :
  fold_left (Maxsumexp.slice_step exp) rest st
  = fold_left (Maxsumexp.slice_step exp) (Maxsumexp.unmasked rest) st.
Proof.
  revert st. induction rest as [|x rest IH]; intros st; [done|].
  cbn [fold_left]. rewrite unmasked_cons.
  destruct (Maxsumexp.masked x) eqn:E.
  - rewrite slice_step_masked by done. apply IH.
  - cbn [fold_left]. apply IH.
Qed.

(** Nothing is written for a running maximum that is still masked. *)
Lemma accumulate_masked (sum : float) (acc : float * float) :
  Maxsumexp.accumulate exp (neg_infinity, sum) acc = acc.
Proof. by destruct acc. Qed.

(** The slice with and without its masked elements. *)
Lemma slice_update_unmasked (slice : list float) (acc : float * float) :
  exp neg_infinity = 0%float ->
  (forall x, head slice = Some x -> Maxsumexp.masked x = true ->
     forall v, head (Maxsumexp.unmasked slice) = Some v ->
       is_finite v = true) ->
  Maxsumexp.slice_update exp slice acc
  = Maxsumexp.slice_update exp (Maxsumexp.unmasked slice) acc.
Proof.
  intros Hexp Hfirst. destruct slice as [|x0 rest]; [done|].
  unfold Maxsumexp.slice_update at 1. cbn [Maxsumexp.reduce].
  rewrite fold_slice_step_unmasked.
  specialize (Hfirst x0 eq_refl). rewrite unmasked_cons in Hfirst |- *.
  destruct (Maxsumexp.masked x0) eqn:E; [|done].
  specialize (Hfirst eq_refl). apply masked_eq in E. subst x0.
  destruct (Maxsumexp.unmasked rest) as [|v rest'].
  - cbn [fold_left]. apply accumulate_masked.
  - specialize (Hfirst v eq_refl).
    unfold Maxsumexp.slice_update. cbn [Maxsumexp.reduce fold_left].
    do 2 f_equal. unfold Maxsumexp.slice_step.
    rewrite finite_not_infinity, finite_above_neg_infinity by done.
    rewrite neg_infinity_minus_finite, Hexp by done. done.
Qed.

End SliceFacts.

(** *** [maxsumexp]: the kernel, entry by entry *)

Lemma zget_insert_eq {A : Type} (a : list A) (i : Index) (x : A) :
  0 <= i < Z.of_nat (length a) -> zget (<[Z.to_nat i := x]> a) i = Some x.
Proof.
  intros Hi. unfold zget. destruct (Z.ltb_spec i 0); [lia|].
  apply list_lookup_insert_eq. lia.
Qed.

Lemma zget_insert_ne {A : Type} (a : list A) (i j : Index) (x : A) :
  0 <= i -> j <> i -> zget (<[Z.to_nat i := x]> a) j = zget a j.
Proof.
  intros Hi Hne. unfold zget. destruct (Z.ltb_spec j 0); [done|].
  apply list_lookup_insert_ne. lia.
Qed.

Lemma is_slice_unique (m k : Index) (src : list float) (i1 i2 : Index)
    (s1 s2 : list float) :
  Maxsumexp.is_slice m k src i1 i2 s1 ->
  Maxsumexp.is_slice m k src i1 i2 s2 -> s1 = s2.
Proof.
  intros [Hl1 H1] [Hl2 H2]. apply list_eq. intros i0.
  destruct (decide (i0 < length s1)%nat) as [Hi|Hi].
  - rewrite H1, H2 by lia. done.
  - rewrite !lookup_ge_None_2; (done || lia).
Qed.

Lemma is_slice_exists (m k : Index) (src : list float) (i1 i2 : Index) :
  0 <= k ->
  (forall i0, 0 <= i0 < k ->
     0 <= i2 * (m * k) + i1 + i0 * m < Z.of_nat (length src)) ->
  exists slice, Maxsumexp.is_slice m k src i1 i2 slice.
Proof.
  intros Hk Hr.
  exists (map (fun i0 : nat =>
                 default 0%float
                   (zget src (i2 * (m * k) + i1 + Z.of_nat i0 * m)))
              (seq 0 (Z.to_nat k))).
  split; [rewrite length_map, length_seq; lia|].
  rewrite length_map, length_seq. intros i0 Hi0.
  rewrite list_lookup_fmap, lookup_seq_lt by done. cbn.
  destruct (zget_in_range src (i2 * (m * k) + i1 + Z.of_nat i0 * m))
    as [v ->]; [apply Hr; lia|done].
Qed.

Section MaxsumexpFacts.

Variable exp : float -> float.

(** The loop over a slice folds [slice_step] over its elements after the
    first. *)
Lemma slice_loop_spec (m k : Index) (src : list float) (i1 i2 : Index)
    (x0 : float) (rest : list float) :
  Maxsumexp.is_slice m k src i1 i2 (x0 :: rest) ->
  zget src (i2 * (m * k) + i1 + 0) = Some x0 /\
  for_range 1 k (Maxsumexp.slice_body exp m src (i2 * (m * k) + i1))
    (x0, 1%float)
  = Some (fold_left (Maxsumexp.slice_step exp) rest (x0, 1%float)).
Proof.
  intros [Hlen Hread]. cbn [length] in Hlen, Hread. split.
  - specialize (Hread 0%nat ltac:(lia)).
    change (Z.of_nat 0 * m) with 0 in Hread. by rewrite <- Hread.
  - pose (Inv := fun (i : Index) (st : float * float) =>
      1 <= i <= k /\
      st = fold_left (Maxsumexp.slice_step exp)
                     (take (Z.to_nat (i - 1)) rest) (x0, 1%float)).
    destruct (for_range_inv Inv
                (Maxsumexp.slice_body exp m src (i2 * (m * k) + i1))
                1 k (x0, 1%float)) as (st & Hrun & Hinv).
    + lia.
    + unfold Inv. split; [lia|]. by rewrite take_0.
    + intros i st Hi [_ Hst].
      assert (exists j, i = Z.of_nat (S j)) as [j ->]
        by (exists (Z.to_nat (i - 1)); lia).
      replace (Z.to_nat (Z.of_nat (S j) - 1)) with j in Hst by lia.
      specialize (Hread (S j) ltac:(lia)).
      change ((x0 :: rest) !! S j) with (rest !! j) in Hread.
      destruct (lookup_lt_is_Some_2 rest j) as [v Hv]; [lia|].
      unfold Maxsumexp.slice_body. rewrite <- Hread, Hv.
      cbn [mbind option_bind].
      eexists. split; [done|]. unfold Inv. split; [lia|].
      replace (Z.to_nat (Z.of_nat (S j) + 1 - 1)) with (S j) by lia.
      rewrite (take_S_r _ _ _ Hv), fold_left_app. cbn [fold_left].
      by rewrite Hst.
    + rewrite Hrun. destruct Hinv as [_ ->]. do 2 f_equal.
      apply take_ge. lia.
Qed.

(** The write-back of one entry. *)
Lemma save_spec (max sum : float) (off : Index) (o : list float)
    (a0 b0 : float) :
  zget o off = Some a0 -> zget o (off + 1) = Some b0 ->
  exists o',
    Maxsumexp.save exp max sum off o = Some o' /\
    length o' = length o /\
    zget o' off = Some (fst (Maxsumexp.accumulate exp (max, sum) (a0, b0))) /\
    zget o' (off + 1)
      = Some (snd (Maxsumexp.accumulate exp (max, sum) (a0, b0))) /\
    forall q, q <> off -> q <> off + 1 -> zget o' q = zget o q.
Proof.
  intros Ha Hb.
  pose proof (zget_Some_range _ _ _ Ha) as Hr0.
  pose proof (zget_Some_range _ _ _ Hb) as Hr1.
  unfold Maxsumexp.save, Maxsumexp.accumulate, Maxsumexp.saved.
  cbn [fst snd].
  destruct (is_infinity max); cbn [negb].
  - exists o. cbn. by repeat split.
  - rewrite Hb. cbn [mbind option_bind].
    destruct (b0 =? 0)%float.
    + rewrite (zset_in_range o off) by lia. cbn [mbind option_bind].
      rewrite zset_in_range by (rewrite length_insert; lia).
      eexists. split; [done|]. cbn [default fst snd].
      rewrite !length_insert. repeat split.
      * rewrite zget_insert_ne by lia. apply zget_insert_eq. lia.
      * apply zget_insert_eq. rewrite length_insert. lia.
      * intros q H0 H1. rewrite !zget_insert_ne by lia. done.
    + rewrite Ha. cbn [mbind option_bind].
      destruct (a0 <? max)%float.
      * rewrite (zset_in_range o off) by lia. cbn [mbind option_bind].
        rewrite zset_in_range by (rewrite length_insert; lia).
        eexists. split; [done|]. cbn [default fst snd].
        rewrite !length_insert. repeat split.
        -- rewrite zget_insert_ne by lia. apply zget_insert_eq. lia.
        -- apply zget_insert_eq. rewrite length_insert. lia.
        -- intros q H0 H1. rewrite !zget_insert_ne by lia. done.
      * rewrite zset_in_range by lia.
        eexists. split; [done|]. cbn [default fst snd].
        rewrite !length_insert. repeat split.
        -- rewrite zget_insert_ne by lia. done.
        -- apply zget_insert_eq. lia.
        -- intros q H0 H1. rewrite !zget_insert_ne by lia. done.
Qed.

End MaxsumexpFacts.

Section MaxsumexpKernel.

Variable exp : float -> float.

Lemma column_body_spec (m n k : Index) (src out o : list float)
    (i1 i2 : Index) :
  1 <= k -> 0 <= i1 < m -> 0 <= i2 < n ->
  Z.of_nat (length src) = m * k * n ->
  Z.of_nat (length out) = 2 * m * n ->
  entries_done exp m k src out (i2 * m + i1) o ->
  exists o',
    Maxsumexp.column_body exp m k src i2 i1 (2 * (i2 * m + i1), o)
    = Some (2 * (i2 * m + (i1 + 1)), o') /\
    entries_done exp m k src out (i2 * m + (i1 + 1)) o'.
Proof.
  intros Hk Hi1 Hi2 Hsrc Hout (Hlen & Hdone & Hrest).
  destruct (is_slice_exists m k src i1 i2) as [slice Hslice]; [lia| |].
  { intros i0 Hi0. rewrite Hsrc. nia. }
  destruct slice as [|x0 rest]; [destruct Hslice as [Hl _]; simpl in Hl; lia|].
  destruct (slice_loop_spec exp m k src i1 i2 x0 rest Hslice) as [Hx0 Hloop].
  set (j := i2 * m + i1) in *.
  assert (0 <= 2 * j /\ 2 * j + 1 < Z.of_nat (length out)) as Hj
    by (unfold j; nia).
  destruct (zget_in_range out (2 * j)) as [a0 Ha0]; [lia|].
  destruct (zget_in_range out (2 * j + 1)) as [b0 Hb0]; [lia|].
  destruct (save_spec exp
              (fst (fold_left (Maxsumexp.slice_step exp) rest (x0, 1%float)))
              (snd (fold_left (Maxsumexp.slice_step exp) rest (x0, 1%float)))
              (2 * j) o a0 b0)
    as (o' & Hsave & Hlen' & Hfst & Hsnd & Hother).
  { rewrite Hrest by lia. done. } { rewrite Hrest by lia. done. }
  exists o'. split.
  - unfold Maxsumexp.column_body. rewrite Hx0. cbn [mbind option_bind].
    rewrite Hloop. cbn [mbind option_bind].
    destruct (fold_left (Maxsumexp.slice_step exp) rest (x0, 1%float))
      as [max sum]. cbn [fst snd] in Hsave. rewrite Hsave.
    cbn [mbind option_bind]. do 2 f_equal. unfold j. lia.
  - split; [lia|]. split.
    + intros i1' i2' slice' Hi1' Hi2' Hlt Hslice'.
      destruct (Z.eq_dec (i2' * m + i1') j) as [Heq|Hne].
      * assert (i2' = i2 /\ i1' = i1) as [-> ->].
        { apply (Z.div_mod_unique m); [lia|lia|]. unfold j in Heq. lia. }
        rewrite (is_slice_unique _ _ _ _ _ _ _ Hslice' Hslice).
        fold j. exists a0, b0. repeat split; try done.
      * destruct (Hdone i1' i2' slice' Hi1' Hi2' ltac:(unfold j in *; lia)
                    Hslice') as (a & b & Ha & Hb & Hoa & Hob).
        exists a, b. repeat split; try done.
        -- rewrite Hother by lia. done.
        -- rewrite Hother by lia. done.
    + intros q Hq. rewrite Hother by (unfold j in *; lia).
      apply Hrest. unfold j in *. lia.
Qed.

(** The kernel returns, and every entry of its output is the update of the
    entry it was given by the slice of that entry. *)
Lemma cpu_spec (m n k : Index) (src out : list float) :
  0 <= m -> 0 <= n -> 1 <= k ->
  Z.of_nat (length src) = m * k * n ->
  Z.of_nat (length out) = 2 * m * n ->
  exists out',
    Maxsumexp.cpu exp m n k src out = Some out' /\
    entries_done exp m k src out (n * m) out'.
Proof.
  intros Hm Hn Hk Hsrc Hout. unfold Maxsumexp.cpu.
  pose (Outer := fun (i2 : Index) (st : Index * list float) =>
    0 <= i2 <= n /\ fst st = 2 * (i2 * m) /\
    entries_done exp m k src out (i2 * m) (snd st)).
  destruct (for_range_inv Outer
              (fun i2 st =>
                 for_range 0 m (Maxsumexp.column_body exp m k src i2) st)
              0 n (0, out)) as ([off out'] & Hrun & Hinv).
  - lia.
  - unfold Outer, entries_done. cbn [fst snd].
    repeat split; try lia; try done.
  - intros i2 [off o] Hi2 (_ & Hoff & Hdone). cbn [fst snd] in Hoff, Hdone.
    subst off.
    pose (Inner := fun (i1 : Index) (st : Index * list float) =>
      0 <= i1 <= m /\ fst st = 2 * (i2 * m + i1) /\
      entries_done exp m k src out (i2 * m + i1) (snd st)).
    destruct (for_range_inv Inner (Maxsumexp.column_body exp m k src i2)
                0 m (2 * (i2 * m), o)) as ([off' o'] & Hrun' & Hinv').
    + lia.
    + unfold Inner. cbn [fst snd]. rewrite Z.add_0_r.
      split; [lia|]. by split.
    + intros i1 [off1 o1] Hi1 (_ & Hoff1 & Hdone1).
      cbn [fst snd] in Hoff1, Hdone1. subst off1.
      destruct (column_body_spec m n k src out o1 i1 i2)
        as (o2 & Hbody & Hdone2); try done; try lia.
      exists (2 * (i2 * m + (i1 + 1)), o2). split; [done|].
      unfold Inner. cbn [fst snd]. split; [lia|]. by split.
    + exists (off', o'). split; [done|].
      destruct Hinv' as (_ & Hoff' & Hdone'). cbn [fst snd] in Hoff', Hdone'.
      unfold Outer. cbn [fst snd].
      replace ((i2 + 1) * m) with (i2 * m + m) by lia.
      split; [lia|]. by split.
  - rewrite Hrun. cbn [mbind option_bind].
    exists out'. split; [done|]. by destruct Hinv as (_ & _ & Hdone).
Qed.

End MaxsumexpKernel.

(** C8, as amended.  Let [std::exp] map negative infinity to zero.  The
    kernel returns, and for every output entry: if every element of its
    slice is negative infinity the entry is left as it was; and if the slice
    does not begin with negative infinity, or its first element other than
    negative infinity is finite, the entry written is the one computed from
    only the elements of the slice that are not negative infinity. *)
Theorem maxsumexp_masked (exp : float -> float) (m n k : Index)
    (src out : list float) :
  exp neg_infinity = 0%float ->
  0 <= m -> 0 <= n -> 1 <= k ->
  Z.of_nat (length src) = m * k * n ->
  Z.of_nat (length out) = 2 * m * n ->
  exists out',
    Maxsumexp.cpu exp m n k src out = Some out' /\
    length out' = length out /\
    forall i1 i2 slice,
      0 <= i1 < m -> 0 <= i2 < n ->
      Maxsumexp.is_slice m k src i1 i2 slice ->
      exists a0 b0,
        zget out (2 * (i2 * m + i1)) = Some a0 /\
        zget out (2 * (i2 * m + i1) + 1) = Some b0 /\
        (Forall (fun x => x = neg_infinity) slice ->
         zget out' (2 * (i2 * m + i1)) = Some a0 /\
         zget out' (2 * (i2 * m + i1) + 1) = Some b0) /\
        ((forall x, head slice = Some x -> x = neg_infinity ->
            forall v, head (Maxsumexp.unmasked slice) = Some v ->
              is_finite v = true) ->
         zget out' (2 * (i2 * m + i1))
           = Some (fst (Maxsumexp.slice_update exp
                          (Maxsumexp.unmasked slice) (a0, b0))) /\
         zget out' (2 * (i2 * m + i1) + 1)
           = Some (snd (Maxsumexp.slice_update exp
                          (Maxsumexp.unmasked slice) (a0, b0)))).
Proof.
  intros Hexp Hm Hn Hk Hsrc Hout.
  destruct (cpu_spec exp m n k src out) as (out' & Hrun & Hlen & Hdone & _);
    try done.
  exists out'. split; [done|]. split; [done|].
  intros i1 i2 slice Hi1 Hi2 Hslice.
  destruct (Hdone i1 i2 slice) as (a0 & b0 & Ha0 & Hb0 & Hfst & Hsnd);
    try done; [lia|nia|].
  exists a0, b0. split; [done|]. split; [done|].
  assert ((forall x, head slice = Some x -> x = neg_infinity ->
             forall v, head (Maxsumexp.unmasked slice) = Some v ->
               is_finite v = true) ->
          Maxsumexp.slice_update exp slice (a0, b0)
          = Maxsumexp.slice_update exp (Maxsumexp.unmasked slice) (a0, b0))
    as Hmask.
  { intros Hfirst. apply slice_update_unmasked; [done|].
    intros x Hx Hmx. apply (Hfirst x Hx). by apply masked_eq. }
  split.
  - intros Hall.
    assert (Maxsumexp.unmasked slice = []) as Hnil.
    { clear -Hall. induction Hall as [|x l Hx _ IH]; [done|].
      rewrite unmasked_cons, Hx.
      by change (Maxsumexp.masked neg_infinity) with true. }
    rewrite Hmask in Hfst, Hsnd by (rewrite Hnil; by intros).
    rewrite Hnil in Hfst, Hsnd. done.
  - intros Hfirst. by rewrite Hmask in Hfst, Hsnd.
Qed.

Lemma maxsumexp_masked_witness :
  exists out',
    Maxsumexp.cpu
      (fun x => if (x =? neg_infinity)%float then 0%float else 1%float)
      2 1 2 [neg_infinity; 3%float; 1%float; 2%float]
      [0%float; 0%float; 5%float; 1%float] = Some out' /\
    length out' = 4%nat.
Proof.
  destruct (maxsumexp_masked
              (fun x => if (x =? neg_infinity)%float then 0%float else 1%float)
              2 1 2 [neg_infinity; 3%float; 1%float; 2%float]
              [0%float; 0%float; 5%float; 1%float])
    as (out' & Hrun & Hlen & _); try reflexivity; try lia.
  exists out'. split; [exact Hrun|exact Hlen].
Defined.

(** C8 as stated fails for a slice that begins with negative infinity and
    goes on with positive infinity: whatever [std::exp] is, the kernel
    writes the maximum [1] for the slice [-inf, +inf, 1], and writes nothing
    for the slice [+inf, 1] of its elements other than negative infinity. *)
Lemma maxsumexp_masked_head_counterexample :
  ~ (exists exp : float -> float,
       Maxsumexp.cpu exp 1 1 3 [neg_infinity; infinity; 1%float]
                     [0%float; 0%float]
       = Maxsumexp.cpu exp 1 1 2 [infinity; 1%float] [0%float; 0%float]).
Proof.
  intros [exp H].
  apply (f_equal (fun o => match o with
                           | Some (x :: _) => (x =? 0)%float
                           | _ => true
                           end)) in H.
  vm_compute in H. discriminate.
Qed.

(** *** The copy kernel: round trip, composition and the empty box *)

Section CopyKernelCompose.

Context {T : Type}.

(** Two buffers of one length that agree at every offset are equal. *)
Lemma zget_ext (a b : list T) :
  length a = length b -> (forall q, zget a q = zget b q) -> a = b.
Proof.
  intros Hlen H. apply list_eq. intros k. rewrite <- !zget_nat. apply H.
Qed.

(** X1.  For two buffers [src] and [dst] that share no memory, copying a box
    from [src] to [dst] and then the same box back from the result to [src]
    leaves [src] as it was. *)
Theorem copy_there_and_back
    (src_shape dst_shape src_start copy_shape dst_start : list Index)
    (src dst : list T) (scratch scratch' : list Index) :
  copy_shape <> [] ->
  fits src_start copy_shape src_shape ->
  fits dst_start copy_shape dst_shape ->
  Z.of_nat (length src) = prod_shape src_shape ->
  Z.of_nat (length dst) = prod_shape dst_shape ->
  length scratch = (2 * length copy_shape)%nat ->
  length scratch' = (2 * length copy_shape)%nat ->
  exists dst1,
    Copy.cpu_copy_intersection_on (Z.of_nat (length copy_shape))
      src_start (col_major_strides src_shape) copy_shape
      dst_start (col_major_strides dst_shape) (Copy.Distinct src dst) scratch
    = Some (Copy.Distinct src dst1) /\
    Copy.cpu_copy_intersection_on (Z.of_nat (length copy_shape))
      dst_start (col_major_strides dst_shape) copy_shape
      src_start (col_major_strides src_shape) (Copy.Distinct dst1 src) scratch'
    = Some (Copy.Distinct dst1 src).
Proof.
  intros Hne Hfs Hfd Hsrc Hdst Hscr Hscr'.
  destruct (kernel_spec src_shape dst_shape src_start copy_shape dst_start
              src dst scratch) as (d1 & Hk1 & _ & Hlen1 & Hin1 & _); try done.
  destruct (kernel_spec dst_shape src_shape dst_start copy_shape src_start
              d1 src scratch') as (s2 & Hk2 & _ & Hlen2 & Hin2 & Hout2);
    try done; [by rewrite Hlen1|].
  exists d1. rewrite !cpu_copy_intersection_on_Distinct, Hk1, Hk2.
  cbn [mbind option_bind]. split; [done|]. do 2 f_equal.
  apply zget_ext; [done|]. intros q.
  destruct (in_dec Z.eq_dec q
              (map (fun p => index_to_linear (of_shape src_shape)
                                             (vadd src_start p))
                   (box copy_shape))) as [Hq|Hq].
  - apply in_map_iff in Hq as (p & <- & Hp).
    destruct (Hin1 p Hp) as (v1 & Hs1 & Hd1).
    destruct (Hin2 p Hp) as (v2 & Hs2 & Hd2). congruence.
  - by apply Hout2.
Qed.

(** X2.  For three buffers no two of which share memory, copying a box from
    [src] into [mid] and from there into [dst] gives the destination that
    copying the box from [src] into [dst] gives. *)
Theorem copy_through
    (src_shape mid_shape dst_shape : list Index)
    (src_start mid_start dst_start copy_shape : list Index)
    (src mid dst : list T) (scratch1 scratch2 scratch3 : list Index) :
  copy_shape <> [] ->
  fits src_start copy_shape src_shape ->
  fits mid_start copy_shape mid_shape ->
  fits dst_start copy_shape dst_shape ->
  Z.of_nat (length src) = prod_shape src_shape ->
  Z.of_nat (length mid) = prod_shape mid_shape ->
  Z.of_nat (length dst) = prod_shape dst_shape ->
  length scratch1 = (2 * length copy_shape)%nat ->
  length scratch2 = (2 * length copy_shape)%nat ->
  length scratch3 = (2 * length copy_shape)%nat ->
  exists mid1 dst1,
    Copy.cpu_copy_intersection_on (Z.of_nat (length copy_shape))
      src_start (col_major_strides src_shape) copy_shape
      mid_start (col_major_strides mid_shape) (Copy.Distinct src mid) scratch1
    = Some (Copy.Distinct src mid1) /\
    Copy.cpu_copy_intersection_on (Z.of_nat (length copy_shape))
      mid_start (col_major_strides mid_shape) copy_shape
      dst_start (col_major_strides dst_shape) (Copy.Distinct mid1 dst) scratch2
    = Some (Copy.Distinct mid1 dst1) /\
    Copy.cpu_copy_intersection_on (Z.of_nat (length copy_shape))
      src_start (col_major_strides src_shape) copy_shape
      dst_start (col_major_strides dst_shape) (Copy.Distinct src dst) scratch3
    = Some (Copy.Distinct src dst1).
Proof.
  intros Hne Hfs Hfm Hfd Hsrc Hmid Hdst Hs1 Hs2 Hs3.
  destruct (kernel_spec src_shape mid_shape src_start copy_shape mid_start
              src mid scratch1) as (m1 & Hk1 & _ & Hlen1 & Hin1 & _); try done.
  destruct (kernel_spec mid_shape dst_shape mid_start copy_shape dst_start
              m1 dst scratch2) as (d2 & Hk2 & _ & Hlen2 & Hin2 & Hout2);
    try done; [by rewrite Hlen1|].
  destruct (kernel_spec src_shape dst_shape src_start copy_shape dst_start
              src dst scratch3) as (d3 & Hk3 & _ & Hlen3 & Hin3 & Hout3);
    try done.
  exists m1, d2. rewrite !cpu_copy_intersection_on_Distinct, Hk1, Hk2, Hk3.
  cbn [mbind option_bind]. split; [done|]. split; [done|]. do 2 f_equal.
  apply zget_ext; [congruence|]. intros q.
  destruct (in_dec Z.eq_dec q
              (map (fun p => index_to_linear (of_shape dst_shape)
                                             (vadd dst_start p))
                   (box copy_shape))) as [Hq|Hq].
  - apply in_map_iff in Hq as (p & <- & Hp).
    destruct (Hin1 p Hp) as (v1 & Ha1 & Hb1).
    destruct (Hin2 p Hp) as (v2 & Ha2 & Hb2).
    destruct (Hin3 p Hp) as (v3 & Ha3 & Hb3). congruence.
  - rewrite Hout3, Hout2; done.
Qed.

End CopyKernelCompose.

(** X4.  The kernel copies the element at the two start offsets before its main
    loop, whatever the copy shape is: for a copy shape whose product is at
    most one, an empty box included, that one assignment is all it does. *)
Theorem cpu_copy_intersection_small_box {T : Type}
    (src_start src_stride copy_shape dst_start dst_stride : list Index)
    (src dst : list T) (scratch : list Index) :
  copy_shape <> [] ->
  length src_start = length copy_shape ->
  length dst_start = length copy_shape ->
  length src_stride = length copy_shape ->
  length dst_stride = length copy_shape ->
  src_stride !! 0%nat = Some 1 -> dst_stride !! 0%nat = Some 1 ->
  length scratch = (2 * length copy_shape)%nat ->
  prod_shape copy_shape <= 1 ->
  Copy.cpu_copy_intersection (Z.of_nat (length copy_shape))
    src_start src_stride copy_shape dst_start dst_stride src dst scratch
  = (v ← zget src (dot src_stride src_start);
     zset dst (dot dst_stride dst_start) v).
Proof.
  intros Hne Hss Hds Hts Htd Ht0 Hd0 Hscr Hprod.
  unfold Copy.cpu_copy_intersection, Copy.cpu_copy_intersection_on.
  rewrite init_loop_spec by done. cbn [mbind option_bind].
  destruct src_start as [|s0 ss]; [by destruct copy_shape|].
  destruct dst_start as [|d0 ds]; [by destruct copy_shape|].
  change (zget (s0 :: ss) 0) with (Some s0).
  change (zget (d0 :: ds) 0) with (Some d0). cbn [mbind option_bind].
  rewrite <- Hts.
  rewrite (offset_loop_spec (s0 :: ss) src_stride (d0 :: ds) dst_stride s0 d0)
    by (try done; congruence).
  cbn [mbind option_bind]. unfold Copy.copy_one. cbn [Copy.src_offset
    Copy.dst_offset Copy.bufs Copy.scratch Copy.read_src Copy.write_dst].
  destruct (zget src (dot src_stride (s0 :: ss))) as [v|]; [|done].
  cbn [mbind option_bind].
  destruct (zset dst (dot dst_stride (d0 :: ds)) v) as [d'|]; [|done].
  cbn [mbind option_bind]. unfold for_range.
  replace (Z.to_nat (prod_shape copy_shape - 1)) with 0%nat by lia.
  done.
Qed.

Lemma copy_there_and_back_witness :
  exists dst1,
    Copy.cpu_copy_intersection_on 2 [1; 2] [1; 4] [2; 3] [1; 0] [1; 3]
      (Copy.Distinct (map Z.of_nat (seq 0 20)) (repeat (-1) 12)) [7; 7; 7; 7]
    = Some (Copy.Distinct (map Z.of_nat (seq 0 20)) dst1) /\
    Copy.cpu_copy_intersection_on 2 [1; 0] [1; 3] [2; 3] [1; 2] [1; 4]
      (Copy.Distinct dst1 (map Z.of_nat (seq 0 20))) [0; 0; 0; 0]
    = Some (Copy.Distinct dst1 (map Z.of_nat (seq 0 20))).
Proof.
  apply (copy_there_and_back (T := Z)
           [4; 5] [3; 4] [1; 2] [2; 3] [1; 0]
           (map Z.of_nat (seq 0 20)) (repeat (-1) 12) [7; 7; 7; 7] [0; 0; 0; 0]);
    [done|simpl; lia|simpl; lia|reflexivity..].
Defined.

Lemma copy_through_witness :
  exists mid1 dst1,
    Copy.cpu_copy_intersection_on 2 [1; 2] [1; 4] [2; 3] [0; 0] [1; 2]
      (Copy.Distinct (map Z.of_nat (seq 0 20)) (repeat 0 6)) [7; 7; 7; 7]
    = Some (Copy.Distinct (map Z.of_nat (seq 0 20)) mid1) /\
    Copy.cpu_copy_intersection_on 2 [0; 0] [1; 2] [2; 3] [1; 0] [1; 3]
      (Copy.Distinct mid1 (repeat (-1) 12)) [7; 7; 7; 7]
    = Some (Copy.Distinct mid1 dst1) /\
    Copy.cpu_copy_intersection_on 2 [1; 2] [1; 4] [2; 3] [1; 0] [1; 3]
      (Copy.Distinct (map Z.of_nat (seq 0 20)) (repeat (-1) 12)) [0; 0; 0; 0]
    = Some (Copy.Distinct (map Z.of_nat (seq 0 20)) dst1).
Proof.
  apply (copy_through (T := Z)
           [4; 5] [2; 3] [3; 4] [1; 2] [0; 0] [1; 0] [2; 3]
           (map Z.of_nat (seq 0 20)) (repeat 0 6) (repeat (-1) 12)
           [7; 7; 7; 7] [7; 7; 7; 7] [0; 0; 0; 0]);
    [done|simpl; lia|simpl; lia|simpl; lia|reflexivity..].
Defined.

Lemma cpu_copy_intersection_small_box_witness :
  Copy.cpu_copy_intersection 2 [1; 0] [1; 3] [0; 2] [2; 1] [1; 4]
    [10; 11; 12; 13; 14; 15] [0; 0; 0; 0; 0; 0; 0; 0] [7; 7; 7; 7]
  = Some [0; 0; 0; 0; 0; 0; 11; 0].
Proof.
  apply (cpu_copy_intersection_small_box (T := Z)
           [1; 0] [1; 3] [0; 2] [2; 1] [1; 4]
           [10; 11; 12; 13; 14; 15] [0; 0; 0; 0; 0; 0; 0; 0] [7; 7; 7; 7]);
    [done|reflexivity..|simpl; lia].
Defined.

(** *** [copy_intersection_work]: symmetry and global coordinates *)

(** [vadd] is [zip_with Z.add]. *)
Ltac vadd_zip :=
  repeat match goal with
         | |- context [vadd ?a ?b] => change (vadd a b) with (zip_with Z.add a b)
         end.

Lemma in_box_lookup (sh p : list Index) :
  in_box sh p <->
  length sh = length p /\
  forall k n x, sh !! k = Some n -> p !! k = Some x -> 0 <= x < n.
Proof. apply Forall2_same_length_lookup. Qed.

(** One round of the loop for the two orders of the tiles, from states that
    hold each other's vectors: both rounds return, or both continue and
    leave states that hold each other's vectors.  The sums and differences
    are the machine's, so this holds where they wrap around as well. *)
Lemma axis_body_swap (src : Tile.t) (src_offset : list Index)
    (dst : Tile.t) (dst_offset : list Index) (n i : nat)
    (st st' : Copy.axes) (so ssh do dsh : Index) :
  axis_inputs src src_offset dst dst_offset i so ssh do dsh ->
  (i < n)%nat ->
  length (Copy.src_start st) = n -> length (Copy.dst_start st) = n ->
  length (Copy.copy_shape st) = n ->
  Copy.src_start st' = Copy.dst_start st ->
  Copy.dst_start st' = Copy.src_start st ->
  Copy.copy_shape st' = Copy.copy_shape st ->
  (Copy.axis_body src src_offset dst dst_offset (Z.of_nat i) st
     = Copy.Return /\
   Copy.axis_body dst dst_offset src src_offset (Z.of_nat i) st'
     = Copy.Return) \/
  exists s1 s1',
    Copy.axis_body src src_offset dst dst_offset (Z.of_nat i) st
      = Copy.Continue s1 /\
    Copy.axis_body dst dst_offset src src_offset (Z.of_nat i) st'
      = Copy.Continue s1' /\
    length (Copy.src_start s1) = n /\ length (Copy.dst_start s1) = n /\
    length (Copy.copy_shape s1) = n /\
    Copy.src_start s1' = Copy.dst_start s1 /\
    Copy.dst_start s1' = Copy.src_start s1 /\
    Copy.copy_shape s1' = Copy.copy_shape s1.
Proof.
  intros (Hso & Hssh & Hdo & Hdsh) Hi Hl1 Hl2 Hl3 E1 E2 E3.
  unfold Copy.axis_body. rewrite !zget64_nat, Hso, Hssh, Hdo, Hdsh.
  cbn [fmap option_fmap option_map]. rewrite E1, E2, E3.
  pose proof (wrap64_int64 ssh) as Rb. pose proof (wrap64_int64 dsh) as Rd.
  set (a := wrap64 so) in *. set (b := wrap64 ssh) in *.
  set (c := wrap64 do) in *. set (d := wrap64 dsh) in *.
  clearbody a b c d.
  destruct (Z.leb_spec (add64 a b) c), (Z.leb_spec (add64 c d) a);
    try (by left).
  right.
  destruct (Z.ltb_spec a c), (Z.ltb_spec c a); try lia.
  - rewrite !zset_nat by lia. eexists _, _. split; [done|]. split; [done|].
    cbn. by rewrite !length_insert.
  - rewrite !zset_nat by lia. eexists _, _. split; [done|]. split; [done|].
    cbn. by rewrite !length_insert.
  - assert (a = c) as -> by lia.
    assert (sub64 c c = 0) as -> by (unfold sub64; by rewrite Z.sub_diag).
    assert (sub64 b 0 = b) as ->
      by (unfold sub64; rewrite Z.sub_0_r; by apply wrap64_id).
    assert (sub64 d 0 = d) as ->
      by (unfold sub64; rewrite Z.sub_0_r; by apply wrap64_id).
    rewrite !zset_nat by lia. eexists _, _. split; [done|]. split; [done|].
    cbn. rewrite !length_insert. by rewrite (Z.min_comm b d).
Qed.

(** X7.  Exchanging the roles of the two tiles exchanges [src_start] and
    [dst_start] and keeps [copy_shape]; the call returns early for the one
    order exactly when it does for the other. *)
Theorem intersect_swap (src : Tile.t) (src_offset : list Index)
    (dst : Tile.t) (dst_offset : list Index) :
  same_dims src src_offset dst dst_offset ->
  (Copy.intersect src src_offset dst dst_offset = Copy.Return /\
   Copy.intersect dst dst_offset src src_offset = Copy.Return) \/
  (exists st st',
     Copy.intersect src src_offset dst dst_offset = Copy.Continue st /\
     Copy.intersect dst dst_offset src src_offset = Copy.Continue st' /\
     Copy.src_start st' = Copy.dst_start st /\
     Copy.dst_start st' = Copy.src_start st /\
     Copy.copy_shape st' = Copy.copy_shape st).
Proof.
  intros (H1 & H2 & H3).
  unfold Copy.intersect, Tile.ndim, TileTraits.ndim.
  fold (Tile.shape src) (Tile.shape dst).
  rewrite !Nat2Z.id, H2. set (n := length (Tile.shape src)) in *.
  pose (R := fun (i : Index) (st st' : Copy.axes) =>
    length (Copy.src_start st) = n /\ length (Copy.dst_start st) = n /\
    length (Copy.copy_shape st) = n /\
    Copy.src_start st' = Copy.dst_start st /\
    Copy.dst_start st' = Copy.src_start st /\
    Copy.copy_shape st' = Copy.copy_shape st).
  match goal with
  | |- context [Copy.for_axes n 0 ?body ?st0] =>
      destruct (for_axes_sim R body
                  (Copy.axis_body dst dst_offset src src_offset) n 0 st0 st0)
        as [Hret|(t & t' & Ht & Ht' & HR)]
  end.
  - unfold R. cbn. by rewrite !repeat_length.
  - intros i a a' Hi (L1 & L2 & L3 & E1 & E2 & E3).
    assert (exists k, i = Z.of_nat k) as [k ->] by (exists (Z.to_nat i); lia).
    destruct (axis_inputs_exist src src_offset dst dst_offset n k)
      as (so & ssh & do & dsh & Hin); try done; [lia|].
    destruct (axis_body_swap src src_offset dst dst_offset n k a a'
                so ssh do dsh Hin ltac:(lia) L1 L2 L3 E1 E2 E3)
      as [Hret|(s1 & s1' & Hb & Hb' & HR)]; [by left|].
    right. by exists s1, s1'.
  - by left.
  - right. exists t, t'. destruct HR as (_ & _ & _ & HR). done.
Qed.

Lemma intersect_swap_witness :
  (Copy.intersect (Tile.of_shape [4] (Starpu.mkHandle 1 0)) [2]
                  (Tile.of_shape [5] (Starpu.mkHandle 2 0)) [0] = Copy.Return /\
   Copy.intersect (Tile.of_shape [5] (Starpu.mkHandle 2 0)) [0]
                  (Tile.of_shape [4] (Starpu.mkHandle 1 0)) [2] = Copy.Return) \/
  (exists st st',
     Copy.intersect (Tile.of_shape [4] (Starpu.mkHandle 1 0)) [2]
                    (Tile.of_shape [5] (Starpu.mkHandle 2 0)) [0]
       = Copy.Continue st /\
     Copy.intersect (Tile.of_shape [5] (Starpu.mkHandle 2 0)) [0]
                    (Tile.of_shape [4] (Starpu.mkHandle 1 0)) [2]
       = Copy.Continue st' /\
     Copy.src_start st' = Copy.dst_start st /\
     Copy.dst_start st' = Copy.src_start st /\
     Copy.copy_shape st' = Copy.copy_shape st).
Proof.
  apply (intersect_swap (Tile.of_shape [4] (Starpu.mkHandle 1 0)) [2]
           (Tile.of_shape [5] (Starpu.mkHandle 2 0)) [0]).
  by repeat split.
Defined.

Section GlobalCopy.

Import Starpu.

Variable enqueue_ret : list event -> Z.

Context {T : Type}.

(** X8.  For tiles that lie within the range of [Index] and meet on every
    axis, [copy_intersection_work] enqueues a task whose run, on the buffers
    of the two tiles, which share no memory, keeps the source, leaves at
    every global multi-index that lies in both tiles the source's element
    in the destination, and keeps every destination element whose global
    multi-index lies outside the source. *)
Theorem copy_intersection_work_global
    (src : Tile.t) (src_offset : list Index)
    (dst : Tile.t) (dst_offset : list Index) (scratch : Handle)
    (tr : list event) (src_buf dst_buf : list T) (scratch_buf : list Index) :
  Tile.ndim src <> 0 ->
  Tile.stride src = col_major_strides (Tile.shape src) ->
  Tile.stride dst = col_major_strides (Tile.shape dst) ->
  same_dims src src_offset dst dst_offset ->
  no_overflow src src_offset dst dst_offset ->
  (forall k so ssh do dsh,
     axis_inputs src src_offset dst dst_offset k so ssh do dsh ->
     meet so ssh do dsh) ->
  Z.of_nat (length src_buf) = prod_shape (Tile.shape src) ->
  Z.of_nat (length dst_buf) = prod_shape (Tile.shape dst) ->
  length scratch_buf = (2 * length (Tile.shape src))%nat ->
  exists cl args d',
    snd (Copy.copy_intersection_work enqueue_ret src src_offset
           dst dst_offset scratch tr)
      = tr ++ [EvTaskInsert cl args (enqueue_ret tr)] /\
    Copy.run_copy_task_on cl args (Copy.Distinct src_buf dst_buf) scratch_buf
      = Some (Copy.Distinct src_buf d') /\
    length d' = length dst_buf /\
    (forall g,
       in_tile src_offset (Tile.shape src) g ->
       in_tile dst_offset (Tile.shape dst) g ->
       exists v,
         zget src_buf (index_to_linear (Tile.traits src) (vsub g src_offset))
           = Some v /\
         zget d' (index_to_linear (Tile.traits dst) (vsub g dst_offset))
           = Some v) /\
    (forall p,
       in_box (Tile.shape dst) p ->
       ~ in_tile src_offset (Tile.shape src) (vadd dst_offset p) ->
       zget d' (index_to_linear (Tile.traits dst) p)
       = zget dst_buf (index_to_linear (Tile.traits dst) p)).
Proof.
  intros Hnd Hts Htd Hdims Hno Hmeet Hsrc Hdst Hscr.
  pose proof (meet_pass_test _ _ _ _ Hdims Hmeet) as Hpass.
  destruct (intersect_continue _ _ _ _ Hno Hpass) as (st & Hst & Hinv).
  destruct Hinv as (Hl1 & Hl2 & Hl3 & Hval & _).
  destruct (intersect_fits _ _ _ _ _ Hdims Hno Hmeet Hst) as [Hfs Hfd].
  pose proof Hdims as (Hd1 & Hd2 & Hd3).
  set (mode := if Copy.full_overwrite st then STARPU_W else STARPU_RW).
  set (cl := if Copy.full_overwrite st then codelet_copy_w
             else codelet_copy_rw).
  destruct (copy_task_run src src_offset dst dst_offset scratch st mode
              src_buf dst_buf scratch_buf)
    as (d' & Hrun & Hlen & Hin & Hout & _); try done.
  exists cl, (Copy.copy_task_args (Tile.ndim src) st (Tile.stride src)
                (Tile.stride dst) src dst scratch mode), d'.
  split.
  { rewrite (copy_intersection_work_launch enqueue_ret src src_offset dst
               dst_offset scratch tr st); try done.
    - rewrite Hts. apply strides_from_length.
    - rewrite Htd. unfold col_major_strides.
      rewrite strides_from_length. lia. }
  split.
  { rewrite run_copy_task_on_Distinct, Hrun; [done|].
    unfold cl. destruct (Copy.full_overwrite st); tauto. }
  split; [done|].
  (* the data of axis [k] *)
  assert (forall k, (k < length (Tile.shape src))%nat ->
    exists so ssh do dsh,
      axis_inputs src src_offset dst dst_offset k so ssh do dsh /\
      Copy.src_start st !! k = Some (Z.max 0 (do - so)) /\
      Copy.dst_start st !! k = Some (Z.max 0 (so - do)) /\
      Copy.copy_shape st !! k
        = Some (Z.min (so + ssh) (do + dsh) - Z.max so do)) as Haxis.
  { intros k Hk.
    destruct (Hpass k Hk) as (so & ssh & do & dsh & Hinp & _).
    exists so, ssh, do, dsh. split; [done|]. by apply Hval. }
  unfold index_to_linear. fold (Tile.stride src). fold (Tile.stride dst).
  split.
  - intros g [Hg1 Hgs] [_ Hgd].
    apply in_box_lookup in Hgs as [Hgs1 Hgs], Hgd as [Hgd1 Hgd].
    unfold vsub in Hgs1, Hgd1. rewrite length_zip_with in Hgs1, Hgd1.
    set (p := vsub (vsub g src_offset) (Copy.src_start st)).
    assert (length p = length (Tile.shape src)) as Hp.
    { unfold p, vsub. rewrite !length_zip_with. lia. }
    assert (forall k x, p !! k = Some x ->
      exists so ssh do dsh gk,
        axis_inputs src src_offset dst dst_offset k so ssh do dsh /\
        g !! k = Some gk /\ x = gk - so - Z.max 0 (do - so) /\
        so <= gk < so + ssh /\ do <= gk < do + dsh /\
        Copy.src_start st !! k = Some (Z.max 0 (do - so)) /\
        Copy.dst_start st !! k = Some (Z.max 0 (so - do)) /\
        Copy.copy_shape st !! k
          = Some (Z.min (so + ssh) (do + dsh) - Z.max so do)) as Hpk.
    { intros k x Hx.
      assert (k < length (Tile.shape src))%nat as Hk
        by (rewrite <- Hp; by eapply lookup_lt_Some).
      destruct (Haxis k Hk) as (so & ssh & do & dsh & Hinp & Ha & Hb & Hc).
      unfold p, vsub in Hx.
      apply lookup_zip_with_Some in Hx as (y & s & -> & Hy & Hs).
      apply lookup_zip_with_Some in Hy as (gk & o & -> & Hgk & Ho).
      pose proof Hinp as (Hso & Hssh & Hdo & Hdsh).
      assert (o = so) as -> by congruence.
      assert (s = Z.max 0 (do - so)) as -> by congruence.
      pose proof (Hgs k ssh (gk - so) Hssh) as Hr1.
      pose proof (Hgd k dsh (gk - do) Hdsh) as Hr2.
      unfold vsub in Hr1, Hr2. rewrite lookup_zip_with, Hgk in Hr1, Hr2.
      rewrite Hso in Hr1. rewrite Hdo in Hr2.
      specialize (Hr1 eq_refl). specialize (Hr2 eq_refl).
      exists so, ssh, do, dsh, gk. repeat split; try done; lia. }
    assert (in_box (Copy.copy_shape st) p) as Hbox.
    { apply in_box_lookup. split; [lia|]. intros k n x Hn Hx.
      destruct (Hpk k x Hx)
        as (so & ssh & do & dsh & gk & _ & _ & -> & ? & ? & _ & _ & Hc).
      assert (n = Z.min (so + ssh) (do + dsh) - Z.max so do) as ->
        by congruence.
      lia. }
    destruct (Hin p Hbox) as (v & Hv1 & Hv2). exists v.
    assert (vadd (Copy.src_start st) p = vsub g src_offset) as <-.
    { vadd_zip. apply list_eq_pointwise.
      - unfold vsub. rewrite !length_zip_with. lia.
      - intros k Hk. unfold vsub in Hk. rewrite length_zip_with in Hk.
        destruct (lookup_lt_is_Some_2 p k) as [x Hx]; [lia|].
        destruct (Hpk k x Hx)
          as (so & ssh & do & dsh & gk & Hinp & Hgk & -> & _ & _ & Ha & _).
        destruct Hinp as (Hso & _).
        unfold vsub. rewrite !lookup_zip_with, Ha, Hx, Hgk, Hso. cbn.
        f_equal. lia. }
    assert (vadd (Copy.dst_start st) p = vsub g dst_offset) as <-.
    { vadd_zip. apply list_eq_pointwise.
      - unfold vsub. rewrite !length_zip_with. lia.
      - intros k Hk. unfold vsub in Hk. rewrite length_zip_with in Hk.
        destruct (lookup_lt_is_Some_2 p k) as [x Hx]; [lia|].
        destruct (Hpk k x Hx)
          as (so & ssh & do & dsh & gk & Hinp & Hgk & -> & _ & _ & _ & Hb & _).
        destruct Hinp as (_ & _ & Hdo & _).
        unfold vsub. rewrite !lookup_zip_with, Hb, Hx, Hgk, Hdo. cbn.
        f_equal. lia. }
    done.
  - intros p Hp Hout_src. apply Hout. intros p' Hp' Heq.
    apply Hout_src.
    rewrite Htd in Heq. apply dot_col_major_inj in Heq;
      [|done|by eapply fits_vadd_in_box].
    subst p.
    pose proof (in_box_length _ _ Hp') as Hlp.
    split.
    + vadd_zip. rewrite !length_zip_with. lia.
    + replace (vsub (vadd dst_offset (vadd (Copy.dst_start st) p')) src_offset)
        with (vadd (Copy.src_start st) p'); [by eapply fits_vadd_in_box|].
      vadd_zip. unfold vsub. apply list_eq_pointwise.
      * rewrite !length_zip_with. lia.
      * intros k Hk. rewrite !length_zip_with in Hk.
        destruct (Haxis k ltac:(lia))
          as (so & ssh & do & dsh & Hinp & Ha & Hb & _).
        destruct Hinp as (Hso & _ & Hdo & _).
        destruct (lookup_lt_is_Some_2 p' k) as [x Hx]; [lia|].
        rewrite !lookup_zip_with, Ha, Hb, Hx, Hso, Hdo. cbn. f_equal. lia.
Qed.

End GlobalCopy.

Lemma copy_intersection_work_global_witness :
  exists cl args d',
    snd (Copy.copy_intersection_work (fun _ => 0)
           (Tile.of_shape [4] (Starpu.mkHandle 1 0)) [2]
           (Tile.of_shape [5] (Starpu.mkHandle 2 0)) [0]
           (Starpu.mkHandle 3 0) [])
      = [Starpu.EvTaskInsert cl args 0] /\
    Copy.run_copy_task_on cl args
      (Copy.Distinct [10; 11; 12; 13] [0; 0; 0; 0; 0]) [7; 7]
      = Some (Copy.Distinct [10; 11; 12; 13] d') /\
    zget d' 2 = Some 10 /\ zget d' 4 = Some 12.
Proof.
  destruct (copy_intersection_work_global (fun _ => 0) (T := Z)
              (Tile.of_shape [4] (Starpu.mkHandle 1 0)) [2]
              (Tile.of_shape [5] (Starpu.mkHandle 2 0)) [0]
              (Starpu.mkHandle 3 0) []
              [10; 11; 12; 13] [0; 0; 0; 0; 0] [7; 7])
    as (cl & args & d' & Htr & Hrun & _ & Hin & _).
  - cbv. discriminate.
  - reflexivity.
  - reflexivity.
  - repeat split.
  - intros [|k] so ssh do dsh (H1 & H2 & H3 & H4); [|discriminate].
    injection H1 as <-. injection H2 as <-.
    injection H3 as <-. injection H4 as <-.
    unfold axis_in_range, int64. lia.
  - intros [|k] so ssh do dsh (H1 & H2 & H3 & H4); [|discriminate].
    injection H1 as <-. injection H2 as <-.
    injection H3 as <-. injection H4 as <-.
    exists 2. unfold interval. lia.
  - reflexivity.
  - reflexivity.
  - reflexivity.
  - exists cl, args, d'. split; [exact Htr|]. split; [exact Hrun|].
    split.
    + destruct (Hin [2]) as (v & Hv1 & Hv2).
      * split; [reflexivity|]. repeat constructor; cbn; lia.
      * split; [reflexivity|]. repeat constructor; cbn; lia.
      * cbn in Hv1, Hv2. injection Hv1 as <-. exact Hv2.
    + destruct (Hin [4]) as (v & Hv1 & Hv2).
      * split; [reflexivity|]. repeat constructor; cbn; lia.
      * split; [reflexivity|]. repeat constructor; cbn; lia.
      * cbn in Hv1, Hv2. injection Hv1 as <-. exact Hv2.
Defined.

(** *** [Tile]: the allocating constructor *)

(** X13.  The constructor that lets the runtime allocate never throws: it
    registers [nelems*sizeof(T)] modulo [2^64] bytes with mode [STARPU_R].
    That is the size the tile needs exactly when the constructor over
    caller memory accepts a buffer of [nelems] elements; when that one
    throws for overflow, this one registers fewer bytes than the elements
    need. *)
Theorem Tile_allocating (new_handle : list Starpu.event -> Starpu.Handle)
    (sizeof_T : Z) (traits : TileTraits.t) (tr : list Starpu.event) :
  0 <= TileTraits.nelems traits < 2 ^ 63 -> 1 <= sizeof_T < 2 ^ 64 ->
  let need := TileTraits.nelems traits * sizeof_T in
  TileAlloc.Tile new_handle sizeof_T traits tr
  = (Ok {| Tile.traits := traits; Tile.handle := new_handle tr |},
     tr ++ [Starpu.EvVariableHandle (new_handle tr) (need mod 2 ^ 64)
              Starpu.STARPU_R]) /\
  (need mod 2 ^ 64 = need <->
   exists tile,
     TileHH.Tile new_handle sizeof_T traits (TileTraits.nelems traits) tr
     = (Ok tile,
        tr ++ [Starpu.EvVariableHandle (new_handle tr) need
                 Starpu.STARPU_RW])) /\
  (need mod 2 ^ 64 <> need ->
   need mod 2 ^ 64 < need /\
   exists msg,
     TileHH.Tile new_handle sizeof_T traits (TileTraits.nelems traits) tr
     = (Throw msg, tr)).
Proof.
  intros Hn Hs need.
  assert (0 <= need) as Hneed by (unfold need; nia).
  assert (TileHH.to_size_t (TileTraits.nelems traits)
          = TileTraits.nelems traits) as Hconv.
  { unfold TileHH.to_size_t, TileHH.size_t_modulus.
    apply Z.mod_small. lia. }
  pose proof (get_size_spec (TileTraits.nelems traits) sizeof_T
                (TileTraits.nelems traits) Hn Hs) as Hsize.
  rewrite Z.ltb_irrefl in Hsize. fold need in Hsize.
  split; [|split].
  - unfold TileAlloc.Tile. rewrite Hconv. done.
  - unfold TileHH.Tile. rewrite Hsize.
    destruct (Z.leb_spec (2 ^ 64) need) as [Hov|Hok].
    + split.
      * intros Heq. pose proof (Z.mod_pos_bound need (2 ^ 64)). lia.
      * intros [tile Htile]. done.
    + split.
      * intros _. by eexists.
      * intros _. apply Z.mod_small. lia.
  - intros Hne.
    destruct (Z.leb_spec (2 ^ 64) need) as [Hov|Hok].
    + split; [pose proof (Z.mod_pos_bound need (2 ^ 64)); lia|].
      unfold TileHH.Tile. rewrite Hsize.
      destruct (Z.leb_spec (2 ^ 64) need); [|lia]. by eexists.
    + rewrite Z.mod_small in Hne by lia. done.
Qed.

Lemma Tile_allocating_witness :
  TileAlloc.Tile (fun _ => Starpu.mkHandle 5 0) 8
    (TileTraits.of_shape [2 ^ 31; 2 ^ 31]) []
  = (Ok {| Tile.traits := TileTraits.of_shape [2 ^ 31; 2 ^ 31];
           Tile.handle := Starpu.mkHandle 5 0 |},
     [Starpu.EvVariableHandle (Starpu.mkHandle 5 0) 0 Starpu.STARPU_R]).
Proof.
  apply (proj1 (Tile_allocating (fun _ => Starpu.mkHandle 5 0) 8
                  (TileTraits.of_shape [2 ^ 31; 2 ^ 31]) []
                  ltac:(cbn; lia) ltac:(lia))).
Defined.

(** *** [lars_tiled_step_async]: the loop over the tiles *)

Section LarsLoop.

Import Starpu.

Variable enqueue_ret : list event -> Z.
Variable malloc_ok : list event -> bool.

Lemma lars_submit_run (T : precision) (num_iter num_elems num_steps : Index)
    (gamma_0 momentum weight_decay lars_coefficient : float)
    (grad momentum_buffer p : Handle) (tr : list event) :
  Lars.submit enqueue_ret malloc_ok T num_iter num_elems num_steps
    gamma_0 momentum weight_decay lars_coefficient
    grad momentum_buffer p tr
  = if malloc_ok tr then
      (if enqueue_ret tr =? 0 then Ok tt
       else Throw "Error in lars_tiled_step task submission",
       tr ++ [EvTaskInsert (codelet_lars_tiled_step T)
                [ Buffer STARPU_R grad;
                  Buffer (if num_iter =? 1 then STARPU_W else STARPU_RW)
                         momentum_buffer;
                  Buffer STARPU_RW p;
                  ClArgs (mkLarsArgs num_iter num_elems num_steps
                            gamma_0 momentum weight_decay lars_coefficient) ]
                (enqueue_ret tr)])
    else (Undefined, tr).
Proof.
  unfold Lars.submit, bind. destruct (malloc_ok tr); [|done].
  cbn [negb]. unfold starpu_task_insert.
  by destruct (enqueue_ret tr =? 0).
Qed.

(** One round of the loop when every enqueue is accepted. *)
Lemma lars_body_run (T : precision) (mpi_rank : Z)
    (num_iter num_steps : Index)
    (gamma_0 momentum weight_decay lars_coefficient : float)
    (grad momentum_buffer p : Tensor.t) (i : nat) (tr : list event) :
  (forall tr0, enqueue_ret tr0 = 0) ->
  (forall tr0, malloc_ok tr0 = true) ->
  (i < length (Tensor.tile_handles p))%nat ->
  (i < length (Tensor.tile_handles grad))%nat ->
  (i < length (Tensor.tile_handles momentum_buffer))%nat ->
  Lars.lars_body enqueue_ret malloc_ok T mpi_rank num_iter num_steps
    gamma_0 momentum weight_decay lars_coefficient grad momentum_buffer p
    (Z.of_nat i) tt tr
  = (Ok tt,
     tr ++ LarsTrace.tile_requests T mpi_rank num_iter num_steps gamma_0
             momentum weight_decay lars_coefficient grad momentum_buffer p i).
Proof.
  intros Hret Hmalloc Hp Hg Hm.
  destruct (lookup_lt_is_Some_2 _ _ Hp) as [ph Hph].
  destruct (lookup_lt_is_Some_2 _ _ Hg) as [gh Hgh].
  destruct (lookup_lt_is_Some_2 _ _ Hm) as [mh Hmh].
  unfold Lars.lars_body, LarsTrace.tile_requests.
  rewrite (bind_access_Some _ ph)
    by (unfold Tensor.get_tile_handle; by rewrite zget_nat).
  rewrite (bind_access_Some _ gh)
    by (unfold Tensor.get_tile_handle; by rewrite zget_nat).
  rewrite (bind_access_Some _ mh)
    by (unfold Tensor.get_tile_handle; by rewrite zget_nat).
  rewrite Hph, Hgh, Hmh.
  unfold bind at 1. rewrite mpi_transfer_run.
  unfold bind at 1. rewrite mpi_transfer_run.
  unfold bind at 1.
  destruct (mpi_rank =? mpi_get_rank ph).
  - rewrite lars_submit_run, Hmalloc, Hret. cbn [Z.eqb].
    unfold mpi_flush, emit. f_equal. by rewrite <- !app_assoc.
  - unfold ret, mpi_flush, emit. f_equal. by rewrite <- !app_assoc.
Qed.

(** X11.  When the matrix shapes agree, the three tensors have a handle for
    every tile of the grid of [p], and every enqueue is accepted,
    [lars_tiled_step_async] returns after asking, for every tile in order,
    for the transfers of the gradient and momentum tiles to the owner of
    the parameter tile, the task on that owner only (the momentum tile
    write-only exactly when [num_iter] is one, the element count that of
    the tile) and the flush of the parameter tile. *)
Theorem lars_tiled_step_async_requests (T : precision) (mpi_rank : Z)
    (num_iter num_steps : Index)
    (gamma_0 momentum weight_decay lars_coefficient : float)
    (grad momentum_buffer p : Tensor.t) (tr : list event) :
  (forall tr0, enqueue_ret tr0 = 0) ->
  (forall tr0, malloc_ok tr0 = true) ->
  Tensor.matrix_shape p = Tensor.matrix_shape grad ->
  Tensor.matrix_shape p = Tensor.matrix_shape momentum_buffer ->
  TileTraits.nelems (Tensor.grid p)
    = Z.of_nat (length (Tensor.tile_handles p)) ->
  (length (Tensor.tile_handles p) <= length (Tensor.tile_handles grad))%nat ->
  (length (Tensor.tile_handles p)
   <= length (Tensor.tile_handles momentum_buffer))%nat ->
  Lars.lars_tiled_step_async enqueue_ret malloc_ok T mpi_rank num_iter
    num_steps gamma_0 momentum weight_decay lars_coefficient
    grad momentum_buffer p tr
  = (Ok tt,
     tr ++ concat
             (map (LarsTrace.tile_requests T mpi_rank num_iter num_steps
                     gamma_0 momentum weight_decay lars_coefficient
                     grad momentum_buffer p)
                  (seq 0 (length (Tensor.tile_handles p))))).
Proof.
  intros Hret Hmalloc Hs1 Hs2 Hn Hg Hm.
  unfold Lars.lars_tiled_step_async.
  rewrite !bool_decide_eq_true_2 by done. cbn [negb].
  unfold for_rangeM. rewrite Hn, Z.sub_0_r, Nat2Z.id.
  set (req := LarsTrace.tile_requests T mpi_rank num_iter num_steps gamma_0
                momentum weight_decay lars_coefficient grad momentum_buffer p).
  pose (Inv := fun (i : Index) (_ : unit) (tri : list event) =>
    0 <= i /\ tri = tr ++ concat (map req (seq 0 (Z.to_nat i)))).
  match goal with
  | |- for_loopM ?m 0 ?body tt tr = _ =>
      destruct (for_loopM_inv Inv body m 0 tt tr) as ([] & tr2 & Hrun & Hinv)
  end.
  - unfold Inv. cbn. by rewrite app_nil_r.
  - intros i [] tri Hi [_ ->].
    assert (exists k, i = Z.of_nat k) as [k ->] by (exists (Z.to_nat i); lia).
    exists tt. eexists. split.
    { apply lars_body_run; try done; lia. }
    unfold Inv. split; [lia|].
    rewrite <- app_assoc. f_equal.
    replace (Z.to_nat (Z.of_nat k + 1)) with (S k) by lia.
    rewrite Nat2Z.id, seq_S, map_app, concat_app. cbn [map concat].
    by rewrite app_nil_r.
  - rewrite Hrun. destruct Hinv as [_ ->].
    by rewrite Z.add_0_l, Nat2Z.id.
Qed.

End LarsLoop.

Section LarsFailFast.

Import Starpu.

Variable enqueue_ret : list event -> Z.
Variable malloc_ok : list event -> bool.

Lemma throws_bind {A B : Type} (m : M A) (k : A -> M B) (tr : list event) :
  LarsTrace.throws_after_rejection (m tr) ->
  (forall a tr', LarsTrace.throws_after_rejection (k a tr')) ->
  LarsTrace.throws_after_rejection (bind m k tr).
Proof.
  intros Hm Hk. unfold bind.
  destruct (m tr) as [[a|msg|] tr']; [apply Hk| |done].
  intros msg' _. apply (Hm msg eq_refl).
Qed.

Lemma throws_access {A : Type} (o : option A) (tr : list event) :
  LarsTrace.throws_after_rejection (access o tr).
Proof. by destruct o. Qed.

Lemma throws_mpi_transfer (h : Handle) (dst_rank mpi_rank : Z)
    (tr : list event) :
  LarsTrace.throws_after_rejection (mpi_transfer h dst_rank mpi_rank tr).
Proof. by rewrite mpi_transfer_run. Qed.

Lemma throws_for_loopM {St : Type} (body : Index -> St -> M St)
    (n : nat) (lo : Index) (s : St) (tr : list event) :
  (forall i s0 tr0, LarsTrace.throws_after_rejection (body i s0 tr0)) ->
  LarsTrace.throws_after_rejection (for_loopM n lo body s tr).
Proof.
  intros Hbody. revert lo s tr.
  induction n as [|n IH]; intros lo s tr; [done|].
  cbn [for_loopM]. apply throws_bind; [apply Hbody|]. intros a tr'. apply IH.
Qed.

Lemma throws_lars_submit (T : precision)
    (num_iter num_elems num_steps : Index)
    (gamma_0 momentum weight_decay lars_coefficient : float)
    (grad momentum_buffer p : Handle) (tr : list event) :
  LarsTrace.throws_after_rejection
    (Lars.submit enqueue_ret malloc_ok T num_iter num_elems num_steps
       gamma_0 momentum weight_decay lars_coefficient
       grad momentum_buffer p tr).
Proof.
  rewrite lars_submit_run. destruct (malloc_ok tr); [|done].
  destruct (Z.eqb_spec (enqueue_ret tr) 0) as [|Hne]; [done|].
  intros msg _. cbn [snd]. by eexists _, _, _, _.
Qed.

(** X12.  [lars_tiled_step_async] fails fast, whatever the runtime answers: when
    it throws, either the matrix shapes disagree and nothing was requested,
    or the shapes agree and the last request made is an enqueue that the
    runtime rejected: no flush follows it and no later tile is touched. *)
Theorem lars_tiled_step_async_fails_fast (T : precision) (mpi_rank : Z)
    (num_iter num_steps : Index)
    (gamma_0 momentum weight_decay lars_coefficient : float)
    (grad momentum_buffer p : Tensor.t) (tr : list event) (msg : string) :
  let res := Lars.lars_tiled_step_async enqueue_ret malloc_ok T mpi_rank
               num_iter num_steps gamma_0 momentum weight_decay
               lars_coefficient grad momentum_buffer p tr in
  fst res = Throw msg ->
  ((Tensor.matrix_shape p <> Tensor.matrix_shape grad \/
    Tensor.matrix_shape p <> Tensor.matrix_shape momentum_buffer) /\
   snd res = tr) \/
  (Tensor.matrix_shape p = Tensor.matrix_shape grad /\
   Tensor.matrix_shape p = Tensor.matrix_shape momentum_buffer /\
   exists pre cl args r,
     snd res = pre ++ [EvTaskInsert cl args r] /\ r <> 0).
Proof.
  intros res Hthrow. subst res.
  unfold Lars.lars_tiled_step_async in *.
  destruct (decide (Tensor.matrix_shape p = Tensor.matrix_shape grad))
    as [H1|H1].
  2:{ left. rewrite bool_decide_eq_false_2 by done. cbn. tauto. }
  destruct (decide (Tensor.matrix_shape p
                    = Tensor.matrix_shape momentum_buffer)) as [H2|H2].
  2:{ left. rewrite bool_decide_eq_true_2 by done.
      rewrite bool_decide_eq_false_2 by done. cbn. tauto. }
  right. split; [done|]. split; [done|].
  rewrite !bool_decide_eq_true_2 in Hthrow |- * by done.
  cbn [negb] in Hthrow |- *.
  refine (throws_for_loopM _ _ _ _ _ _ msg Hthrow).
  intros i [] tr0. unfold Lars.lars_body.
  repeat (apply throws_bind; [by apply throws_access|]; intros ? ?).
  apply throws_bind; [apply throws_mpi_transfer|]. intros ? ?.
  apply throws_bind; [apply throws_mpi_transfer|]. intros ? ?.
  apply throws_bind.
  - destruct (mpi_rank =? _); [apply throws_lars_submit|done].
  - intros ? ?. done.
Qed.

End LarsFailFast.

Lemma lars_tiled_step_async_requests_witness :
  Lars.lars_tiled_step_async (fun _ => 0) (fun _ => true) Starpu.fp32_t 1
    1 10 1%float 0%float 0%float 0%float
    (Tensor.mk [4] [2] (TileTraits.of_shape [2]) [(4, 1)]
       [Starpu.mkHandle 1 0; Starpu.mkHandle 2 1])
    (Tensor.mk [4] [2] (TileTraits.of_shape [2]) [(4, 1)]
       [Starpu.mkHandle 3 1; Starpu.mkHandle 4 1])
    (Tensor.mk [4] [2] (TileTraits.of_shape [2]) [(4, 1)]
       [Starpu.mkHandle 5 0; Starpu.mkHandle 6 1]) []
  = (Ok tt,
     [ Starpu.EvMpiTransfer (Starpu.mkHandle 3 1) 0 1;
       Starpu.EvMpiFlush (Starpu.mkHandle 5 0);
       Starpu.EvTaskInsert (Starpu.codelet_lars_tiled_step Starpu.fp32_t)
         [ Starpu.Buffer Starpu.STARPU_R (Starpu.mkHandle 2 1);
           Starpu.Buffer Starpu.STARPU_W (Starpu.mkHandle 4 1);
           Starpu.Buffer Starpu.STARPU_RW (Starpu.mkHandle 6 1);
           Starpu.ClArgs
             (Starpu.mkLarsArgs 1 2 10 1%float 0%float 0%float 0%float) ] 0;
       Starpu.EvMpiFlush (Starpu.mkHandle 6 1) ]).
Proof.
  apply (lars_tiled_step_async_requests (fun _ => 0) (fun _ => true)
           Starpu.fp32_t 1 1 10 1%float 0%float 0%float 0%float
           (Tensor.mk [4] [2] (TileTraits.of_shape [2]) [(4, 1)]
              [Starpu.mkHandle 1 0; Starpu.mkHandle 2 1])
           (Tensor.mk [4] [2] (TileTraits.of_shape [2]) [(4, 1)]
              [Starpu.mkHandle 3 1; Starpu.mkHandle 4 1])
           (Tensor.mk [4] [2] (TileTraits.of_shape [2]) [(4, 1)]
              [Starpu.mkHandle 5 0; Starpu.mkHandle 6 1]) []);
    (reflexivity || (cbn; lia)).
Defined.

Lemma lars_tiled_step_async_fails_fast_witness :
  exists pre cl args r,
    snd (Lars.lars_tiled_step_async (fun _ => 7) (fun _ => true)
           Starpu.fp32_t 0 1 10 1%float 0%float 0%float 0%float
           (Tensor.mk [4] [2] (TileTraits.of_shape [2]) [(4, 1)]
              [Starpu.mkHandle 1 0; Starpu.mkHandle 2 0])
           (Tensor.mk [4] [2] (TileTraits.of_shape [2]) [(4, 1)]
              [Starpu.mkHandle 3 0; Starpu.mkHandle 4 0])
           (Tensor.mk [4] [2] (TileTraits.of_shape [2]) [(4, 1)]
              [Starpu.mkHandle 5 0; Starpu.mkHandle 6 0]) [])
    = pre ++ [Starpu.EvTaskInsert cl args r] /\ r <> 0.
Proof.
  destruct (lars_tiled_step_async_fails_fast (fun _ => 7) (fun _ => true)
              Starpu.fp32_t 0 1 10 1%float 0%float 0%float 0%float
              (Tensor.mk [4] [2] (TileTraits.of_shape [2]) [(4, 1)]
                 [Starpu.mkHandle 1 0; Starpu.mkHandle 2 0])
              (Tensor.mk [4] [2] (TileTraits.of_shape [2]) [(4, 1)]
                 [Starpu.mkHandle 3 0; Starpu.mkHandle 4 0])
              (Tensor.mk [4] [2] (TileTraits.of_shape [2]) [(4, 1)]
                 [Starpu.mkHandle 5 0; Starpu.mkHandle 6 0]) []
              "Error in lars_tiled_step task submission" eq_refl)
    as [[[H|H] _]|(_ & _ & H)].
  - exfalso. by apply H.
  - exfalso. by apply H.
  - exact H.
Defined.

(** *** [gather_async] on a node that does not own the destination *)

Section GatherElsewhere.

Import Starpu.

Variable enqueue_ret : list event -> Z.
Variable new_handle : list event -> Handle.

Lemma gather_body_elsewhere (mpi_rank : Z) (src dst : Tensor.t)
    (dst_h scratch : Handle) (i : Index) (sstart dstart : list Index)
    (tr : list event) :
  let gs := TileTraits.shape (Tensor.grid src) in
  mpi_rank <> mpi_get_rank dst_h ->
  Forall (fun n => 1 <= n) gs ->
  Z.of_nat (length (Tensor.tile_handles src)) = prod_shape gs ->
  1 <= i < prod_shape gs ->
  Gather.gather_body enqueue_ret mpi_rank src (Tensor.ndim src)
    sstart (Tensor.get_tile_traits dst 0) dst_h scratch
    (mpi_get_rank dst_h) i (digits gs (i - 1), dstart) tr
  = (Ok (digits gs i, dstart),
     tr ++ GatherTrace.tile_transfer src dst_h mpi_rank (Z.to_nat i)).
Proof.
  intros gs Hrank Hpos Hh Hi.
  assert (exists k, i = Z.of_nat k) as [k ->] by (exists (Z.to_nat i); lia).
  destruct (lookup_lt_is_Some_2 (Tensor.tile_handles src) k) as [h Hhk]; [lia|].
  unfold Gather.gather_body.
  rewrite (bind_access_Some _ (digits gs (Z.of_nat k)))
    by (by apply next_tile_index_spec).
  rewrite (bind_access_Some _ h)
    by (unfold Tensor.get_tile_handle; by rewrite zget_nat).
  unfold bind at 1. rewrite mpi_transfer_run.
  destruct (Z.eqb_spec mpi_rank (mpi_get_rank dst_h)) as [|_]; [done|].
  unfold ret, GatherTrace.tile_transfer. by rewrite Nat2Z.id, Hhk.
Qed.

(** X9.  On a node that does not own the destination tile, [gather_async]
    enqueues no copy at all and cannot fail on an enqueue: whatever the
    runtime would answer, it returns after registering the scratch
    variable (multi-tile path only), asking for the transfer of every
    source tile that lives away from the destination, in order, and
    flushing the destination tile. *)
Theorem gather_async_elsewhere (mpi_rank : Z) (src dst : Tensor.t)
    (dst_h : Handle) (tr : list event) :
  let gs := TileTraits.shape (Tensor.grid src) in
  mpi_rank <> mpi_get_rank dst_h ->
  TileTraits.nelems (Tensor.grid dst) = 1 ->
  Tensor.shape src = Tensor.shape dst ->
  Tensor.tile_handles dst !! 0%nat = Some dst_h ->
  Forall (fun n => 1 <= n) gs ->
  TileTraits.nelems (Tensor.grid src) = prod_shape gs ->
  length gs = length (Tensor.shape src) ->
  Z.of_nat (length (Tensor.tile_handles src)) = prod_shape gs ->
  Gather.gather_async enqueue_ret new_handle mpi_rank src dst tr
  = (Ok tt,
     tr ++ (if prod_shape gs =? 1 then []
            else [EvVariableHandle (new_handle tr)
                    (2 * Tensor.ndim src * Gather.sizeof_Index)
                    STARPU_SCRATCH])
        ++ concat (map (GatherTrace.tile_transfer src dst_h mpi_rank)
                       (seq 0 (Z.to_nat (prod_shape gs))))
        ++ [EvMpiFlush dst_h]).
Proof.
  intros gs Hrank Hd1 Hshape Hdh Hpos Hnel Hgs Hh.
  pose proof (prod_shape_pos gs Hpos) as HN.
  unfold Gather.gather_async. rewrite Hd1. cbn [Z.eqb Pos.eqb negb].
  rewrite bool_decide_eq_true_2 by done. cbn [negb].
  rewrite (bind_access_Some _ dst_h)
    by (unfold Tensor.get_tile_handle; by rewrite (zget_nat _ 0)).
  destruct (lookup_lt_is_Some_2 (Tensor.tile_handles src) 0) as [h0 Hh0];
    [lia|].
  assert (GatherTrace.tile_transfer src dst_h mpi_rank 0
          = if mpi_get_rank h0 =? mpi_get_rank dst_h then []
            else [EvMpiTransfer h0 (mpi_get_rank dst_h) mpi_rank]) as Ht0
    by (unfold GatherTrace.tile_transfer; by rewrite Hh0).
  rewrite Hnel.
  destruct (Z.eqb_spec mpi_rank (mpi_get_rank dst_h)) as [|_]; [done|].
  destruct (Z.eqb_spec (prod_shape gs) 1) as [H1|Hne1].
  - rewrite (bind_access_Some _ h0)
      by (unfold Tensor.get_tile_handle; by rewrite (zget_nat _ 0)).
    unfold bind at 1. rewrite mpi_transfer_run.
    unfold bind, ret, mpi_flush, emit. rewrite H1.
    change (Z.to_nat 1) with 1%nat. cbn [seq map concat].
    rewrite Ht0, app_nil_r, app_nil_l. by rewrite <- app_assoc.
  - unfold bind at 1. unfold variable_handle at 1.
    set (scratch := new_handle tr).
    rewrite (bind_access_Some _ h0)
      by (unfold Tensor.get_tile_handle; by rewrite (zget_nat _ 0)).
    unfold bind at 1. rewrite mpi_transfer_run.
    unfold bind at 1. unfold ret at 1.
    match goal with
    | |- context [for_rangeM 1 _ ?body ?st0] =>
        match goal with
        | |- context [bind (for_rangeM 1 _ body st0) _ ?tr1] =>
            set (tr1' := tr1)
        end
    end.
    pose (Inv := fun (i : Index) (st : list Index * list Index)
                     (tri : list event) =>
      1 <= i <= prod_shape gs /\
      fst st = digits gs (i - 1) /\
      tri = tr1' ++ concat (map (GatherTrace.tile_transfer src dst_h mpi_rank)
                                (seq 1 (Z.to_nat (i - 1))))).
    unfold bind at 1. unfold for_rangeM.
    match goal with
    | |- context [for_loopM ?m 1 ?body ?st0 tr1'] =>
        destruct (for_loopM_inv Inv body m 1 st0 tr1')
          as ([idx dstart] & tr2 & Hrun & Hinv)
    end.
    + unfold Inv. cbn [fst snd]. change (1 - 1) with 0.
      rewrite digits_zero, Hgs. cbn. rewrite app_nil_r.
      repeat split; try lia.
      unfold Tensor.ndim. by rewrite Nat2Z.id.
    + intros i [idx dstart] tri Hi (_ & Hidx & Htri).
      cbn [fst snd] in Hidx. subst idx.
      eexists _, _. split.
      { apply (gather_body_elsewhere mpi_rank src dst dst_h scratch i);
          try done; fold gs; lia. }
      unfold Inv. cbn [fst snd].
      replace (i + 1 - 1) with i by lia.
      repeat split; try lia.
      rewrite Htri, <- app_assoc. f_equal.
      replace (Z.to_nat i) with (S (Z.to_nat (i - 1))) at 2 by lia.
      rewrite seq_S, map_app, concat_app. cbn [map concat].
      rewrite app_nil_r. do 2 f_equal. lia.
    + rewrite Hrun. unfold mpi_flush, emit.
      destruct Hinv as (_ & _ & ->). f_equal.
      unfold tr1'. rewrite <- !app_assoc. do 2 f_equal.
      rewrite app_assoc. f_equal. rewrite <- Ht0.
      set (m := Z.to_nat (1 + Z.of_nat (Z.to_nat (prod_shape gs - 1)) - 1)).
      replace (Z.to_nat (prod_shape gs)) with (S m) by lia.
      by rewrite <- cons_seq.
Qed.

End GatherElsewhere.

Lemma gather_async_elsewhere_witness :
  Gather.gather_async (fun _ => 7) (fun _ => Starpu.mkHandle 99 1) 1
    {| Tensor.shape := [4]; Tensor.basetile_shape := [2];
       Tensor.grid := TileTraits.of_shape [2]; Tensor.matrix_shape := [];
       Tensor.tile_handles := [Starpu.mkHandle 1 0; Starpu.mkHandle 2 1] |}
    {| Tensor.shape := [4]; Tensor.basetile_shape := [4];
       Tensor.grid := TileTraits.of_shape [1]; Tensor.matrix_shape := [];
       Tensor.tile_handles := [Starpu.mkHandle 10 0] |} []
  = (Ok tt,
     [ Starpu.EvVariableHandle (Starpu.mkHandle 99 1) 16
         Starpu.STARPU_SCRATCH;
       Starpu.EvMpiTransfer (Starpu.mkHandle 2 1) 0 1;
       Starpu.EvMpiFlush (Starpu.mkHandle 10 0) ]).
Proof.
  apply (gather_async_elsewhere (fun _ => 7) (fun _ => Starpu.mkHandle 99 1) 1
           {| Tensor.shape := [4]; Tensor.basetile_shape := [2];
              Tensor.grid := TileTraits.of_shape [2];
              Tensor.matrix_shape := [];
              Tensor.tile_handles :=
                [Starpu.mkHandle 1 0; Starpu.mkHandle 2 1] |}
           {| Tensor.shape := [4]; Tensor.basetile_shape := [4];
              Tensor.grid := TileTraits.of_shape [1];
              Tensor.matrix_shape := [];
              Tensor.tile_handles := [Starpu.mkHandle 10 0] |}
           (Starpu.mkHandle 10 0) []);
    try reflexivity.
  - cbn. lia.
  - repeat constructor; lia.
Defined.

(** *** The maxsumexp kernel: the maximum, and degenerate sizes *)

Lemma SFltb_trans (a b c : spec_float) :
  SFltb a b = true -> SFltb b c = true -> SFltb a c = true.
Proof.
  unfold SFltb, SFcompare.
  destruct a as [sa|sa| |sa ma ea], b as [sb|sb| |sb mb eb],
           c as [sc|sc| |sc mc ec];
    try discriminate;
    try (destruct sa; discriminate); try (destruct sb; discriminate);
    try (destruct sa, sb; discriminate);
    try (destruct sa, sb, sc; (discriminate || reflexivity)).
  destruct sa, sb, sc; try discriminate; try reflexivity;
    change (PosDef.Pos.compare_cont Eq) with Pos.compare;
    destruct (Z.compare_spec ea eb), (Z.compare_spec eb ec),
             (Z.compare_spec ea ec);
    try discriminate; try reflexivity; try lia;
    destruct (Pos.compare_spec ma mb), (Pos.compare_spec mb mc),
             (Pos.compare_spec ma mc);
    cbn; try discriminate; try reflexivity; lia.
Qed.

Lemma SFltb_irrefl (a : spec_float) : SFltb a a = false.
Proof.
  unfold SFltb, SFcompare. destruct a as [s|s| |s m e]; try done.
  - by destruct s.
  - change (PosDef.Pos.compare_cont Eq) with Pos.compare.
    rewrite Z.compare_refl, Pos.compare_refl. by destruct s.
Qed.

Lemma ltb_trans (x y z : float) :
  (x <? y)%float = true -> (y <? z)%float = true -> (x <? z)%float = true.
Proof. rewrite !FloatAxioms.ltb_spec. apply SFltb_trans. Qed.

Lemma ltb_irrefl (x : float) : (x <? x)%float = false.
Proof. rewrite FloatAxioms.ltb_spec. apply SFltb_irrefl. Qed.

Lemma ltb_asym (x y : float) :
  (x <? y)%float = true -> (y <? x)%float = false.
Proof.
  intros H. destruct (y <? x)%float eqn:H'; [|done].
  pose proof (ltb_trans _ _ _ H H') as Hxx. by rewrite ltb_irrefl in Hxx.
Qed.

Section MaxsumexpMaximum.

Variable exp : float -> float.

(** The running maximum changes only by a strict increase to the value
    read, which is then not infinite. *)
Lemma slice_step_max (max sum val : float) :
  let st' := Maxsumexp.slice_step exp (max, sum) val in
  (fst st' = max \/
   fst st' = val /\ is_infinity val = false /\ (max <? val)%float = true) /\
  (is_infinity val = false -> (fst st' <? val)%float = false).
Proof.
  cbn [Maxsumexp.slice_step]. destruct (is_infinity val) eqn:Hinf.
  - cbn [fst]. split; [by left|done].
  - destruct (max <? val)%float eqn:Hlt; cbn [fst].
    + split; [by right|]. intros _. apply ltb_irrefl.
    + split; [by left|done].
Qed.

Lemma fold_slice_step_max (rest : list float) (max0 sum0 : float) :
  let st := fold_left (Maxsumexp.slice_step exp) rest (max0, sum0) in
  (fst st = max0 \/
   (max0 <? fst st)%float = true /\ In (fst st) rest /\
   is_infinity (fst st) = false) /\
  (forall x, In x rest -> is_infinity x = false ->
     (fst st <? x)%float = false).
Proof.
  revert max0 sum0. induction rest as [|v rest IH]; intros max0 sum0.
  - cbn. split; [by left|]. by intros x [].
  - cbn [fold_left].
    pose proof (slice_step_max max0 sum0 v) as [Hstep Hv].
    destruct (Maxsumexp.slice_step exp (max0, sum0) v) as [max1 sum1].
    cbn [fst] in Hstep, Hv.
    specialize (IH max1 sum1). cbn zeta in IH |- *.
    destruct IH as [Hmax Hall].
    set (mx := fst (fold_left (Maxsumexp.slice_step exp) rest (max1, sum1)))
      in *.
    split.
    + destruct Hstep as [->|(-> & Hinf & Hlt)].
      * destruct Hmax as [Heq|(Hlt & Hin & Hinf)]; [by left|].
        right. repeat split; try done. by right.
      * destruct Hmax as [Heq|(Hlt' & Hin & Hinf')].
        -- right. rewrite Heq. repeat split; try done. by left.
        -- right. repeat split; try done; [|by right].
           by apply (ltb_trans _ v).
    + intros x [<-|Hin] Hx; [|by apply Hall].
      specialize (Hv Hx).
      destruct Hmax as [Heq|(Hlt & _)]; [by rewrite Heq|].
      destruct (mx <? v)%float eqn:Hmv; [|done].
      pose proof (ltb_trans _ _ _ Hlt Hmv) as Hc. by rewrite Hc in Hv.
Qed.

(** The maximum the kernel computes for a slice is an element of the
    slice, and no element of the slice that is not infinite is greater. *)
Lemma reduce_max (slice : list float) (max sum : float) :
  Maxsumexp.reduce exp slice = Some (max, sum) ->
  In max slice /\
  forall x, In x slice -> is_infinity x = false -> (max <? x)%float = false.
Proof.
  destruct slice as [|x0 rest]; [done|]. cbn [Maxsumexp.reduce].
  intros [= Hfold].
  pose proof (fold_slice_step_max rest x0 1%float) as [Hmax Hall].
  rewrite Hfold in Hmax, Hall. cbn [fst] in Hmax, Hall. split.
  - destruct Hmax as [->|(_ & Hin & _)]; [by left|by right].
  - intros x [<-|Hin] Hx; [|by apply Hall].
    destruct Hmax as [->|(Hlt & _)]; [apply ltb_irrefl|by apply ltb_asym].
Qed.

(** X15.  On an accumulator entry whose sum is zero the kernel writes the
    maximum of the slice: an element of the slice that no element of the
    slice other than an infinity exceeds.  When that element is itself
    infinite the entry is left as it was. *)
Theorem maxsumexp_fresh_entry (m n k : Index) (src out : list float) :
  0 <= m -> 0 <= n -> 1 <= k ->
  Z.of_nat (length src) = m * k * n ->
  Z.of_nat (length out) = 2 * m * n ->
  exists out',
    Maxsumexp.cpu exp m n k src out = Some out' /\
    forall i1 i2 slice a0 b0,
      0 <= i1 < m -> 0 <= i2 < n ->
      Maxsumexp.is_slice m k src i1 i2 slice ->
      zget out (2 * (i2 * m + i1)) = Some a0 ->
      zget out (2 * (i2 * m + i1) + 1) = Some b0 ->
      (b0 =? 0)%float = true ->
      exists max sum,
        Maxsumexp.reduce exp slice = Some (max, sum) /\
        In max slice /\
        (forall x, In x slice -> is_infinity x = false ->
           (max <? x)%float = false) /\
        (is_infinity max = false ->
         zget out' (2 * (i2 * m + i1)) = Some max /\
         zget out' (2 * (i2 * m + i1) + 1) = Some sum) /\
        (is_infinity max = true ->
         zget out' (2 * (i2 * m + i1)) = Some a0 /\
         zget out' (2 * (i2 * m + i1) + 1) = Some b0).
Proof.
  intros Hm Hn Hk Hsrc Hout.
  destruct (cpu_spec exp m n k src out) as (out' & Hrun & _ & Hdone & _);
    try done.
  exists out'. split; [done|].
  intros i1 i2 slice a0 b0 Hi1 Hi2 Hslice Ha0 Hb0 Hzero.
  destruct (Hdone i1 i2 slice) as (a & b & Ha & Hb & Hfst & Hsnd);
    try done; [lia|nia|].
  assert (a = a0) as -> by congruence. assert (b = b0) as -> by congruence.
  destruct (Maxsumexp.reduce exp slice) as [[max sum]|] eqn:Hred.
  2:{ destruct slice; [|done]. destruct Hslice as [Hl _]. simpl in Hl. lia. }
  destruct (reduce_max slice max sum Hred) as [Hin Hub].
  exists max, sum. split; [done|]. split; [done|]. split; [done|].
  unfold Maxsumexp.slice_update in Hfst, Hsnd. rewrite Hred in Hfst, Hsnd.
  unfold Maxsumexp.accumulate, Maxsumexp.saved in Hfst, Hsnd.
  cbn [fst snd] in Hfst, Hsnd. rewrite Hzero in Hfst, Hsnd.
  split; intros Hinf; rewrite Hinf in Hfst, Hsnd; done.
Qed.

End MaxsumexpMaximum.

Lemma maxsumexp_fresh_entry_witness :
  exists out',
    Maxsumexp.cpu
      (fun x => if (x =? neg_infinity)%float then 0%float else 1%float)
      2 1 2 [neg_infinity; 3%float; 1%float; 2%float]
      [0%float; 0%float; 5%float; 0%float] = Some out' /\
    zget out' 2 = Some 3%float.
Proof.
  destruct (maxsumexp_fresh_entry
              (fun x => if (x =? neg_infinity)%float then 0%float else 1%float)
              2 1 2 [neg_infinity; 3%float; 1%float; 2%float]
              [0%float; 0%float; 5%float; 0%float])
    as (out' & Hrun & Hent); try reflexivity; try lia.
  exists out'. split; [exact Hrun|].
  destruct (Hent 1 0 [3%float; 2%float] 5%float 0%float)
    as (max & sum & Hred & _ & _ & Hfin & _);
    try reflexivity; try lia.
  - split; [reflexivity|]. intros [|[|i0]] Hi0; try reflexivity.
    cbn in Hi0. lia.
  - vm_compute in Hred.
    assert (max = 3%float) as -> by congruence.
    apply (proj1 (Hfin eq_refl)).
Defined.

(** A loop whose rounds all return their state returns its state. *)
Lemma for_loop_id {S : Type} (body : Index -> S -> option S)
    (n : nat) (lo : Index) (s : S) :
  (forall i s0, body i s0 = Some s0) -> for_loop n lo body s = Some s.
Proof.
  intros Hid. revert lo. induction n as [|n IH]; intros lo; [done|].
  cbn [for_loop]. by rewrite Hid.
Qed.

(** A loop with a round to run whose first round fails, fails. *)
Lemma for_range_first_None {S : Type} (body : Index -> S -> option S)
    (lo hi : Index) (s : S) :
  lo < hi -> body lo s = None -> for_range lo hi body s = None.
Proof.
  intros Hlt Hbody. unfold for_range.
  destruct (Z.to_nat (hi - lo)) as [|n] eqn:Hn; [lia|].
  cbn [for_loop]. by rewrite Hbody.
Qed.

(** X16.  Degenerate sizes of the maxsumexp kernel.  With no output entry
    ([m <= 0] or [n <= 0]) nothing is read or written.  With an output
    entry the first element of its slice is read before the loop over the
    slice is entered, so an empty source (as [k = 0] makes it) is read out
    of bounds. *)
Theorem maxsumexp_degenerate (exp : float -> float) (m n k : Index)
    (src out : list float) :
  (m <= 0 \/ n <= 0 -> Maxsumexp.cpu exp m n k src out = Some out) /\
  (1 <= m -> 1 <= n -> src = [] -> Maxsumexp.cpu exp m n k src out = None).
Proof.
  split.
  - intros Hmn. unfold Maxsumexp.cpu, for_range.
    destruct (Z_le_gt_dec n 0) as [Hn|Hn].
    + by replace (Z.to_nat (n - 0)) with 0%nat by lia.
    + rewrite for_loop_id; [done|]. intros i2 st.
      by replace (Z.to_nat (m - 0)) with 0%nat by lia.
  - intros Hm Hn ->. unfold Maxsumexp.cpu.
    rewrite for_range_first_None; [done|lia|].
    apply for_range_first_None; [lia|]. done.
Qed.

Lemma maxsumexp_degenerate_witness :
  Maxsumexp.cpu (fun x => x) 2 3 0 [] (repeat 0%float 12) = None.
Proof.
  apply (proj2 (maxsumexp_degenerate (fun x => x) 2 3 0 []
                  (repeat 0%float 12))); (lia || reflexivity).
Defined.

(** *** Loops that fail *)

(** A loop that returns has returned from every one of its rounds. *)
Lemma for_loop_Some_round {S : Type} (body : Index -> S -> option S)
    (n : nat) (lo : Index) (s s' : S) :
  for_loop n lo body s = Some s' ->
  forall i, lo <= i < lo + Z.of_nat n ->
    exists si si', body i si = Some si'.
Proof.
  revert lo s. induction n as [|n IH]; intros lo s Hrun i Hi; [lia|].
  cbn [for_loop] in Hrun.
  destruct (body lo s) as [s1|] eqn:Hbody; [|done].
  destruct (Z.eq_dec i lo) as [->|Hne]; [by eexists _, _|].
  apply (IH (lo + 1) s1 Hrun). lia.
Qed.

Lemma for_range_Some_round {S : Type} (body : Index -> S -> option S)
    (lo hi : Index) (s s' : S) :
  for_range lo hi body s = Some s' ->
  forall i, lo <= i < hi -> exists si si', body i si = Some si'.
Proof.
  unfold for_range. intros Hrun i Hi.
  apply (for_loop_Some_round body _ lo s s' Hrun). lia.
Qed.

(** *** The gelutanh kernel *)

Section GelutanhFacts.

Variable exp : float -> float.

Lemma gelutanh_body_length (src : list float) (i : Index)
    (d d' : list float) :
  Gelutanh.body exp src i d = Some d' -> length d' = length d.
Proof.
  unfold Gelutanh.body. destruct (zget src i) as [z|]; [|done].
  cbn [mbind option_bind]. apply zset_length.
Qed.

(** X21.  The kernel stores the function of the element, element by element, in
    the first [nelems] places of the output and leaves the rest of the
    output alone; it stays within bounds exactly when neither buffer has
    fewer than [nelems] elements. *)
Theorem gelutanh_cpu_map (nelems : Index) (src dst : list float) :
  (nelems <= Z.of_nat (length src) -> nelems <= Z.of_nat (length dst) ->
   Gelutanh.cpu exp nelems src dst
   = Some (map (Gelutanh.gelutanh exp) (take (Z.to_nat nelems) src)
           ++ drop (Z.to_nat nelems) dst)) /\
  (Z.of_nat (length src) < nelems \/ Z.of_nat (length dst) < nelems ->
   Gelutanh.cpu exp nelems src dst = None).
Proof.
  assert (forall n : nat,
    (n <= length src)%nat -> (n <= length dst)%nat ->
    for_loop n 0 (Gelutanh.body exp src) dst
    = Some (map (Gelutanh.gelutanh exp) (take n src) ++ drop n dst)) as Hmap.
  { intros n Hs Hd.
    destruct (for_loop_inv
                (fun i d => 0 <= i /\
                   d = map (Gelutanh.gelutanh exp) (take (Z.to_nat i) src)
                       ++ drop (Z.to_nat i) dst)
                (Gelutanh.body exp src) n 0 dst) as (d & Hrun & _ & Hd').
    - split; [lia|]. by rewrite take_0, drop_0.
    - intros i d Hi [_ ->].
      assert (exists j, i = Z.of_nat j) as [j ->]
        by (exists (Z.to_nat i); lia).
      rewrite Nat2Z.id.
      destruct (lookup_lt_is_Some_2 src j) as [z Hz]; [lia|].
      destruct (lookup_lt_is_Some_2 dst j) as [y Hy]; [lia|].
      unfold Gelutanh.body. rewrite zget_nat, Hz. cbn [mbind option_bind].
      rewrite zset_nat.
      2:{ rewrite length_app, length_map, length_take, length_drop. lia. }
      eexists. split; [done|]. split; [lia|].
      replace (Z.to_nat (Z.of_nat j + 1)) with (S j) by lia.
      rewrite (take_S_r _ _ _ Hz), map_app. cbn [map].
      rewrite <- app_assoc. cbn [app].
      rewrite insert_app_r_alt
        by (rewrite length_map, length_take; lia).
      rewrite length_map, length_take.
      replace (j - j `min` length src)%nat with 0%nat by lia.
      by rewrite (drop_S _ _ _ Hy).
    - rewrite Hrun, Hd'. by rewrite Z.add_0_l, Nat2Z.id. }
  split.
  - intros Hs Hd. unfold Gelutanh.cpu, for_range. rewrite Z.sub_0_r.
    apply Hmap; lia.
  - intros Hlong. unfold Gelutanh.cpu, for_range. rewrite Z.sub_0_r.
    set (L := Nat.min (length src) (length dst)).
    assert (exists n2, Z.to_nat nelems = (L + S n2)%nat) as [n2 ->]
      by (exists (Z.to_nat nelems - L - 1)%nat; lia).
    assert (forall (a b : nat) (lo : Index) (s : list float),
      for_loop (a + b) lo (Gelutanh.body exp src) s
      = s1 ← for_loop a lo (Gelutanh.body exp src) s;
        for_loop b (lo + Z.of_nat a) (Gelutanh.body exp src) s1) as Happ.
    { induction a as [|a IH]; intros b lo s.
      - cbn. by rewrite Z.add_0_r.
      - cbn [for_loop Nat.add].
        destruct (Gelutanh.body exp src lo s) as [s1|]; [|done].
        rewrite IH. do 2 f_equal. lia. }
    rewrite Happ, Hmap by lia. cbn [mbind option_bind for_loop].
    unfold Gelutanh.body. rewrite Z.add_0_l.
    destruct (zget src (Z.of_nat L)) as [z|] eqn:Hz; [|done].
    cbn [mbind option_bind].
    apply zget_Some_range in Hz.
    unfold zset.
    rewrite length_app, length_map, length_take, length_drop.
    destruct (Z.ltb_spec (Z.of_nat L)
                (Z.of_nat ((L `min` length src + (length dst - L))%nat)));
      [lia|].
    by rewrite andb_false_r.
Qed.

End GelutanhFacts.

Lemma gelutanh_cpu_map_witness :
  Gelutanh.cpu (fun x => x) 2 [0%float; 1%float; 2%float]
    [7%float; 7%float; 7%float; 7%float]
  = Some (map (Gelutanh.gelutanh (fun x => x)) [0%float; 1%float]
          ++ [7%float; 7%float]).
Proof.
  apply (proj1 (gelutanh_cpu_map (fun x => x) 2 [0%float; 1%float; 2%float]
                  [7%float; 7%float; 7%float; 7%float])); cbn; lia.
Defined.

(** *** The add_slice3 kernel *)

(** The offsets of two entries are equal only for one and the same
    entry. *)
Lemma entry_offset_inj (m k i1 i0 i2 i1' i0' i2' : Index) :
  0 <= i1 < m -> 0 <= i0 < k -> 0 <= i1' < m -> 0 <= i0' < k ->
  i2 * (m * k) + i1 + i0 * m = i2' * (m * k) + i1' + i0' * m ->
  i1 = i1' /\ i0 = i0' /\ i2 = i2'.
Proof.
  intros H1 H0 H1' H0' Heq.
  assert (i2 * k + i0 = i2' * k + i0' /\ i1 = i1') as [Hq ->].
  { apply (Z.div_mod_unique m); [lia|lia|lia]. }
  assert (i2 = i2' /\ i0 = i0') as [-> ->].
  { apply (Z.div_mod_unique k); [lia|lia|lia]. }
  done.
Qed.

Section AddSlice3Facts.

Variables (m n k : Index) (alpha beta : float) (src1 src2 : list float).

Hypothesis Hm : 0 <= m.
Hypothesis Hn : 0 <= n.
Hypothesis Hk : 0 <= k.
Hypothesis Hsrc1 : Z.of_nat (length src1) = m * n.
Hypothesis Hsrc2 :
  (beta =? 0)%float = false -> Z.of_nat (length src2) = m * k * n.

(** One fiber of the output. *)
Lemma add_slice3_row (i2 i1 : Index) (d : list float) :
  0 <= i1 < m -> 0 <= i2 < n ->
  Z.of_nat (length d) = m * k * n ->
  exists d',
    AddSlice3.row_body m k alpha src1 beta src2 i2 i1 d = Some d' /\
    length d' = length d /\
    (forall i0, 0 <= i0 < k ->
       exists v,
         AddSlice3.entry m k alpha src1 beta src2 i1 i0 i2 = Some v /\
         zget d' (i2 * (m * k) + i1 + i0 * m) = Some v) /\
    (forall q, (forall i0, 0 <= i0 < k -> q <> i2 * (m * k) + i1 + i0 * m) ->
       zget d' q = zget d q).
Proof.
  intros Hi1 Hi2 Hd.
  destruct (zget_in_range src1 (i2 * m + i1)) as [a Ha]; [nia|].
  unfold AddSlice3.row_body, AddSlice3.entry. rewrite Ha.
  cbn [mbind option_bind].
  set (base := i2 * (m * k) + i1).
  pose (Inv := fun (v : Index -> float -> Prop) (i : Index)
                   (o : list float) =>
    length o = length d /\
    (forall i0, 0 <= i0 < i -> exists x, v i0 x /\
       zget o (base + i0 * m) = Some x) /\
    (forall q, (forall i0, 0 <= i0 < i -> q <> base + i0 * m) ->
       zget o q = zget d q)).
  assert (forall i0, 0 <= i0 < k -> 0 <= base + i0 * m < m * k * n) as Hrange
    by (intros i0 Hi0; unfold base; nia).
  assert (forall i0 i0', 0 <= i0 < k -> 0 <= i0' < k ->
            base + i0 * m = base + i0' * m -> i0 = i0') as Hinj.
  { intros i0 i0' H0 H0' Heq.
    assert (0 < m) by lia. nia. }
  destruct (beta =? 0)%float eqn:Hbeta.
  - destruct (for_range_inv (Inv (fun _ x => x = (alpha * a)%float))
                (AddSlice3.set_body m base (alpha * a)) 0 k d)
      as (d' & Hrun & Hlen & Hin & Hout); [lia| |..].
    + unfold Inv. split; [done|]. split; [intros i0 Hi0; lia|done].
    + intros i o Hi (Hlen & Hin & Hout).
      unfold AddSlice3.set_body.
      rewrite zset_in_range by (specialize (Hrange i Hi); lia).
      eexists. split; [done|]. unfold Inv. rewrite length_insert.
      split; [done|]. split.
      * intros i0 Hi0. destruct (Z.eq_dec i0 i) as [->|Hne].
        -- eexists. split; [done|]. apply zget_insert_eq.
           specialize (Hrange i Hi). lia.
        -- destruct (Hin i0 ltac:(lia)) as (x & Hx & Hget).
           exists x. split; [done|].
           rewrite zget_insert_ne; [done|specialize (Hrange i Hi); lia|].
           intros Heq. apply Hne. apply Hinj; (done || lia).
      * intros q Hq. rewrite zget_insert_ne;
          [|specialize (Hrange i Hi); lia|apply Hq; lia].
        apply Hout. intros i0 Hi0. apply Hq. lia.
    + exists d'. split; [done|]. split; [done|]. split; [|done].
      intros i0 Hi0. destruct (Hin i0 Hi0) as (x & -> & Hget). by eexists.
  - specialize (Hsrc2 eq_refl).
    destruct (for_range_inv
                (Inv (fun i0 x => exists b,
                        zget src2 (base + i0 * m) = Some b /\
                        x = (beta * b + alpha * a)%float))
                (AddSlice3.update_body m base beta (alpha * a) src2) 0 k d)
      as (d' & Hrun & Hlen & Hin & Hout); [lia| |..].
    + unfold Inv. split; [done|]. split; [intros i0 Hi0; lia|done].
    + intros i o Hi (Hlen & Hin & Hout).
      unfold AddSlice3.update_body.
      destruct (zget_in_range src2 (base + i * m)) as [b Hb];
        [specialize (Hrange i Hi); lia|].
      rewrite Hb. cbn [mbind option_bind].
      rewrite zset_in_range by (specialize (Hrange i Hi); lia).
      eexists. split; [done|]. unfold Inv. rewrite length_insert.
      split; [done|]. split.
      * intros i0 Hi0. destruct (Z.eq_dec i0 i) as [->|Hne].
        -- eexists. split; [by exists b|]. apply zget_insert_eq.
           specialize (Hrange i Hi). lia.
        -- destruct (Hin i0 ltac:(lia)) as (x & Hx & Hget).
           exists x. split; [done|].
           rewrite zget_insert_ne; [done|specialize (Hrange i Hi); lia|].
           intros Heq. apply Hne. apply Hinj; (done || lia).
      * intros q Hq. rewrite zget_insert_ne;
          [|specialize (Hrange i Hi); lia|apply Hq; lia].
        apply Hout. intros i0 Hi0. apply Hq. lia.
    + exists d'. split; [done|]. split; [done|]. split; [|done].
      intros i0 Hi0. destruct (Hin i0 Hi0) as (x & (b & Hb & ->) & Hget).
      rewrite Hb. cbn [mbind option_bind]. by eexists.
Qed.

End AddSlice3Facts.

Section AddSlice3Kernel.

Variables (m n k : Index) (alpha beta : float) (src1 src2 : list float).

Hypothesis Hm : 0 <= m.
Hypothesis Hn : 0 <= n.
Hypothesis Hk : 0 <= k.
Hypothesis Hsrc1 : Z.of_nat (length src1) = m * n.
Hypothesis Hsrc2 :
  (beta =? 0)%float = false -> Z.of_nat (length src2) = m * k * n.

Lemma add_slice3_run (dst : list float) :
  Z.of_nat (length dst) = m * k * n ->
  exists dst',
    AddSlice3.cpu m n k alpha src1 beta src2 dst = Some dst' /\
    AddSlice3.fibers_done m k alpha src1 beta src2 dst (n * m) dst'.
Proof.
  intros Hdst. unfold AddSlice3.cpu.
  destruct (for_range_inv (fun i2 o => 0 <= i2 <= n /\
                             AddSlice3.fibers_done m k alpha src1 beta src2 dst (i2 * m) o)
              (fun i2 => for_range 0 m
                           (AddSlice3.row_body m k alpha src1 beta src2 i2))
              0 n dst) as (dst' & Hrun & _ & Hdone); [lia| |..].
  - split; [lia|]. split; [done|]. intros i1 i0 i2 ? ? ? ?. nia.
  - intros i2 o Hi2 (_ & Hdone).
    destruct (for_range_inv (fun i1 o1 => 0 <= i1 <= m /\
                               AddSlice3.fibers_done m k alpha src1 beta src2 dst (i2 * m + i1) o1)
                (AddSlice3.row_body m k alpha src1 beta src2 i2) 0 m o)
      as (o' & Hrun' & _ & Hdone'); [lia| |..].
    + split; [lia|]. by rewrite Z.add_0_r.
    + intros i1 o1 Hi1 (_ & Hlen1 & Hdone1).
      destruct (add_slice3_row m n k alpha beta src1 src2 Hm Hn Hk Hsrc1
                  Hsrc2 i2 i1 o1) as (o2 & Hrow & Hlen2 & Hin & Hout);
        try done; [lia|].
      exists o2. split; [done|]. split; [lia|]. split; [lia|].
      intros i1' i0' i2' Hi1' Hi0' Hi2' Hlt.
      destruct (Z.eq_dec (i2' * m + i1') (i2 * m + i1)) as [Heq|Hne].
      * assert (i2' = i2 /\ i1' = i1) as [-> ->]
          by (apply (Z.div_mod_unique m); lia).
        by apply Hin.
      * destruct (Hdone1 i1' i0' i2' Hi1' Hi0' Hi2' ltac:(lia))
          as (v & Hv & Hget).
        exists v. split; [done|]. rewrite Hout; [done|].
        intros i0 Hi0 Heq. apply Hne.
        destruct (entry_offset_inj m k i1' i0' i2' i1 i0 i2)
          as (-> & _ & ->); (done || lia).
    + exists o'. split; [done|]. split; [lia|].
      replace ((i2 + 1) * m) with (i2 * m + m) by lia. done.
  - exists dst'. by split.
Qed.

End AddSlice3Kernel.

(** X17.  For arrays of the sizes the kernel documents ([src1] of [m*n]
    elements, [dst] of [m*k*n] and, unless [beta] compares equal to zero,
    [src2] of [m*k*n]) the kernel stays within bounds and stores at every
    entry [(i1, i0, i2)] of the output, at offset [i2*m*k + i1 + i0*m], the
    value [beta*src2[i1,i0,i2] + alpha*src1[i1,i2]], or [alpha*src1[i1,i2]]
    when [beta] compares equal to zero. *)
Theorem add_slice3_entries (m n k : Index) (alpha : float)
    (src1 : list float) (beta : float) (src2 dst : list float) :
  0 <= m -> 0 <= n -> 0 <= k ->
  Z.of_nat (length src1) = m * n ->
  ((beta =? 0)%float = false -> Z.of_nat (length src2) = m * k * n) ->
  Z.of_nat (length dst) = m * k * n ->
  exists dst',
    AddSlice3.cpu m n k alpha src1 beta src2 dst = Some dst' /\
    length dst' = length dst /\
    forall i1 i0 i2, 0 <= i1 < m -> 0 <= i0 < k -> 0 <= i2 < n ->
      exists v,
        AddSlice3.entry m k alpha src1 beta src2 i1 i0 i2 = Some v /\
        zget dst' (i2 * (m * k) + i1 + i0 * m) = Some v.
Proof.
  intros Hm Hn Hk Hsrc1 Hsrc2 Hdst.
  destruct (add_slice3_run m n k alpha beta src1 src2 Hm Hn Hk Hsrc1 Hsrc2
              dst Hdst) as (dst' & Hrun & Hlen & Hdone).
  exists dst'. split; [done|]. split; [done|].
  intros i1 i0 i2 Hi1 Hi0 Hi2. apply Hdone; try lia. nia.
Qed.

(** X18.  When [beta] compares equal to zero the kernel does not read [src2]
    and overwrites the whole output: the result is the same for any
    [src2], of any length, and for any previous content of the output. *)
Theorem add_slice3_beta_zero (m n k : Index) (alpha : float)
    (src1 : list float) (beta : float) (src2 src2' dst dst2 : list float) :
  0 <= m -> 0 <= n -> 0 <= k ->
  (beta =? 0)%float = true ->
  Z.of_nat (length src1) = m * n ->
  Z.of_nat (length dst) = m * k * n ->
  Z.of_nat (length dst2) = m * k * n ->
  exists dst',
    AddSlice3.cpu m n k alpha src1 beta src2 dst = Some dst' /\
    AddSlice3.cpu m n k alpha src1 beta src2' dst2 = Some dst'.
Proof.
  intros Hm Hn Hk Hbeta Hsrc1 Hdst Hdst2.
  destruct (add_slice3_run m n k alpha beta src1 src2 Hm Hn Hk Hsrc1
              ltac:(by rewrite Hbeta) dst Hdst)
    as (d1 & Hrun1 & Hlen1 & Hdone1).
  destruct (add_slice3_run m n k alpha beta src1 src2' Hm Hn Hk Hsrc1
              ltac:(by rewrite Hbeta) dst2 Hdst2)
    as (d2 & Hrun2 & Hlen2 & Hdone2).
  exists d1. split; [done|]. rewrite Hrun2. f_equal.
  apply zget_ext; [lia|]. intros q.
  destruct (decide (0 <= q < m * k * n)) as [Hq|Hq].
  - assert (0 < m /\ 0 < k) as [Hm0 Hk0] by nia.
    assert (exists i1 i0 i2,
              0 <= i1 < m /\ 0 <= i0 < k /\ 0 <= i2 < n /\
              q = i2 * (m * k) + i1 + i0 * m)
      as (i1 & i0 & i2 & Hi1 & Hi0 & Hi2 & ->).
    { exists (q mod m), ((q / m) mod k), (q / m / k).
      pose proof (Z.div_mod q m ltac:(lia)).
      pose proof (Z.div_mod (q / m) k ltac:(lia)).
      pose proof (Z.mod_pos_bound q m ltac:(lia)).
      pose proof (Z.mod_pos_bound (q / m) k ltac:(lia)).
      repeat split; try lia.
      - apply Z.div_pos; [apply Z.div_pos|]; lia.
      - apply Z.div_lt_upper_bound; [lia|].
        apply Z.div_lt_upper_bound; [lia|]. nia. }
    destruct (Hdone1 i1 i0 i2) as (v1 & Hv1 & Hg1); try lia; [nia|].
    destruct (Hdone2 i1 i0 i2) as (v2 & Hv2 & Hg2); try lia; [nia|].
    unfold AddSlice3.entry in Hv1, Hv2. rewrite Hbeta in Hv1, Hv2.
    congruence.
  - unfold zget. destruct (Z.ltb_spec q 0) as [|Hq0]; [done|].
    rewrite !lookup_ge_None_2; (done || lia).
Qed.

Lemma add_slice3_entries_witness :
  exists dst',
    AddSlice3.cpu 2 1 2 2%float [1%float; 2%float] 1%float
      [10%float; 20%float; 30%float; 40%float] (repeat 0%float 4)
      = Some dst' /\
    zget dst' 3 = Some 44%float.
Proof.
  destruct (add_slice3_entries 2 1 2 2%float [1%float; 2%float] 1%float
              [10%float; 20%float; 30%float; 40%float] (repeat 0%float 4))
    as (dst' & Hrun & _ & Hent); try reflexivity; try lia.
  exists dst'. split; [exact Hrun|].
  destruct (Hent 1 1 0) as (v & Hv & Hget); try lia.
  vm_compute in Hv. assert (v = 44%float) as <- by congruence. exact Hget.
Defined.

Lemma add_slice3_beta_zero_witness :
  exists dst',
    AddSlice3.cpu 2 1 2 2%float [1%float; 2%float] 0%float
      [] (repeat 0%float 4) = Some dst' /\
    AddSlice3.cpu 2 1 2 2%float [1%float; 2%float] 0%float
      [nan; nan; nan; nan] (repeat 7%float 4) = Some dst'.
Proof.
  apply (add_slice3_beta_zero 2 1 2 2%float [1%float; 2%float] 0%float
           [] [nan; nan; nan; nan] (repeat 0%float 4) (repeat 7%float 4));
    (reflexivity || lia).
Defined.

(** *** The sumprod_fiber kernel *)

(** X19.  The innermost loop reads the two sources at [src_fiber[i0*m]], the
    fiber beginning at offset [(i1*k+i2)*m]: for [m >= 2] the last fiber
    is read beyond the [m*k*n] elements of the sources, at offset [m*k*n]
    at the latest, so the kernel has no defined result on sources of that
    size. *)
Theorem sumprod_fiber_out_of_bounds (m n k : Index) (alpha : float)
    (src1 src2 : list float) (beta : float) (dst : list float) :
  2 <= m -> 1 <= n -> 1 <= k ->
  Z.of_nat (length src1) <= m * k * n \/
  Z.of_nat (length src2) <= m * k * n ->
  SumprodFiber.cpu m n k alpha src1 src2 beta dst = None.
Proof.
  intros Hm Hn Hk Hlen.
  destruct (SumprodFiber.cpu m n k alpha src1 src2 beta dst) as [d|] eqn:Hrun;
    [exfalso|done].
  unfold SumprodFiber.cpu in Hrun.
  destruct (for_range_Some_round _ _ _ _ _ Hrun (k - 1))
    as (d1 & d2 & Hout); [lia|].
  unfold SumprodFiber.output_body in Hout.
  destruct (for_range 0 n (SumprodFiber.column_body m k src1 src2 (k - 1))
              (0%float, 0%float)) as [st|] eqn:Hcols; [|done].
  destruct (for_range_Some_round _ _ _ _ _ Hcols (n - 1))
    as (st1 & st2 & Hcol); [lia|].
  unfold SumprodFiber.column_body in Hcol.
  destruct (for_range_Some_round _ _ _ _ _ Hcol 1)
    as (st3 & st4 & Hfib); [lia|].
  unfold SumprodFiber.fiber_body in Hfib.
  destruct (zget src1 (((n - 1) * k + (k - 1)) * m + 1 * m)) as [a|] eqn:Ha;
    [|done].
  cbn [mbind option_bind] in Hfib.
  destruct (zget src2 (((n - 1) * k + (k - 1)) * m + 1 * m)) as [b|] eqn:Hb;
    [|done].
  apply zget_Some_range in Ha, Hb. nia.
Qed.

Lemma sumprod_fiber_out_of_bounds_witness :
  SumprodFiber.cpu 2 1 1 1%float [1%float; 2%float] [3%float; 4%float]
    0%float [0%float] = None.
Proof.
  apply (sumprod_fiber_out_of_bounds 2 1 1 1%float [1%float; 2%float]
           [3%float; 4%float] 0%float [0%float]); try lia.
  left. cbn. lia.
Defined.

Lemma is_column_unique (n k : Index) (src1 src2 : list float) (i2 : Index)
    (p1 p2 : list (float * float)) :
  SumprodFiber.is_column n k src1 src2 i2 p1 ->
  SumprodFiber.is_column n k src1 src2 i2 p2 -> p1 = p2.
Proof.
  intros [Hl1 H1] [Hl2 H2]. apply list_eq. intros i1.
  destruct (decide (i1 < length p1)%nat) as [Hi|Hi].
  - rewrite H1, H2 by lia. done.
  - rewrite !lookup_ge_None_2; (done || lia).
Qed.

Lemma is_column_exists (n k : Index) (src1 src2 : list float) (i2 : Index) :
  0 <= n -> 0 <= i2 < k ->
  Z.of_nat (length src1) = k * n -> Z.of_nat (length src2) = k * n ->
  exists pairs, SumprodFiber.is_column n k src1 src2 i2 pairs.
Proof.
  intros Hn Hi2 Hs1 Hs2.
  exists (map (fun i1 : nat =>
                 (default 0%float (zget src1 (Z.of_nat i1 * k + i2)),
                  default 0%float (zget src2 (Z.of_nat i1 * k + i2))))
              (seq 0 (Z.to_nat n))).
  split; [rewrite length_map, length_seq; lia|].
  rewrite length_map, length_seq. intros i1 Hi1.
  rewrite list_lookup_fmap, lookup_seq_lt by done. cbn.
  destruct (zget_in_range src1 (Z.of_nat i1 * k + i2)) as [a ->]; [nia|].
  destruct (zget_in_range src2 (Z.of_nat i1 * k + i2)) as [b ->]; [nia|].
  done.
Qed.

(** For [m = 1] the loops over a column fold [kahan_step] over the pairs
    of the column. *)
Lemma sumprod_column_loop (n k : Index) (src1 src2 : list float) (i2 : Index)
    (pairs : list (float * float)) :
  SumprodFiber.is_column n k src1 src2 i2 pairs ->
  for_range 0 n (SumprodFiber.column_body 1 k src1 src2 i2)
    (0%float, 0%float)
  = Some (fold_left SumprodFiber.kahan_step pairs (0%float, 0%float)).
Proof.
  intros [Hlen Hread].
  destruct (for_range_inv
              (fun i1 st => 0 <= i1 <= n /\
                 st = fold_left SumprodFiber.kahan_step
                        (take (Z.to_nat i1) pairs) (0%float, 0%float))
              (SumprodFiber.column_body 1 k src1 src2 i2) 0 n
              (0%float, 0%float)) as (st & Hrun & _ & Hst).
  - lia.
  - split; [lia|]. by rewrite take_0.
  - intros i1 st Hi1 [_ Hst].
    assert (exists j, i1 = Z.of_nat j) as [j ->]
      by (exists (Z.to_nat i1); lia).
    rewrite Nat2Z.id in Hst.
    destruct (lookup_lt_is_Some_2 pairs j) as [[a b] Hab]; [lia|].
    pose proof (Hread j ltac:(lia)) as Hj. rewrite Hab in Hj.
    destruct (zget src1 (Z.of_nat j * k + i2)) as [a'|] eqn:Ha; [|done].
    cbn [mbind option_bind] in Hj.
    destruct (zget src2 (Z.of_nat j * k + i2)) as [b'|] eqn:Hb; [|done].
    cbn [mbind option_bind] in Hj. injection Hj as -> ->.
    unfold SumprodFiber.column_body, for_range.
    change (Z.to_nat (1 - 0)) with 1%nat. cbn [for_loop].
    unfold SumprodFiber.fiber_body.
    replace ((Z.of_nat j * k + i2) * 1 + 0 * 1) with (Z.of_nat j * k + i2)
      by lia.
    rewrite Ha, Hb. cbn [mbind option_bind].
    eexists. split; [done|]. split; [lia|].
    replace (Z.to_nat (Z.of_nat j + 1)) with (S j) by lia.
    rewrite (take_S_r _ _ _ Hab), fold_left_app. cbn [fold_left].
    by rewrite Hst.
  - rewrite Hrun, Hst. do 2 f_equal. apply take_ge. lia.
Qed.

(** X20.  For [m = 1] and arrays of the documented sizes the kernel stays within
    bounds, and every entry of the output becomes the compensated sum of
    the products along its column, scaled by [alpha] and, unless [beta]
    compares equal to zero, added to [beta] times the previous entry (which
    is not read when [beta] compares equal to zero). *)
Theorem sumprod_fiber_unit_fibers (n k : Index) (alpha : float)
    (src1 src2 : list float) (beta : float) (dst : list float) :
  0 <= n -> 0 <= k ->
  Z.of_nat (length src1) = k * n -> Z.of_nat (length src2) = k * n ->
  Z.of_nat (length dst) = k ->
  exists dst',
    SumprodFiber.cpu 1 n k alpha src1 src2 beta dst = Some dst' /\
    length dst' = length dst /\
    forall i2 pairs old,
      0 <= i2 < k ->
      SumprodFiber.is_column n k src1 src2 i2 pairs ->
      zget dst i2 = Some old ->
      zget dst' i2
      = Some (SumprodFiber.finish alpha beta
                (fst (fold_left SumprodFiber.kahan_step pairs
                        (0%float, 0%float)))
                (snd (fold_left SumprodFiber.kahan_step pairs
                        (0%float, 0%float))) old).
Proof.
  intros Hn Hk Hs1 Hs2 Hd. unfold SumprodFiber.cpu.
  destruct (for_range_inv
              (fun i2 o => 0 <= i2 <= k /\
                 SumprodFiber.outputs_done n k alpha src1 src2 beta dst i2 o)
              (SumprodFiber.output_body 1 n k alpha src1 src2 beta) 0 k dst)
    as (dst' & Hrun & _ & Hlen & Hdone & _).
  - lia.
  - split; [lia|]. split; [done|]. split; [|done]. intros; lia.
  - intros i2 o Hi2 (_ & Hlen & Hdone & Hrest).
    destruct (is_column_exists n k src1 src2 i2) as [pairs Hpairs];
      try done.
    destruct (zget_in_range dst i2) as [old Hold]; [lia|].
    unfold SumprodFiber.output_body.
    rewrite (sumprod_column_loop n k src1 src2 i2 pairs Hpairs).
    cbn [mbind option_bind].
    destruct (fold_left SumprodFiber.kahan_step pairs (0%float, 0%float))
      as [sum c] eqn:Hfold.
    assert (exists o',
      (if (beta =? 0)%float then zset o i2 (alpha * sum)%float
       else result ← zget o i2;
            zset o i2 ((beta * result - alpha * c) + alpha * sum)%float)
      = Some o' /\
      o' = <[Z.to_nat i2 := SumprodFiber.finish alpha beta sum c old]> o)
      as (o' & -> & ->).
    { unfold SumprodFiber.finish. destruct (beta =? 0)%float.
      - rewrite zset_in_range by lia. by eexists.
      - rewrite Hrest, Hold by lia. cbn [mbind option_bind].
        rewrite zset_in_range by lia. by eexists. }
    eexists. split; [done|]. split; [lia|].
    split; [by rewrite length_insert|]. split.
    + intros l pairs' old' Hl Hpairs' Hold'.
      destruct (Z.eq_dec l i2) as [->|Hne].
      * rewrite (is_column_unique _ _ _ _ _ _ _ Hpairs' Hpairs), Hfold.
        cbn [fst snd]. assert (old' = old) as -> by congruence.
        apply zget_insert_eq. lia.
      * rewrite zget_insert_ne by lia. apply Hdone; (done || lia).
    + intros q Hq. rewrite zget_insert_ne by lia. apply Hrest. lia.
  - exists dst'. split; [done|]. split; [done|].
    intros i2 pairs old Hi2 Hpairs Hold. by apply Hdone.
Qed.

Lemma sumprod_fiber_unit_fibers_witness :
  exists dst',
    SumprodFiber.cpu 1 2 2 2%float
      [1%float; 2%float; 3%float; 4%float]
      [1%float; 1%float; 2%float; 2%float] 1%float [10%float; 20%float]
      = Some dst' /\
    zget dst' 0 = Some 24%float.
Proof.
  destruct (sumprod_fiber_unit_fibers 2 2 2%float
              [1%float; 2%float; 3%float; 4%float]
              [1%float; 1%float; 2%float; 2%float] 1%float
              [10%float; 20%float])
    as (dst' & Hrun & _ & Hent); try reflexivity; try lia.
  exists dst'. split; [exact Hrun|].
  apply (Hent 0 [(1%float, 1%float); (3%float, 2%float)] 10%float);
    try reflexivity; try lia.
  split; [reflexivity|]. intros [|[|i1]] Hi1; try reflexivity.
  cbn in Hi1. lia.
Defined.

(** *** The copy kernel: its scratch buffer, and scalar tiles *)

Lemma for_loop_Some_round_inv {S : Type} (Inv : S -> Prop)
    (body : Index -> S -> option S) (n : nat) (lo : Index) (s s' : S) :
  Inv s ->
  (forall i s0 s1, Inv s0 -> body i s0 = Some s1 -> Inv s1) ->
  for_loop n lo body s = Some s' ->
  forall i, lo <= i < lo + Z.of_nat n ->
    exists si si', Inv si /\ body i si = Some si'.
Proof.
  intros Hs Hpres. revert lo s Hs.
  induction n as [|n IH]; intros lo s Hs Hrun i Hi; [lia|].
  cbn [for_loop] in Hrun.
  destruct (body lo s) as [s1|] eqn:Hbody; [|done].
  destruct (Z.eq_dec i lo) as [->|Hne]; [by eexists _, _|].
  apply (IH (lo + 1) s1); [by eapply Hpres|done|lia].
Qed.

(** X5.  The kernel keeps its two multi-indices in the scratch buffer, which
    must hold [2*ndim] index words: with fewer the first loop writes out
    of bounds.  The words need no initial value: under the preconditions
    of the kernel the result is the same for any two scratch buffers of
    that size. *)
Theorem cpu_copy_intersection_scratch {T : Type}
    (src_shape dst_shape src_start copy_shape dst_start : list Index)
    (src dst : list T) (scratch scratch' : list Index) :
  (copy_shape <> [] ->
   (length scratch < 2 * length copy_shape)%nat ->
   Copy.cpu_copy_intersection (Z.of_nat (length copy_shape))
     src_start (col_major_strides src_shape) copy_shape
     dst_start (col_major_strides dst_shape) src dst scratch = None) /\
  (copy_shape <> [] ->
   fits src_start copy_shape src_shape ->
   fits dst_start copy_shape dst_shape ->
   Z.of_nat (length src) = prod_shape src_shape ->
   Z.of_nat (length dst) = prod_shape dst_shape ->
   length scratch = (2 * length copy_shape)%nat ->
   length scratch' = (2 * length copy_shape)%nat ->
   Copy.cpu_copy_intersection (Z.of_nat (length copy_shape))
     src_start (col_major_strides src_shape) copy_shape
     dst_start (col_major_strides dst_shape) src dst scratch
   = Copy.cpu_copy_intersection (Z.of_nat (length copy_shape))
       src_start (col_major_strides src_shape) copy_shape
       dst_start (col_major_strides dst_shape) src dst scratch').
Proof.
  split.
  - intros Hne Hshort. set (ndim := Z.of_nat (length copy_shape)).
    assert (1 <= ndim) as Hnd
      by (unfold ndim; destruct copy_shape; [done|cbn [length]; lia]).
    unfold Copy.cpu_copy_intersection, Copy.cpu_copy_intersection_on.
    destruct (for_range 0 ndim
                (Copy.init_body ndim src_start copy_shape dst_start)
                (1, scratch)) as [[nelems scr]|] eqn:Hinit; [exfalso|done].
    unfold for_range in Hinit.
    assert (forall i (s0 s1 : Index * list Index),
              length (snd s0) = length scratch ->
              Copy.init_body ndim src_start copy_shape dst_start i s0
                = Some s1 ->
              length (snd s1) = length scratch) as Hpres.
    { intros i [ne0 scr0] [ne1 scr1] Hl Hb. unfold Copy.init_body in Hb.
      cbn [snd] in *.
      destruct (zget copy_shape i); [|done]. cbn [mbind option_bind] in Hb.
      destruct (zget src_start i); [|done]. cbn [mbind option_bind] in Hb.
      destruct (zset scr0 i _) as [scr'|] eqn:Hs1; [|done].
      cbn [mbind option_bind] in Hb.
      destruct (zget dst_start i); [|done]. cbn [mbind option_bind] in Hb.
      destruct (zset scr' (ndim + i) _) as [scr''|] eqn:Hs2; [|done].
      injection Hb as _ <-.
      apply zset_length in Hs1, Hs2. lia. }
    destruct (for_loop_Some_round_inv
                (fun st : Index * list Index =>
                   length (snd st) = length scratch)
                _ _ _ (1, scratch) _ eq_refl Hpres Hinit (ndim - 1))
      as ([ne si] & si' & Hlen & Hbody); [lia|].
    cbn [snd] in Hlen. unfold Copy.init_body in Hbody.
    destruct (zget copy_shape (ndim - 1)) as [c|]; [|done].
    cbn [mbind option_bind] in Hbody.
    destruct (zget src_start (ndim - 1)) as [s|]; [|done].
    cbn [mbind option_bind] in Hbody.
    destruct (zset si (ndim - 1) s) as [scr1|] eqn:Hset1; [|done].
    cbn [mbind option_bind] in Hbody.
    destruct (zget dst_start (ndim - 1)) as [d|]; [|done].
    cbn [mbind option_bind] in Hbody.
    destruct (zset scr1 (ndim + (ndim - 1)) d) as [scr2|] eqn:Hset2; [|done].
    apply zset_length in Hset1. apply zset_Some in Hset2 as [Hr _].
    unfold ndim in *. lia.
  - intros Hne Hfs Hfd Hsrc Hdst Hscr Hscr'.
    destruct (kernel_spec src_shape dst_shape src_start copy_shape dst_start
                src dst scratch) as (d1 & Hk1 & Hn1 & _); try done.
    destruct (kernel_spec src_shape dst_shape src_start copy_shape dst_start
                src dst scratch') as (d2 & Hk2 & Hn2 & _); try done.
    congruence.
Qed.

Lemma cpu_copy_intersection_scratch_witness :
  Copy.cpu_copy_intersection 2 [1; 2] [1; 4] [2; 3] [1; 0] [1; 3]
    (map Z.of_nat (seq 0 20)) (repeat (-1) 12) [7; 7; 7] = None.
Proof.
  apply (proj1 (cpu_copy_intersection_scratch (T := Z)
                  [4; 5] [3; 4] [1; 2] [2; 3] [1; 0]
                  (map Z.of_nat (seq 0 20)) (repeat (-1) 12)
                  [7; 7; 7] [])); [done|cbn; lia].
Defined.

(** X6.  For tiles without axes ([ndim = 0]) [copy_intersection_work] looks at
    no offset and no shape: it always enqueues one task on
    [codelet_copy_ndim0], reading the source and writing the destination,
    and throws exactly when the enqueue is rejected; the task copies the
    one element. *)
Theorem copy_intersection_work_scalar
    (enqueue_ret : list Starpu.event -> Z)
    (src : Tile.t) (src_offset : list Index)
    (dst : Tile.t) (dst_offset : list Index) (scratch : Starpu.Handle)
    (tr : list Starpu.event) :
  Tile.ndim src = 0 ->
  let args := [ Starpu.Buffer Starpu.STARPU_R (Tile.handle src);
                Starpu.Buffer Starpu.STARPU_W (Tile.handle dst);
                Starpu.Flops 0 ] in
  Copy.copy_intersection_work enqueue_ret src src_offset dst dst_offset
    scratch tr
  = (if enqueue_ret tr =? 0 then Ok tt else Throw "ret != 0",
     tr ++ [Starpu.EvTaskInsert Starpu.codelet_copy_ndim0 args
              (enqueue_ret tr)]) /\
  forall (T : Type) (x y : T) (scratch_buf : list Index),
    Copy.run_copy_task Starpu.codelet_copy_ndim0 args [x] [y] scratch_buf
    = Some [x].
Proof.
  intros Hnd args. split; [|done].
  unfold Copy.copy_intersection_work. rewrite Hnd. cbn [Z.eqb].
  unfold Starpu.bind, starpu_task_insert.
  by destruct (enqueue_ret tr =? 0).
Qed.

Lemma copy_intersection_work_scalar_witness :
  Copy.copy_intersection_work (fun _ => 3)
    (Tile.of_shape [] (Starpu.mkHandle 1 0)) [5; 6]
    (Tile.of_shape [] (Starpu.mkHandle 2 0)) []
    (Starpu.mkHandle 3 0) []
  = (Throw "ret != 0",
     [Starpu.EvTaskInsert Starpu.codelet_copy_ndim0
        [ Starpu.Buffer Starpu.STARPU_R (Starpu.mkHandle 1 0);
          Starpu.Buffer Starpu.STARPU_W (Starpu.mkHandle 2 0);
          Starpu.Flops 0 ] 3]).
Proof.
  apply (proj1 (copy_intersection_work_scalar (fun _ => 3)
                  (Tile.of_shape [] (Starpu.mkHandle 1 0)) [5; 6]
                  (Tile.of_shape [] (Starpu.mkHandle 2 0)) []
                  (Starpu.mkHandle 3 0) [] eq_refl)).
Defined.

(** *** [gather_async]: the places of the source tiles *)

Lemma zip_with_mul_inj (x y b : list Index) :
  length x = length b -> length y = length b ->
  Forall (fun n => 1 <= n) b ->
  zip_with Z.mul x b = zip_with Z.mul y b -> x = y.
Proof.
  revert x y. induction b as [|b0 b IH]; intros [|x0 x] [|y0 y];
    simpl; try done.
  intros [= Hx] [= Hy] Hpos [= H0 Hrest].
  apply Forall_cons in Hpos as [Hb0 Hpos].
  f_equal; [nia|by apply IH].
Qed.

(** X10.  The loop of [gather_async] sends no two source tiles to the same place:
    for a grid and a nominal tile shape with entries at least one, the
    multi-indices reached after [i] and after [j] increments from zero give
    the same [dst_tile_start] only when [i = j]. *)
Theorem gather_tile_starts_distinct (gs basetile_shape : list Index)
    (i j : nat) (index_i index_j start_i start_j d0 d1 : list Index) :
  Forall (fun n => 1 <= n) gs ->
  Forall (fun n => 1 <= n) basetile_shape ->
  length basetile_shape = length gs ->
  length d0 = length gs -> length d1 = length gs ->
  Z.of_nat i < prod_shape gs -> Z.of_nat j < prod_shape gs ->
  iter_tile_index gs i = Some index_i ->
  iter_tile_index gs j = Some index_j ->
  Gather.tile_start (Z.of_nat (length gs)) index_i basetile_shape d0
    = Some start_i ->
  Gather.tile_start (Z.of_nat (length gs)) index_j basetile_shape d1
    = Some start_j ->
  start_i = start_j -> i = j.
Proof.
  intros Hgs Hbs Hlb Hd0 Hd1 Hi Hj Hxi Hxj Hsi Hsj Heq.
  rewrite iter_tile_index_spec in Hxi, Hxj by done.
  injection Hxi as <-. injection Hxj as <-.
  pose proof (digits_length gs (Z.of_nat i)) as Hli.
  pose proof (digits_length gs (Z.of_nat j)) as Hlj.
  rewrite <- Hli in Hsi at 1. rewrite <- Hlj in Hsj at 1.
  rewrite tile_start_spec in Hsi, Hsj by lia.
  injection Hsi as <-. injection Hsj as <-.
  apply zip_with_mul_inj in Heq; try done; try lia.
  apply Nat2Z.inj.
  rewrite <- (dot_digits gs (Z.of_nat i)), <- (dot_digits gs (Z.of_nat j))
    by (done || lia).
  by rewrite Heq.
Qed.

Lemma gather_tile_starts_distinct_witness :
  iter_tile_index [3; 2] 4 = Some [1; 1] /\
  Gather.tile_start 2 [1; 1] [2; 2] [0; 0] = Some [2; 2] /\
  4%nat = 4%nat.
Proof.
  split; [reflexivity|]. split; [reflexivity|].
  apply (gather_tile_starts_distinct [3; 2] [2; 2] 4 4 [1; 1] [1; 1]
           [2; 2] [2; 2] [0; 0] [4; 0]);
    try reflexivity; try (repeat constructor; lia); try lia.
Defined.

(** *** The copy kernel: copies into disjoint boxes *)

(** X3.  Two copies into boxes of one destination that share no multi-index,
    from source buffers that share no memory with the destination, commute:
    either order gives the same destination.  (This is what lets the tasks
    of distinct source tiles of a gather run in any order.) *)
Theorem copy_disjoint_commute {T : Type}
    (shape_a shape_b dst_shape : list Index)
    (src_start_a copy_shape_a dst_start_a : list Index)
    (src_start_b copy_shape_b dst_start_b : list Index)
    (src_a src_b dst : list T) (scratch : list Index) :
  copy_shape_a <> [] ->
  length copy_shape_b = length copy_shape_a ->
  fits src_start_a copy_shape_a shape_a ->
  fits dst_start_a copy_shape_a dst_shape ->
  fits src_start_b copy_shape_b shape_b ->
  fits dst_start_b copy_shape_b dst_shape ->
  Z.of_nat (length src_a) = prod_shape shape_a ->
  Z.of_nat (length src_b) = prod_shape shape_b ->
  Z.of_nat (length dst) = prod_shape dst_shape ->
  length scratch = (2 * length copy_shape_a)%nat ->
  (forall p q, in_box copy_shape_a p -> in_box copy_shape_b q ->
     vadd dst_start_a p <> vadd dst_start_b q) ->
  let copy_a := Copy.cpu_copy_intersection_on
                  (Z.of_nat (length copy_shape_a))
                  src_start_a (col_major_strides shape_a) copy_shape_a
                  dst_start_a (col_major_strides dst_shape) in
  let copy_b := Copy.cpu_copy_intersection_on
                  (Z.of_nat (length copy_shape_b))
                  src_start_b (col_major_strides shape_b) copy_shape_b
                  dst_start_b (col_major_strides dst_shape) in
  exists da db d,
    copy_a (Copy.Distinct src_a dst) scratch = Some (Copy.Distinct src_a da) /\
    copy_b (Copy.Distinct src_b da) scratch = Some (Copy.Distinct src_b d) /\
    copy_b (Copy.Distinct src_b dst) scratch = Some (Copy.Distinct src_b db) /\
    copy_a (Copy.Distinct src_a db) scratch = Some (Copy.Distinct src_a d).
Proof.
  intros Hne Hlb Hfsa Hfda Hfsb Hfdb Hsa Hsb Hd Hscr Hdisj copy_a copy_b.
  assert (copy_shape_b <> []) as Hneb by (destruct copy_shape_a, copy_shape_b;
    done).
  pose proof (fits_copy_shape_pos _ _ _ Hfsa) as Hposa.
  pose proof (fits_copy_shape_pos _ _ _ Hfsb) as Hposb.
  destruct (kernel_spec shape_a dst_shape src_start_a copy_shape_a
              dst_start_a src_a dst scratch)
    as (da & Hka & _ & Hla & Hina & Houta); try done.
  destruct (kernel_spec shape_b dst_shape src_start_b copy_shape_b
              dst_start_b src_b da scratch)
    as (dab & Hkab & _ & Hlab & Hinab & Houtab); try done; try lia.
  destruct (kernel_spec shape_b dst_shape src_start_b copy_shape_b
              dst_start_b src_b dst scratch)
    as (db & Hkb & _ & Hlb' & Hinb & Houtb); try done; try lia.
  destruct (kernel_spec shape_a dst_shape src_start_a copy_shape_a
              dst_start_a src_a db scratch)
    as (dba & Hkba & _ & Hlba & Hinba & Houtba); try done; try lia.
  exists da, db, dab. unfold copy_a, copy_b.
  rewrite !cpu_copy_intersection_on_Distinct, Hka, Hkb, Hkab, Hkba.
  cbn [mbind option_bind]. do 3 (split; [done|]). do 2 f_equal.
  apply zget_ext; [lia|]. intros q.
  set (off_a := map (fun p => index_to_linear (of_shape dst_shape)
                                (vadd dst_start_a p)) (box copy_shape_a)).
  set (off_b := map (fun p => index_to_linear (of_shape dst_shape)
                                (vadd dst_start_b p)) (box copy_shape_b)).
  assert (forall x, In x off_a -> ~ In x off_b) as Hab.
  { intros x Hxa Hxb.
    apply in_map_iff in Hxa as (p & <- & Hp), Hxb as (p' & Heq & Hp').
    apply box_spec in Hp, Hp'; try done.
    unfold index_to_linear in Heq. cbn [stride of_shape] in Heq.
    apply dot_col_major_inj in Heq;
      [|by eapply fits_vadd_in_box|by eapply fits_vadd_in_box].
    by apply (Hdisj p p'). }
  destruct (in_dec Z.eq_dec q off_a) as [Ha|Ha];
    [|destruct (in_dec Z.eq_dec q off_b) as [Hb|Hb]].
  - pose proof (Hab q Ha) as Hnb.
    apply in_map_iff in Ha as (p & <- & Hp).
    destruct (Hina p Hp) as (v & Hv & Hg).
    destruct (Hinba p Hp) as (v' & Hv' & Hg').
    rewrite Hg', Houtab by done. congruence.
  - apply in_map_iff in Hb as (p & <- & Hp).
    destruct (Hinab p Hp) as (v & Hv & Hg).
    destruct (Hinb p Hp) as (v' & Hv' & Hg').
    rewrite Hg, Houtba by done. congruence.
  - rewrite Houtab, Houta, Houtba, Houtb by done. done.
Qed.

Lemma copy_disjoint_commute_witness :
  exists da db d,
    Copy.cpu_copy_intersection_on 1 [0] [1] [2] [0] [1]
      (Copy.Distinct [1; 2] [0; 0; 0; 0]) [7; 7]
    = Some (Copy.Distinct [1; 2] da) /\
    Copy.cpu_copy_intersection_on 1 [0] [1] [2] [2] [1]
      (Copy.Distinct [3; 4] da) [7; 7]
    = Some (Copy.Distinct [3; 4] d) /\
    Copy.cpu_copy_intersection_on 1 [0] [1] [2] [2] [1]
      (Copy.Distinct [3; 4] [0; 0; 0; 0]) [7; 7]
    = Some (Copy.Distinct [3; 4] db) /\
    Copy.cpu_copy_intersection_on 1 [0] [1] [2] [0] [1]
      (Copy.Distinct [1; 2] db) [7; 7]
    = Some (Copy.Distinct [1; 2] d).
Proof.
  apply (copy_disjoint_commute (T := Z) [2] [2] [4] [0] [2] [0] [0] [2] [2]
           [1; 2] [3; 4] [0; 0; 0; 0] [7; 7]);
    try done; try (simpl; lia).
  intros p q Hp Hq.
  apply in_box_lookup in Hp as [Hlp Hp], Hq as [Hlq Hq].
  destruct p as [|p0 [|]]; try done. destruct q as [|q0 [|]]; try done.
  specialize (Hp 0%nat 2 p0 eq_refl eq_refl).
  specialize (Hq 0%nat 2 q0 eq_refl eq_refl).
  cbn. intros [= H]. lia.
Defined.

(** *** The maxsumexp kernel: every entry *)

(** X14.  For arrays of the documented sizes the kernel stays within bounds, and
    every pair of the output is what the slice of that pair makes of the
    pair that was there: the pair depends on no other slice and on no other
    entry of the output. *)
Theorem maxsumexp_entries (exp : float -> float) (m n k : Index)
    (src out : list float) :
  0 <= m -> 0 <= n -> 1 <= k ->
  Z.of_nat (length src) = m * k * n ->
  Z.of_nat (length out) = 2 * m * n ->
  exists out',
    Maxsumexp.cpu exp m n k src out = Some out' /\
    length out' = length out /\
    forall i1 i2 slice,
      0 <= i1 < m -> 0 <= i2 < n ->
      Maxsumexp.is_slice m k src i1 i2 slice ->
      exists a0 b0,
        zget out (2 * (i2 * m + i1)) = Some a0 /\
        zget out (2 * (i2 * m + i1) + 1) = Some b0 /\
        zget out' (2 * (i2 * m + i1))
          = Some (fst (Maxsumexp.slice_update exp slice (a0, b0))) /\
        zget out' (2 * (i2 * m + i1) + 1)
          = Some (snd (Maxsumexp.slice_update exp slice (a0, b0))).
Proof.
  intros Hm Hn Hk Hsrc Hout.
  destruct (cpu_spec exp m n k src out) as (out' & Hrun & Hlen & Hdone & _);
    try done.
  exists out'. split; [done|]. split; [done|].
  intros i1 i2 slice Hi1 Hi2 Hslice. apply Hdone; try done; [lia|nia].
Qed.

Lemma maxsumexp_entries_witness :
  exists out',
    Maxsumexp.cpu (fun x => x) 1 1 2 [1%float; 2%float] [0%float; 0%float]
      = Some out' /\
    length out' = 2%nat.
Proof.
  destruct (maxsumexp_entries (fun x => x) 1 1 2 [1%float; 2%float]
              [0%float; 0%float]) as (out' & Hrun & Hlen & _);
    try reflexivity; try lia.
  exists out'. split; [exact Hrun|exact Hlen].
Defined.
